(** * anyreduce: a shallow embedding of the reduction engine

    The development follows the two source modules:
    - [anyreduce/sequencepasses.py]: [find_integer] and [linear_reduce];
    - [anyreduce/reducer.py]: the [Reducer] class (cached predicate, best
      tracker and the catalogue of passes driven to a fixed point).

    Python integers are unbounded and are modelled by [Z] (indices produced
    by [enumerate] by [nat]); byte strings are lists of [Byte.byte]; the
    cache (a Python [dict]) is a [gmap Z bool]; sets of indices are
    [gset nat].

    The Python code is imperative: passes call [self.predicate], read
    [self.current] and loop.  Programs are embedded in a small free monad
    [prog] over the calls a piece of code can make to its environment; loops
    that Python writes as [while] take a fuel argument and end in [Diverge]
    when it is exhausted; exceptions end in [Raise].  What lies outside the
    two modules is supplied from outside the model: the digest
    ([hashlib.sha1]), the external predicate with the world it runs in, and
    the regular expression engine ([re]).  The [debug] flag and its messages
    are left out.

    The file has three parts: the embedding of the source, the notions used
    in the statements, and the properties with their proofs. *)

From Stdlib Require Import ZArith Lia List Bool Strings.Byte Strings.String.
From stdpp Require Import base tactics option list gmap.

Local Open Scope Z_scope.

(** ** Byte strings *)

Abbreviation bytes := (list byte).

#[global] Instance byte_eq_decision : EqDecision byte := Byte.byte_eq_dec.

(** A literal such as [b"typedef"]. *)
Definition b_lit (s : string) : bytes := String.list_byte_of_string s.

(** The value of a byte as a Python [int] (iterating over [bytes] yields
    integers in [0, 256)). *)
Definition byte_val (b : byte) : Z := Z.of_N (Byte.to_N b).

(** ** Programs

    [Vis e k] performs the call [e] and continues with [k] applied to its
    answer.  [resp e] is the type of the answer. *)

Inductive exn : Type :=
| ValueError
| AssertionError
| IndexError
| ReError.

Section Prog.
Context {E : Type} {resp : E -> Type}.

Inductive prog (A : Type) : Type :=
| Ret (a : A)
| Raise (e : exn)
| Diverge
| Vis (e : E) (k : resp e -> prog A).

Arguments Ret {A} a.
Arguments Raise {A} e.
Arguments Diverge {A}.
Arguments Vis {A} e k.

Fixpoint pbind {A B} (m : prog A) (f : A -> prog B) : prog B :=
  match m with
  | Ret a => f a
  | Raise e => Raise e
  | Diverge => Diverge
  | Vis e k => Vis e (fun x => pbind (k x) f)
  end.

Definition call (e : E) : prog (resp e) := Vis e Ret.

(** How a program ended. *)
Inductive outcome (A : Type) : Type :=
| Returned (a : A)
| Raised (e : exn)
| Timeout.

Arguments Returned {A} a.
Arguments Raised {A} e.
Arguments Timeout {A}.

(** Running a program against a handler that answers each call and
    threads the state of the environment. *)
Fixpoint run {S A} (h : forall e : E, S -> resp e * S) (p : prog A) (s : S)
  : outcome A * S :=
  match p with
  | Ret a => (Returned a, s)
  | Raise e => (Raised e, s)
  | Diverge => (Timeout, s)
  | Vis e k => let '(x, s') := h e s in run h (k x) s'
  end.
End Prog.

Arguments prog E resp A : clear implicits.
Arguments Ret {E resp A} a.
Arguments Raise {E resp A} e.
Arguments Diverge {E resp A}.
Arguments Vis {E resp A} e k.
Arguments outcome A : clear implicits.
Arguments Returned {A} a.
Arguments Raised {A} e.
Arguments Timeout {A}.

#[global] Instance prog_ret {E resp} : MRet (prog E resp) := fun A a => Ret a.
#[global] Instance prog_bind {E resp} : MBind (prog E resp) :=
  fun A B f m => pbind m f.

(** ** sequencepasses.py *)

Section SequencePasses.
Context {E : Type} {resp : E -> Type}.
Abbreviation M := (prog E resp).

(** [for i in range(1, 5): if not f(i): return i - 1], followed by [rest]. *)
Fixpoint find_integer_scan (f : Z -> M bool) (ks : list Z) (rest : M Z) : M Z :=
  match ks with
  | [] => rest
  | i :: ks' =>
      b ← f i;
      if negb b then mret (i - 1) else find_integer_scan f ks' rest
  end.

(** [while f(hi): lo = hi; hi *= 2] *)
Fixpoint find_integer_probe (fuel : nat) (f : Z -> M bool) (lo hi : Z)
  : M (Z * Z) :=
  match fuel with
  | O => Diverge
  | S fuel' =>
      b ← f hi;
      if (b : bool) then find_integer_probe fuel' f hi (hi * 2)
      else mret (lo, hi)
  end.

(** [while lo + 1 < hi: mid = (lo + hi) // 2; ...] *)
Fixpoint find_integer_bisect (fuel : nat) (f : Z -> M bool) (lo hi : Z) : M Z :=
  match fuel with
  | O => Diverge
  | S fuel' =>
      if lo + 1 <? hi then
        let mid := (lo + hi) / 2 in
        b ← f mid;
        if (b : bool) then find_integer_bisect fuel' f mid hi
        else find_integer_bisect fuel' f lo mid
      else mret lo
  end.

Definition find_integer (fuel : nat) (f : Z -> M bool) : M Z :=
  find_integer_scan f [1; 2; 3; 4]
    ('(lo, hi) ← find_integer_probe fuel f 4 5;
     find_integer_bisect fuel f lo hi).
End SequencePasses.

(** *** An oracle that records the arguments it is asked about *)

Definition oracle_handler (g : Z -> bool) (k : Z) (log : list Z) : bool * list Z :=
  (g k, log ++ [k]).

Definition ask : Z -> prog Z (fun _ => bool) bool := call.

Definition find_integer_logged (fuel : nat) (g : Z -> bool) : outcome Z * list Z :=
  run (oracle_handler g) (find_integer fuel ask) [].

Example find_integer_ex1 :
  find_integer_logged 10 (fun k => k <=? 13) = (Returned 13, [1; 2; 3; 4; 5; 10; 20; 15; 12; 13; 14]).
Proof. reflexivity. Qed.


(** *** Slices

    [l[a:]] and [l[:a]] with Python's reading of a negative bound (counted
    from the end, clamped at the start). *)

Definition len {A} (l : list A) : Z := Z.of_nat (length l).

Definition slice_bound {A} (l : list A) (a : Z) : nat :=
  if a <? 0 then Z.to_nat (Z.max 0 (len l + a)) else Z.to_nat a.

Definition slice_from {A} (l : list A) (a : Z) : list A := drop (slice_bound l a) l.
Definition slice_to {A} (l : list A) (a : Z) : list A := take (slice_bound l a) l.

Section LinearReduce.
Context {E : Type} {resp : E -> Type} {A : Type}.
Abbreviation M := (prog E resp).

(** [for offset in [2, 3]: ...], the fallback probes; the [break] leaves the
    [for] loop with the accepted attempt. *)
Fixpoint linear_reduce_fallback (predicate : list A -> M bool)
    (sequence prefix : list A) (i : Z) (offsets : list Z) : M (list A) :=
  match offsets with
  | [] => mret sequence
  | offset :: offsets' =>
      if i + offset <=? len sequence then
        let attempt := prefix ++ slice_from sequence (i + offset) in
        b ← predicate attempt;
        if (b : bool) then mret attempt
        else linear_reduce_fallback predicate sequence prefix i offsets'
      else linear_reduce_fallback predicate sequence prefix i offsets'
  end.

(** One turn of the [while i < len(sequence)] loop per unit of [turns];
    [fuel] bounds the loops of the calls to [find_integer]. *)
Fixpoint linear_reduce_loop (turns fuel : nat) (predicate : list A -> M bool)
    (sequence : list A) (i : Z) : M (list A) :=
  match turns with
  | O => Diverge
  | S turns' =>
      if i <? len sequence then
        let prev := sequence in
        let prefix := slice_to sequence i in
        n ← find_integer fuel (fun k =>
               if i + k <=? len sequence
               then predicate (prefix ++ slice_from sequence (i + k))
               else mret false);
        if n <? 0 then Raise AssertionError else
        sequence1 ←
          (if 0 <? n then mret (prefix ++ slice_from sequence (i + n))
           else linear_reduce_fallback predicate sequence prefix i [2; 3]);
        '(sequence2, stop) ←
          (if i + 2 <? len sequence1 then
             let attempt := delete (Z.to_nat i) (delete (Z.to_nat (i + 2)) sequence1) in
             b ← predicate attempt;
             if (b : bool) then mret (attempt, true) else mret (sequence1, false)
           else mret (sequence1, false));
        if (stop : bool) then mret sequence2
        else if len prev =? len sequence2
             then linear_reduce_loop turns' fuel predicate sequence2 (i + 1)
             else linear_reduce_loop turns' fuel predicate sequence2 (Z.max 0 (i - 1))
      else mret sequence
  end.

Definition linear_reduce (fuel : nat) (sequence : list A)
    (predicate : list A -> M bool) : M (list A) :=
  linear_reduce_loop fuel fuel predicate sequence 0.
End LinearReduce.

(** *** A predicate on sequences that records the candidates it is given *)

Definition candidate_handler {A} (p : list A -> bool) (c : list A)
    (log : list (list A)) : bool * list (list A) :=
  (p c, log ++ [c]).

Definition submit {A} : list A -> prog (list A) (fun _ => bool) bool := call.

Definition linear_reduce_logged {A} (fuel : nat) (p : list A -> bool)
    (sequence : list A) : outcome (list A) * list (list A) :=
  run (candidate_handler p) (linear_reduce fuel sequence submit) [].

Example linear_reduce_ex1 :
  linear_reduce_logged 20 (fun l => bool_decide (3 ∈ l)) [1; 2; 3; 4; 5]
  = (Returned [3],
     [[2; 3; 4; 5]; [3; 4; 5]; [4; 5]; [4]; [4; 5]; [5]; []; [4]; [3; 5];
      [3]; []]).
Proof. vm_compute. reflexivity. Qed.


(** ** reducer.py *)

(** *** Keys *)

(** [int.from_bytes(b, "big")] *)
Definition from_bytes_big (b : bytes) : Z :=
  fold_left (fun acc c => acc * 256 + byte_val c) b 0.

(** Comparison of byte strings, as Python orders [bytes]: lexicographic on
    the unsigned values, a proper prefix being smaller. *)
Fixpoint bytes_lt (a b : bytes) : bool :=
  match a, b with
  | _, [] => false
  | [], _ :: _ => true
  | x :: a', y :: b' =>
      if byte_val x <? byte_val y then true
      else if byte_val y <? byte_val x then false
      else bytes_lt a' b'
  end.

(** [sort_key(a) < sort_key(b)]: the tuples [(len(a), a)] and [(len(b), b)]
    are compared at their first differing component. *)
Definition sort_key_lt (a b : bytes) : bool :=
  if len a =? len b then bytes_lt a b else len a <? len b.

(** [to_bs]: a delimiter is passed either as an [int] or as [bytes]. *)
Inductive int_or_bytes : Type :=
| PyInt (c : byte)
| PyBytes (b : bytes).

Definition to_bs (c : int_or_bytes) : bytes :=
  match c with
  | PyInt c => [c]
  | PyBytes b => b
  end.

(** [BRACKETS = [b"{}", b"()", b"[]"]], each as its two bytes. *)
Definition BRACKETS : list (byte * byte) :=
  [("{"%byte, "}"%byte); ("("%byte, ")"%byte); ("["%byte, "]"%byte)].

(** *** The engine's state

    [current_id] stands for the identity of the object bound to
    [self.current]: the passes compare it with [is not].  [invoked] is a
    ghost field: the values on which the external predicate was run, oldest
    first. *)

Record reducer {World : Type} : Type := mkReducer {
  current : bytes;
  current_id : nat;
  cache : gmap Z bool;
  world : World;
  invoked : list bytes
}.
Arguments reducer World : clear implicits.
Arguments mkReducer {World}.

Section Engine.
(** [hashlib.sha1(value).digest()], the external predicate and the state of
    the world it runs in are supplied from outside the engine. *)
Variable sha1 : bytes -> bytes.
Variable World : Type.
Variable ext : bytes -> World -> bool * World.

Abbreviation state := (reducer World).

Definition cache_key (value : bytes) : Z := from_bytes_big (take 8 (sha1 value)).

(** [Reducer.__init__] *)
Definition init (initial : bytes) (w : World) : outcome state :=
  let '(result, w') := ext initial w in
  if negb result then Raised ValueError
  else Returned {| current := initial; current_id := 0;
                   cache := <[cache_key initial := result]> ∅;
                   world := w'; invoked := [initial] |}.

(** [Reducer.predicate].  The two [debug] messages are not modelled; the
    percentage in the first divides by [len(self.current)], which is not zero
    there since a value sorts below [self.current]. *)
Definition predicate (value : bytes) (st : state) : bool * state :=
  let key := cache_key value in
  match cache st !! key with
  | Some r => (r, st)
  | None =>
      let '(result, w') := ext value (world st) in
      let shrink := result && sort_key_lt value (current st) in
      (result,
       {| current := if shrink then value else current st;
          current_id := if shrink then S (current_id st) else current_id st;
          cache := <[key := result]> (cache st);
          world := w';
          invoked := invoked st ++ [value] |})
  end.

(** What a pass can do to the engine: call [self.predicate(value)] or read
    [self.current] (the object's identity and its value). *)
Inductive engine_call : Type :=
| Predicate (value : bytes)
| Current.

Definition engine_resp (c : engine_call) : Type :=
  match c with
  | Predicate _ => bool
  | Current => (nat * bytes)%type
  end.

Definition engine (c : engine_call) (st : state) : engine_resp c * state :=
  match c with
  | Predicate value => predicate value st
  | Current => ((current_id st, current st), st)
  end.
End Engine.

Abbreviation pass := (prog engine_call engine_resp).

Definition self_predicate (value : bytes) : pass bool := call (Predicate value).
Definition self_current : pass bytes := '(_, c) ← call Current; mret c.
Definition self_current_id : pass nat := '(i, _) ← call Current; mret i.

(** [Reducer.attempt] *)
Definition attempt (value : bytes) : pass bool :=
  cur ← self_current;
  if sort_key_lt value cur then self_predicate value else mret false.

(** [Reducer.find_paired_brackets]: the scan threads the index, the stack
    (top first) and the results (in emission order); [lbr] and [rbr] are the
    source's [left] and [right]. *)
Definition paired_step (lbr rbr : byte) (acc : nat * list nat * list (nat * nat))
    (c : byte) : nat * list nat * list (nat * nat) :=
  let '(i, stack, results) := acc in
  if bool_decide (c = lbr) then (S i, i :: stack, results)
  else if bool_decide (c = rbr) then
    match stack with
    | top :: stack' => (S i, stack', results ++ [(top, i)])
    | [] => (S i, stack, results)
    end
  else (S i, stack, results).

Definition paired_scan (lbr rbr : byte) (target : bytes)
    : nat * list nat * list (nat * nat) :=
  fold_left (paired_step lbr rbr) target (O, [], []).

Definition find_paired_brackets (bracket : byte * byte) (target : bytes)
    : list (nat * nat) :=
  let '(lbr, rbr) := bracket in (paired_scan lbr rbr target).2.

Example find_paired_brackets_ex1 :
  find_paired_brackets ("("%byte, ")"%byte) (b_lit ")a(b(c)d)((") = [(4, 6); (2, 8)]%nat.
Proof. reflexivity. Qed.


(** *** Operations on [bytes] *)

(** [s.startswith(p)] *)
Fixpoint starts_with (p s : bytes) : bool :=
  match p, s with
  | [], _ => true
  | _ :: _, [] => false
  | x :: p', y :: s' => bool_decide (x = y) && starts_with p' s'
  end.

(** [s.split(sep)] for a non-empty [sep]: [skip] counts the bytes of a
    separator still to be passed over, [acc] holds the part being read,
    last byte first. *)
Fixpoint split_go (sep : bytes) (skip : nat) (acc : bytes) (s : bytes) : list bytes :=
  match s with
  | [] => [reverse acc]
  | c :: s' =>
      match skip with
      | S k => split_go sep k acc s'
      | O =>
          if starts_with sep s
          then reverse acc :: split_go sep (length sep - 1) [] s'
          else split_go sep O (c :: acc) s'
      end
  end.

(** [s.split(sep)]; [None] stands for the [ValueError] ("empty separator"). *)
Definition bytes_split (sep s : bytes) : option (list bytes) :=
  match sep with
  | [] => None
  | _ :: _ => Some (split_go sep O [] s)
  end.

(** [sep.join(parts)] *)
Fixpoint bytes_join (sep : bytes) (parts : list bytes) : bytes :=
  match parts with
  | [] => []
  | [p] => p
  | p :: parts' => p ++ sep ++ bytes_join sep parts'
  end.

(** [s.replace(old, new)] *)
Fixpoint replace_go (old new : bytes) (skip : nat) (s : bytes) : bytes :=
  match s with
  | [] => []
  | c :: s' =>
      match skip with
      | S k => replace_go old new k s'
      | O =>
          if starts_with old s
          then new ++ replace_go old new (length old - 1) s'
          else c :: replace_go old new O s'
      end
  end.

Definition bytes_replace (old new s : bytes) : bytes :=
  match old with
  | [] => new ++ (s ≫= fun c => c :: new)
  | _ :: _ => replace_go old new O s
  end.

(** [s.index(sub, start)]: the lowest index, not below [start], at which
    [sub] occurs; [None] stands for the [ValueError]. *)
Fixpoint index_go (sub : bytes) (pos : nat) (s : bytes) : option nat :=
  if starts_with sub s then Some pos
  else match s with
       | [] => None
       | _ :: s' => index_go sub (S pos) s'
       end.

Definition bytes_index (sub s : bytes) (start : nat) : option nat :=
  if (length s <? start)%nat then None else index_go sub start (drop start s).

(** [filter(None, parts)]: the parts that are not empty. *)
Definition nonempty_parts (parts : list bytes) : list bytes :=
  filter (fun p => p <> []) parts.

(** *** Delimiter-based reduction *)

(** [self.current.split(delimiter)] *)
Definition split_current (delimiter : bytes) : pass (list bytes) :=
  cur ← self_current;
  match bytes_split delimiter cur with
  | Some parts => mret parts
  | None => Raise ValueError
  end.

(** [Reducer.reduce_by_delimiter], up to and including the second [attempt]:
    it yields the delimiter in force, the parts and the second verdict. *)
Definition reduce_by_delimiter_joins (delimiter : bytes)
    : pass (bytes * list bytes * bool) :=
  parts ← split_current delimiter;
  joined ← attempt (bytes_join [] parts);
  let delimiter := if (joined : bool) then [] else delimiter in
  again ← attempt (bytes_join delimiter (nonempty_parts parts));
  mret (delimiter, parts, again).

(** [Reducer.reduce_by_delimiter] *)
Definition reduce_by_delimiter (fuel : nat) (delimiter : int_or_bytes) : pass bool :=
  prev ← self_current_id;
  let delimiter := to_bs delimiter in
  '(delimiter, parts, again) ← reduce_by_delimiter_joins delimiter;
  parts ← (if (again : bool) then split_current delimiter else mret parts);
  let parts := reverse parts in
  _ ← linear_reduce fuel parts
        (fun ls => self_predicate (bytes_join delimiter (reverse ls)));
  now ← self_current_id;
  mret (negb (prev =? now)%nat).

Example bytes_split_ex1 :
  bytes_split (b_lit ";") (b_lit "a;;bc;") = Some [b_lit "a"; []; b_lit "bc"; []].
Proof. reflexivity. Qed.

Example bytes_split_ex2 :
  bytes_split (b_lit "ab") (b_lit "xabababy") = Some [b_lit "x"; []; []; b_lit "y"].
Proof. reflexivity. Qed.

Example bytes_replace_ex1 :
  bytes_replace (b_lit "aa") (b_lit "b") (b_lit "aaaxaa") = b_lit "baxb".
Proof. reflexivity. Qed.

Example bytes_index_ex1 :
  bytes_index (b_lit " ") (b_lit "a b c") 2 = Some 3%nat
  /\ bytes_index (b_lit " ") (b_lit "a b c") 4 = None.
Proof. split; reflexivity. Qed.

(** *** Regular expressions

    The passes use Python's [re] module on a fixed set of patterns.  The
    module is not part of the engine: what [finditer] and [sub] answer is
    taken from a [regex] supplied from outside. *)

Inductive pattern : Type :=
| P_line_comment            (* rb"(#|//)[^\n]+\n" *)
| P_block_comment           (* rb"/\*.+\*/" *)
| P_leading_space           (* rb"^\s+", re.MULTILINE *)
| P_trailing_space          (* rb"\s+$", re.MULTILINE *)
| P_semicolons              (* b";\s*;" *)
| P_empty_braces            (* b"\{\s+\}" *)
| P_typedef                 (* br"typedef\s+(.+)\s+(\w+)\s*;" *)
| P_identifier              (* rb"\b[A-Za-z_]\w+\b" *)
| P_word (name : bytes).    (* rb"\b" + name + rb"\b" *)

(** A match object: [m.start()], [m.end()] and [m.group(1)], [m.group(2)],
    ... in order. *)
Record re_match : Type := mkMatch {
  m_start : nat;
  m_end : nat;
  m_groups : list bytes
}.

(** [re_finditer p s] is [list(re.compile(p).finditer(s))]; [re_sub p repl s]
    is [re.sub(p, repl, s)], [None] standing for an [re.error] (a bad
    replacement template). *)
Record regex : Type := mkRegex {
  re_finditer : pattern -> bytes -> list re_match;
  re_sub : pattern -> bytes -> bytes -> option bytes
}.

(** [m.group(n)] for [n >= 1]; a group that is absent reads as empty. *)
Definition m_group (m : re_match) (n : nat) : bytes :=
  default [] (m_groups m !! pred n).

(** [s[a:b]] for indices within range. *)
Definition slice {A} (l : list A) (a b : nat) : list A := take (b - a) (drop a l).

(** *** A variable local to a pass

    A closure that assigns to a [nonlocal] variable is a program over the
    engine's calls and the reads and writes of that variable. *)

Inductive local_call (R E : Type) : Type :=
| GetLocal
| SetLocal (r : R)
| Outer (e : E).
Arguments GetLocal {R E}.
Arguments SetLocal {R E} r.
Arguments Outer {R E} e.

Definition local_resp {R E} (resp : E -> Type) (c : local_call R E) : Type :=
  match c with
  | GetLocal => R
  | SetLocal _ => unit
  | Outer e => resp e
  end.

Fixpoint run_local {R E} {resp : E -> Type} {A}
    (p : prog (local_call R E) (local_resp resp) A) (r : R) : prog E resp (A * R) :=
  match p with
  | Ret a => Ret (a, r)
  | Raise e => Raise e
  | Diverge => Diverge
  | Vis c k =>
      match c return (local_resp resp c -> prog (local_call R E) (local_resp resp) A) -> _ with
      | GetLocal => fun k => run_local (k r) r
      | SetLocal r' => fun k => run_local (k tt) r'
      | Outer e => fun k => Vis e (fun x => run_local (k x) r)
      end k
  end.

(** *** Deleting many sets of indices *)

(** A stable sort: [before x y] says that [x] must come before [y]. *)
Fixpoint insert_by {A} (before : A -> A -> bool) (x : A) (l : list A) : list A :=
  match l with
  | [] => [x]
  | y :: l' => if before x y then x :: y :: l' else y :: insert_by before x l'
  end.

Definition sort_by {A} (before : A -> A -> bool) (l : list A) : list A :=
  fold_left (fun acc x => insert_by before x acc) l [].

(** Comparison of lists of integers, as Python orders lists. *)
Fixpoint list_lt (a b : list nat) : bool :=
  match a, b with
  | _, [] => false
  | [], _ :: _ => true
  | x :: a', y :: b' =>
      if (x <? y)%nat then true else if (y <? x)%nat then false else list_lt a' b'
  end.

(** [sorted(s, reverse=True)] *)
Definition sorted_desc (s : gset nat) : list nat :=
  sort_by (fun x y => (y <? x)%nat) (elements s).

(** The sort key [(len(s), sorted(s, reverse=True))] of a set is greater
    than that of another. *)
Definition set_key_gt (s t : gset nat) : bool :=
  if (size s =? size t)%nat then list_lt (sorted_desc t) (sorted_desc s)
  else (size t <? size s)%nat.

(** The bytes of [target] at the indices that [keep] holds of. *)
Fixpoint select_from (keep : nat -> bool) (i : nat) (target : bytes) : bytes :=
  match target with
  | [] => []
  | c :: target' =>
      if keep i then c :: select_from keep (S i) target'
      else select_from keep (S i) target'
  end.

Abbreviation deleter := (prog (local_call (gset nat) engine_call) (local_resp engine_resp)).

(** The closure [try_remove(i, j)]; the local variable is [retained]. *)
Definition try_remove (sets : list (gset nat)) (target : bytes) (i j : Z)
    : deleter bool :=
  if len sets <? j then mret false
  else
    let to_remove : gset nat :=
      ⋃ (take (Z.to_nat (j - i)) (drop (Z.to_nat i) sets)) in
    retained ← call (GetLocal : local_call (gset nat) engine_call);
    if bool_decide (to_remove ## (retained : gset nat)) then mret true
    else
      result ← call (Outer (Predicate
                  (select_from
                     (fun i => bool_decide (i ∈ retained) && negb (bool_decide (i ∈ to_remove)))
                     O target)) : local_call (gset nat) engine_call);
      if (result : bool) then
        _ ← call (SetLocal (retained ∖ to_remove) : local_call (gset nat) engine_call);
        mret true
      else mret false.

(** [while i < len(sets): k = find_integer(...); i += k + 1] *)
Fixpoint delete_many_loop (n fuel : nat) (sets : list (gset nat)) (target : bytes)
    (i : Z) : deleter unit :=
  match n with
  | O => Diverge
  | S n' =>
      if i <? len sets then
        k ← find_integer fuel (fun t => try_remove sets target i (i + t));
        delete_many_loop n' fuel sets target (i + k + 1)
      else mret tt
  end.

(** [Reducer.attempt_delete_many_sets]; its result ([True] or [None]) is
    used by no caller and is not kept. *)
Definition attempt_delete_many_sets (fuel : nat) (sets : list (gset nat)) : pass unit :=
  let sets := sort_by set_key_gt sets in
  target ← self_current;
  let retained : gset nat := list_to_set (seq 0 (length target)) in
  _ ← run_local
        (all ← try_remove sets target 0 (len sets);
         if (all : bool) then mret tt
         else delete_many_loop fuel fuel sets target 0)
        retained;
  mret tt.

(** [range(a, b)] as a set of indices. *)
Definition range_set (a b : nat) : gset nat := list_to_set (seq a (b - a)).

(** *** The textual passes *)

Section Passes.
Variable re : regex.

(** [Reducer.remove_byte] *)
Definition remove_byte (c : int_or_bytes) : pass bool :=
  let c := to_bs c in
  cur ← self_current;
  attempt (bytes_replace c [] cur).

(** [Reducer.strip_re] *)
Definition strip_re (fuel : nat) (expr : pattern) : pass unit :=
  cur ← self_current;
  attempt_delete_many_sets fuel
    (map (fun m => range_set (m_start m) (m_end m)) (re_finditer re expr cur)).

(** [Reducer.remove_comments] *)
Definition remove_comments (fuel : nat) : pass unit :=
  _ ← strip_re fuel P_line_comment;
  strip_re fuel P_block_comment.

(** [re.sub(p, empty, self.current)], for the empty byte string [empty],
    submitted to [submit]. *)
Definition sub_current (p : pattern) (submit : bytes -> pass bool) : pass bool :=
  cur ← self_current;
  match re_sub re p [] cur with
  | Some v => submit v
  | None => Raise ReError
  end.

(** [while self.attempt(self.current.replace(b"\n\n", b"\n")): pass] *)
Fixpoint squeeze_newlines (n : nat) : pass unit :=
  match n with
  | O => Diverge
  | S n' =>
      cur ← self_current;
      again ← attempt (bytes_replace [x0a; x0a] [x0a] cur);
      if (again : bool) then squeeze_newlines n' else mret tt
  end.

(** [Reducer.normalize_whitespace] *)
Definition normalize_whitespace (fuel : nat) : pass unit :=
  _ ← remove_byte (PyBytes [x0d]);
  _ ← sub_current P_leading_space self_predicate;
  _ ← sub_current P_trailing_space self_predicate;
  squeeze_newlines fuel.

(** [for brackets in BRACKETS: ...] of [Reducer.delete_bracket_contents] *)
Fixpoint delete_bracket_contents_each (fuel : nat) (kinds : list (byte * byte))
    : pass unit :=
  match kinds with
  | [] => mret tt
  | brackets :: kinds' =>
      cur ← self_current;
      _ ← attempt_delete_many_sets fuel
            (map (fun '(i, j) => range_set (i + 1) j) (find_paired_brackets brackets cur));
      _ ← reduce_by_delimiter fuel (PyInt brackets.1);
      delete_bracket_contents_each fuel kinds'
  end.

Definition delete_bracket_contents (fuel : nat) : pass unit :=
  delete_bracket_contents_each fuel BRACKETS.

(** [Reducer.debracket] *)
Fixpoint debracket_each (fuel : nat) (kinds : list (byte * byte)) : pass unit :=
  match kinds with
  | [] => mret tt
  | b :: kinds' =>
      cur ← self_current;
      _ ← attempt_delete_many_sets fuel
            (map (fun '(i, j) => {[i; j]}) (find_paired_brackets b cur));
      debracket_each fuel kinds'
  end.

Definition debracket (fuel : nat) : pass unit := debracket_each fuel BRACKETS.

(** [zip(indices, indices[1:])] *)
Definition adjacent (indices : list nat) : list (nat * nat) :=
  zip indices (drop 1 indices).

(** [[i for i, b in enumerate(target) if b == c]] *)
Fixpoint indices_of (c : byte) (i : nat) (target : bytes) : list nat :=
  match target with
  | [] => []
  | b :: target' =>
      if bool_decide (b = c) then i :: indices_of c (S i) target'
      else indices_of c (S i) target'
  end.

(** [Reducer.kill_strings] *)
Fixpoint kill_strings_each (fuel : nat) (quotes : list byte) : pass unit :=
  match quotes with
  | [] => mret tt
  | c :: quotes' =>
      cur ← self_current;
      let indices := indices_of c O cur in
      _ ← attempt_delete_many_sets fuel
            (map (fun '(i, j) => range_set (i + 1) j) (adjacent indices));
      kill_strings_each fuel quotes'
  end.

Definition kill_strings (fuel : nat) : pass unit :=
  kill_strings_each fuel [x27; x22].

(** [Reducer.pull_out_braces]: the [while i < len(braces)] loop. *)
Fixpoint pull_out_braces_loop (n : nat) (braces : list (nat * nat)) (i : nat)
    : pass unit :=
  match n with
  | O => Diverge
  | S n' =>
      match braces !! i with
      | None => mret tt
      | Some (u, v) =>
          cur ← self_current;
          if (length cur <=? u)%nat then Raise IndexError else
          let attempt1 := <[u := ";"%byte]> cur in
          if (length attempt1 <=? v)%nat then Raise IndexError else
          let attempt2 := delete v attempt1 in
          if bool_decide (attempt2 = cur) then Raise AssertionError else
          accepted ← self_predicate attempt2;
          if (accepted : bool) then
            _ ← sub_current P_semicolons attempt;
            _ ← sub_current P_empty_braces attempt;
            cur' ← self_current;
            pull_out_braces_loop n' (find_paired_brackets ("{"%byte, "}"%byte) cur') i
          else pull_out_braces_loop n' braces (S i)
      end
  end.

Definition pull_out_braces (fuel : nat) : pass unit :=
  cur ← self_current;
  pull_out_braces_loop fuel (find_paired_brackets ("{"%byte, "}"%byte) cur) O.

(** [Reducer.prefix_lines]: the [while i < len(self.current)] loop; it
    yields when the scan for the next space fails or [i] passes the end. *)
Fixpoint prefix_lines_loop (n : nat) (terminator : bytes) (i : nat) : pass unit :=
  match n with
  | O => Diverge
  | S n' =>
      cur ← self_current;
      if (i <? length cur)%nat then
        let line_end := default (length cur) (bytes_index terminator cur (i + 1)) in
        _ ← attempt (take i cur ++ drop line_end cur);
        cur' ← self_current;
        match bytes_index [" "%byte] cur' (i + 1) with
        | Some i' => prefix_lines_loop n' terminator i'
        | None => mret tt
        end
      else mret tt
  end.

(** [for terminator in [b"\n", b";"]: ...]; the [return] in the handler of
    the first [ValueError] leaves the function. *)
Fixpoint prefix_lines_each (fuel : nat) (terminators : list bytes) : pass unit :=
  match terminators with
  | [] => mret tt
  | terminator :: terminators' =>
      cur ← self_current;
      match bytes_index [" "%byte] cur 0 with
      | None => mret tt
      | Some i =>
          _ ← prefix_lines_loop fuel terminator i;
          prefix_lines_each fuel terminators'
      end
  end.

Definition prefix_lines (fuel : nat) : pass unit :=
  prefix_lines_each fuel [[x0a]; [";"%byte]].

(** [Reducer.attempt_typedef_substitutions]: the innermost loop, which
    walks the occurrences of the declared name. *)
Fixpoint substitute_each (n : nat) (name definition pumped : bytes)
    (targets : list re_match) (i : nat) : pass bytes :=
  match n with
  | O => Diverge
  | S n' =>
      match targets !! i with
      | None => mret pumped
      | Some m =>
          let attempt := take (m_start m) pumped ++ definition ++ drop (m_end m) pumped in
          accepted ← self_predicate attempt;
          if (accepted : bool) then
            substitute_each n' name definition attempt
              (re_finditer re (P_word name) attempt) i
          else substitute_each n' name definition pumped targets (S i)
      end
  end.

(** The body of the [for typedef in ...] loop for the first directive that
    was not attempted before. *)
Definition substitute_typedef (fuel : nat) (pumped : bytes) (typedef : re_match)
    : pass bytes :=
  let removed := take (m_start typedef) pumped ++ drop (m_end typedef) pumped in
  gone ← self_predicate removed;
  if (gone : bool) then mret removed
  else
    let name := m_group typedef 2 in
    let definition := m_group typedef 1 in
    match re_sub re (P_word name) definition removed with
    | None => Raise ReError
    | Some fully =>
        replaced ← self_predicate fully;
        if (replaced : bool) then mret fully
        else substitute_each fuel name definition pumped
               (re_finditer re (P_word name) pumped) O
    end.

(** [typedef.group(0)] *)
Definition m_group0 (s : bytes) (m : re_match) : bytes := slice s (m_start m) (m_end m).

(** The [while True] loop. *)
Fixpoint substitute_typedefs (n fuel : nat) (pumped : bytes) (attempted : list bytes)
    : pass bytes :=
  match n with
  | O => Diverge
  | S n' =>
      match list_find (fun m => m_group0 pumped m ∉ attempted)
              (re_finditer re P_typedef pumped) with
      | None => mret pumped
      | Some (_, typedef) =>
          pumped' ← substitute_typedef fuel pumped typedef;
          substitute_typedefs n' fuel pumped' (m_group0 pumped typedef :: attempted)
      end
  end.

(** The final [for typedef in reversed(...)] loop. *)
Fixpoint remove_typedefs (pumped : bytes) (typedefs : list re_match) : pass bytes :=
  match typedefs with
  | [] => mret pumped
  | typedef :: typedefs' =>
      let attempt := take (m_start typedef) pumped ++ drop (m_end typedef) pumped in
      accepted ← self_predicate attempt;
      remove_typedefs (if (accepted : bool) then attempt else pumped) typedefs'
  end.

Definition attempt_typedef_substitutions (fuel : nat) : pass unit :=
  cur ← self_current;
  pumped ← substitute_typedefs fuel fuel cur [];
  _ ← remove_typedefs pumped (reverse (re_finditer re P_typedef pumped));
  mret tt.

(** [Reducer.normalize_identifiers]: the identifiers in order of first
    occurrence, each with the number of its occurrences. *)
Fixpoint count_identifier (k : bytes) (positions : list (bytes * nat))
    : list (bytes * nat) :=
  match positions with
  | [] => [(k, 1%nat)]
  | (k', c) :: positions' =>
      if bool_decide (k = k') then (k', S c) :: positions'
      else (k', c) :: count_identifier k positions'
  end.

Definition identifier_positions (cur : bytes) : list (bytes * nat) :=
  fold_left (fun positions m => count_identifier (m_group0 cur m) positions)
    (re_finditer re P_identifier cur) [].

(** The identifiers that occur more than once, sorted by
    [len(t) * len(positions[t])]. *)
Definition repeated_identifiers (cur : bytes) : list bytes :=
  map fst
    (sort_by (fun x y => (length x.1 * x.2 <? length y.1 * y.2)%nat)
       (filter (fun kc => 1 < kc.2)%nat (identifier_positions cur))).

Fixpoint normalize_each (fuel : nat) (identifiers : list bytes) : pass unit :=
  match identifiers with
  | [] => mret tt
  | s :: identifiers' =>
      parts ← split_current s;
      joined ← self_predicate (bytes_join [] parts);
      delimiter ←
        (if (joined : bool) then mret []
         else linear_reduce fuel s (fun q => self_predicate (bytes_join q parts)));
      _ ← linear_reduce fuel parts (fun ls => self_predicate (bytes_join delimiter ls));
      normalize_each fuel identifiers'
  end.

Definition normalize_identifiers (fuel : nat) : pass unit :=
  cur ← self_current;
  normalize_each fuel (repeated_identifiers cur).

(** [Reducer.reduce_by_bytes] *)
Definition reduce_by_bytes (fuel : nat) : pass unit :=
  cur ← self_current;
  _ ← linear_reduce fuel cur self_predicate;
  mret tt.

(** [Counter(self.current)[c]] *)
Definition count_byte (c : byte) (s : bytes) : nat :=
  length (filter (fun b => b = c) s).

(** [min(delimiters, key=lambda c: (counts[c], c))] *)
Definition rarest (cur : bytes) (delimiters : list byte) : option byte :=
  let before (x y : byte) :=
    let cx := count_byte x cur in
    let cy := count_byte y cur in
    if (cx =? cy)%nat then byte_val x <? byte_val y else (cx <? cy)%nat in
  head (sort_by before delimiters).

(** [Reducer.reduce_by_all_delimiters]: the [while delimiters] loop. *)
Fixpoint reduce_by_all_delimiters_loop (n fuel : nat) (delimiters : list byte)
    : pass unit :=
  match n with
  | O => Diverge
  | S n' =>
      cur ← self_current;
      match rarest cur delimiters with
      | None => mret tt
      | Some b =>
          _ ← reduce_by_delimiter fuel (PyInt b);
          reduce_by_all_delimiters_loop n' fuel (filter (fun c => c <> b) delimiters)
      end
  end.

Definition reduce_by_all_delimiters (fuel : nat) : pass unit :=
  cur ← self_current;
  reduce_by_all_delimiters_loop fuel fuel (remove_dups cur).

(** [Reducer.reduce_c_like_language]; [prev] holds the identity of the
    object that was [self.current] when the turn began. *)
Fixpoint reduce_c_like_language_loop (n fuel : nat) (prev : option nat) : pass unit :=
  match n with
  | O => Diverge
  | S n' =>
      now ← self_current_id;
      if bool_decide (prev = Some now) then mret tt
      else
        let prev := now in
        _ ← remove_comments fuel;
        _ ← normalize_whitespace fuel;
        _ ← delete_bracket_contents fuel;
        _ ← reduce_by_delimiter fuel (PyBytes [";"%byte]);
        _ ← reduce_by_delimiter fuel (PyBytes [x0a]);
        _ ← pull_out_braces fuel;
        _ ← debracket fuel;
        _ ← kill_strings fuel;
        cur ← self_current;
        _ ← attempt (bytes_replace [x0a; ";"%byte] [";"%byte] cur);
        _ ← attempt_typedef_substitutions fuel;
        now ← self_current_id;
        if bool_decide (prev <> now) then reduce_c_like_language_loop n' fuel (Some prev)
        else
          _ ← reduce_by_delimiter fuel (PyBytes [" "%byte]);
          _ ← normalize_identifiers fuel;
          _ ← prefix_lines fuel;
          reduce_c_like_language_loop n' fuel (Some prev)
  end.

Definition reduce_c_like_language (fuel : nat) : pass unit :=
  reduce_c_like_language_loop fuel fuel None.

(** [Reducer.reduce]: one turn of the loop, and the loop. *)
Definition reduce_turn (fuel : nat) : pass unit :=
  _ ← reduce_c_like_language fuel;
  _ ← reduce_by_all_delimiters fuel;
  reduce_by_bytes fuel.

Fixpoint reduce_loop (n fuel : nat) (prev : option nat) : pass unit :=
  match n with
  | O => Diverge
  | S n' =>
      now ← self_current_id;
      if bool_decide (prev = Some now) then mret tt
      else
        _ ← reduce_turn fuel;
        reduce_loop n' fuel (Some now)
  end.

Definition reduce (fuel : nat) : pass unit := reduce_loop fuel fuel None.
End Passes.

(** ** Instances for examples *)

(** *** A backtracking matcher

    A small matcher in the style of Python's [re]: alternatives are tried in
    order, repetitions are greedy, and the first way through wins.  It is
    used to give the patterns of the passes a concrete [regex]. *)

Inductive rx : Type :=
| RChar (ok : byte -> bool)
| RSeq (a b : rx)
| RAlt (a b : rx)
| RStar (a : rx)
| RGroup (a : rx)
| RBol
| REol
| RWordB.

Definition RPlus (a : rx) : rx := RSeq a (RStar a).

Definition rx_byte (c : byte) : rx := RChar (fun b => bool_decide (b = c)).

Fixpoint rx_lit (s : bytes) (rest : rx) : rx :=
  match s with
  | [] => rest
  | c :: s' => RSeq (rx_byte c) (rx_lit s' rest)
  end.

(** [\s] and [\w] on bytes. *)
Definition is_space (b : byte) : bool :=
  bool_decide (b ∈ [" "%byte; x09; x0a; x0b; x0c; x0d]).

Definition is_word (b : byte) : bool :=
  let v := byte_val b in
  ((48 <=? v) && (v <=? 57)) || ((65 <=? v) && (v <=? 90))
  || ((97 <=? v) && (v <=? 122)) || (v =? 95).

Definition is_word_at (s : bytes) (i : nat) : bool :=
  match s !! i with
  | Some b => is_word b
  | None => false
  end.

Abbreviation captures := (list (nat * nat)).

(** [rx_match fuel r s pos caps k]: match [r] at [pos], then go on with [k]. *)
Fixpoint rx_match (fuel : nat) (r : rx) (s : bytes) (pos : nat) (caps : captures)
    (k : nat -> captures -> option (nat * captures)) : option (nat * captures) :=
  match fuel with
  | O => None
  | S fuel' =>
      match r with
      | RChar ok =>
          match s !! pos with
          | Some b => if ok b then k (S pos) caps else None
          | None => None
          end
      | RSeq a b =>
          rx_match fuel' a s pos caps (fun pos' caps' => rx_match fuel' b s pos' caps' k)
      | RAlt a b =>
          match rx_match fuel' a s pos caps k with
          | Some m => Some m
          | None => rx_match fuel' b s pos caps k
          end
      | RStar a =>
          match rx_match fuel' a s pos caps
                  (fun pos' caps' =>
                     if (pos <? pos')%nat then rx_match fuel' (RStar a) s pos' caps' k
                     else None) with
          | Some m => Some m
          | None => k pos caps
          end
      | RGroup a =>
          rx_match fuel' a s pos caps (fun pos' caps' => k pos' (caps' ++ [(pos, pos')]))
      | RBol =>
          if bool_decide (pos = O) || bool_decide (s !! Nat.pred pos = Some x0a)
          then k pos caps else None
      | REol =>
          if bool_decide (pos = length s) || bool_decide (s !! pos = Some x0a)
          then k pos caps else None
      | RWordB =>
          let before := if bool_decide (pos = O) then false else is_word_at s (Nat.pred pos) in
          if xorb before (is_word_at s pos) then k pos caps else None
      end
  end.

(** The matches of [r] in [s] from [pos] on, leftmost first, not
    overlapping. *)
Fixpoint rx_finditer (n : nat) (r : rx) (s : bytes) (pos : nat) : list re_match :=
  match n with
  | O => []
  | S n' =>
      if (length s <? pos)%nat then []
      else
        match rx_match (4 * length s + 64) r s pos [] (fun e caps => Some (e, caps)) with
        | Some (e, caps) =>
            mkMatch pos e (map (fun '(a, b) => slice s a b) caps)
            :: rx_finditer n' r s (if (pos <? e)%nat then e else S pos)
        | None => rx_finditer n' r s (S pos)
        end
  end.

(** [s] with each match replaced by [repl]. *)
Fixpoint rx_splice (s repl : bytes) (pos : nat) (ms : list re_match) : bytes :=
  match ms with
  | [] => drop pos s
  | m :: ms' => slice s pos (m_start m) ++ repl ++ rx_splice s repl (m_end m) ms'
  end.

Definition rx_of (p : pattern) : rx :=
  let any := RChar (fun b => negb (bool_decide (b = x0a))) in
  let space := RChar is_space in
  let word := RChar is_word in
  match p with
  | P_line_comment =>
      RSeq (RGroup (RAlt (rx_byte "#"%byte) (RSeq (rx_byte "/"%byte) (rx_byte "/"%byte))))
        (RSeq (RPlus any) (rx_byte x0a))
  | P_block_comment => rx_lit (b_lit "/*") (RSeq (RPlus any) (rx_lit (b_lit "*") (rx_byte "/"%byte)))
  | P_leading_space => RSeq RBol (RPlus space)
  | P_trailing_space => RSeq (RPlus space) REol
  | P_semicolons => RSeq (rx_byte ";"%byte) (RSeq (RStar space) (rx_byte ";"%byte))
  | P_empty_braces => RSeq (rx_byte "{"%byte) (RSeq (RPlus space) (rx_byte "}"%byte))
  | P_typedef =>
      rx_lit (b_lit "typedef")
        (RSeq (RPlus space)
           (RSeq (RGroup (RPlus any))
              (RSeq (RPlus space)
                 (RSeq (RGroup (RPlus word)) (RSeq (RStar space) (rx_byte ";"%byte))))))
  | P_identifier =>
      RSeq RWordB
        (RSeq (RChar (fun b => is_word b && negb ((48 <=? byte_val b) && (byte_val b <=? 57))))
           (RSeq (RPlus word) RWordB))
  | P_word name => RSeq RWordB (rx_lit name RWordB)
  end.

(** The [regex] of the matcher.  A replacement that contains a backslash
    is a template, which the matcher does not expand: it answers [None]. *)
Definition backtracking : regex :=
  {| re_finditer p s := rx_finditer (S (length s)) (rx_of p) s O;
     re_sub p repl s :=
       if bool_decide (x5c ∈ repl) then None
       else Some (rx_splice s repl O (rx_finditer (S (length s)) (rx_of p) s O)) |}.

(** *** Digests *)

(** [n.to_bytes(k, "big")] *)
Fixpoint to_bytes_big (k : nat) (n : Z) : bytes :=
  match k with
  | O => []
  | S k' =>
      to_bytes_big k' (n / 256)
      ++ [default x00 (Byte.of_N (Z.to_N (n mod 256)))]
  end.

(** A polynomial rolling hash to 64 bits; it tells apart all byte strings
    of at most seven bytes. *)
Definition rolling_digest (v : bytes) : bytes :=
  to_bytes_big 8 (fold_left (fun h b => (h * 257 + byte_val b + 1) mod 2 ^ 64) v 0).

(** A digest under which every two byte strings collide. *)
Definition flat_digest (v : bytes) : bytes := [].

(** An external predicate given by a pure function, in a world without
    state. *)
Definition pure_ext (p : bytes -> bool) (v : bytes) (w : unit) : bool * unit := (p v, w).

Definition accept_all : bytes -> unit -> bool * unit := pure_ext (fun _ => true).

(** The engine right after its construction on an accepted input. *)
Definition fresh (sha1 : bytes -> bytes) (initial : bytes) : reducer unit :=
  {| current := initial; current_id := 0;
     cache := <[cache_key sha1 initial := true]> ∅;
     world := tt; invoked := [initial] |}.

Example rx_typedef_ex1 :
  re_finditer backtracking P_typedef (b_lit "typedef a a;")
  = [mkMatch 0 12 [b_lit "a"; b_lit "a"]].
Proof. vm_compute. reflexivity. Qed.

Example rx_typedef_ex2 :
  re_finditer backtracking P_typedef (b_lit "x; typedef struct foo foo ;y")
  = [mkMatch 3 27 [b_lit "struct foo"; b_lit "foo"]].
Proof. vm_compute. reflexivity. Qed.

Example rx_word_ex1 :
  re_finditer backtracking (P_word (b_lit "a")) (b_lit "typedef a a;")
  = [mkMatch 8 9 []; mkMatch 10 11 []].
Proof. vm_compute. reflexivity. Qed.

Example rx_sub_ex1 :
  re_sub backtracking P_leading_space [] (b_lit "  a b  ") = Some (b_lit "a b  ")
  /\ re_sub backtracking P_trailing_space [] (b_lit "  a b  ") = Some (b_lit "  a b").
Proof. split; vm_compute; reflexivity. Qed.

Example rx_identifier_ex1 :
  map (m_group0 (b_lit "int x1 = y + x1; z"))
    (re_finditer backtracking P_identifier (b_lit "int x1 = y + x1; z"))
  = [b_lit "int"; b_lit "x1"; b_lit "x1"].
Proof. vm_compute. reflexivity. Qed.

(** The external predicate that accepts one byte string only. *)
Definition only (v0 : bytes) : bytes -> unit -> bool * unit :=
  pure_ext (fun v => bool_decide (v = v0)).

(** A C declaration that names a type after itself. *)
Definition typedef_a_a : bytes := b_lit "typedef a a;".

(** ** Notions used in the statements *)

(** What the search knows between two probes: every argument asked so far
    lies outside the open interval [(lo, hi)]. *)
Definition outside (lo hi : Z) (log : list Z) : Prop :=
  NoDup log /\ forall x, x ∈ log -> 1 <= x /\ (x <= lo \/ hi <= x).

(** A predicate on sequences of integers: the whole input is accepted, and
    so is every sequence that keeps 2 and drops 3. *)
Definition keeps2_drops3 (l : list Z) : bool :=
  bool_decide (l = [1; 2; 3; 4; 5])
  || (bool_decide (2 ∈ l) && negb (bool_decide (3 ∈ l))).

(** [b] is [a] or sorts strictly below it. *)
Definition shrunk_or_same (a b : bytes) : Prop :=
  b = a \/ sort_key_lt b a = true.

(** The relation between an earlier and a later state of the engine. *)
Definition later {World : Type} (st st' : reducer World) : Prop :=
  shrunk_or_same (current st) (current st')
  /\ cache st ⊆ cache st'
  /\ (current_id st <= current_id st')%nat
  /\ (current_id st' = current_id st <-> current st' = current st).

(** The cache and the record of external invocations agree: a fingerprint
    is cached exactly when the external predicate was run on a value with
    that fingerprint, no two such values share it, and a value that was
    accepted does not sort below [current]. *)
Definition coherent (sha1 : bytes -> bytes) {World : Type} (st : reducer World) : Prop :=
  (forall k, is_Some (cache st !! k) <-> exists w, w ∈ invoked st /\ cache_key sha1 w = k)
  /\ NoDup (cache_key sha1 <$> invoked st)
  /\ (forall w, w ∈ invoked st -> cache st !! cache_key sha1 w = Some true ->
        sort_key_lt w (current st) = false).

(** The indices that occur in a list of pairs, each pair giving its two. *)
Definition endpoints (results : list (nat * nat)) : list nat :=
  results ≫= (fun p => [p.1; p.2]).

(** The state of the scan once the prefix [pre] of the target is read. *)
Definition scan_inv (lbr rbr : byte) (pre : bytes) (s : nat * list nat * list (nat * nat)) : Prop :=
  s.1.1 = length pre
  /\ (forall a, a ∈ s.1.2 -> pre !! a = Some lbr)
  /\ (forall a b, (a, b) ∈ s.2 ->
        (a < b)%nat /\ pre !! a = Some lbr /\ pre !! b = Some rbr /\ lbr <> rbr)
  /\ NoDup (s.1.2 ++ endpoints s.2).


(** The statement "whenever [attempt] returns true, [current] has strictly
    decreased", for a run that starts with the construction of the engine. *)
Definition attempt_always_shrinks (sha1 : bytes -> bytes) : Prop :=
  forall (World : Type) (ext : bytes -> World -> bool * World) (initial : bytes)
         (w0 : World) (st0 : reducer World) (A : Type) (p : pass A)
         (out : outcome A) (st : reducer World) (v : bytes) (st' : reducer World),
    init sha1 World ext initial w0 = Returned st0 ->
    run (engine sha1 World ext) p st0 = (out, st) ->
    run (engine sha1 World ext) (attempt v) st = (Returned true, st') ->
    sort_key_lt (current st') (current st) = true.

(** The engine never leaves the input: [current] is the input, its
    fingerprint is cached as accepted and nothing else is. *)
Definition stuck (sha1 : bytes -> bytes) (st : reducer unit) : Prop :=
  current st = typedef_a_a
  /\ cache st !! cache_key sha1 typedef_a_a = Some true
  /\ forall k, k <> cache_key sha1 typedef_a_a -> cache st !! k <> Some true.

(** A program that, started in a stuck state, runs out of fuel. *)
Definition times_out (sha1 : bytes -> bytes) {A} (q : pass A) : Prop :=
  forall st, stuck sha1 st ->
    (run (engine sha1 unit (only typedef_a_a)) q st).1 = Timeout.

(** A small client of the engine: two calls on the same value, then an
    attempt. *)
Definition demo_client : pass bool :=
  _ ← self_predicate (b_lit "a");
  _ ← self_predicate (b_lit "a");
  attempt (b_lit "b").

(** The external predicate "is at least one byte long". *)
Definition nonempty_ext : bytes -> unit -> bool * unit :=
  pure_ext (fun v => bool_decide (v <> [])).

Definition demo_end : reducer unit :=
  (run (engine rolling_digest unit nonempty_ext) demo_client (fresh rolling_digest (b_lit "ab"))).2.

(** The engine after [reduce] has run on [b"a b"] with an external
    predicate that accepts everything. *)
Definition reduced_a_b : reducer unit :=
  (run (engine rolling_digest unit accept_all) (reduce backtracking 30)
     (fresh rolling_digest (b_lit "a b"))).2.


(** [approx p q]: [q] does what [p] does and may go on where [p] ran out of
    fuel. *)
Inductive approx {E} {resp : E -> Type} {A} : prog E resp A -> prog E resp A -> Prop :=
| approx_diverge q : approx Diverge q
| approx_ret a : approx (Ret a) (Ret a)
| approx_raise e : approx (Raise e) (Raise e)
| approx_vis c k k' : (forall x, approx (k x) (k' x)) -> approx (Vis c k) (Vis c k').

(** ** Notions used in the further properties *)

(** [ends h p s Q]: run against [h] from [s], the program [p] ends with an
    outcome and a state that [Q] holds of. *)
Definition ends {E} {resp : E -> Type} {S A} (h : forall e : E, S -> resp e * S)
    (p : prog E resp A) (s : S) (Q : outcome A -> S -> Prop) : Prop :=
  Q (run h p s).1 (run h p s).2.

(** [returns h p s R]: the program returns (it neither raises nor runs out
    of fuel), with a value and a state that [R] holds of. *)
Definition returns {E} {resp : E -> Type} {S A} (h : forall e : E, S -> resp e * S)
    (p : prog E resp A) (s : S) (R : A -> S -> Prop) : Prop :=
  ends h p s (fun o s' => match o with Returned a => R a s' | _ => False end).

(** The handler of a program with a local variable: the state is the value
    of the variable and the state of the environment. *)
Definition with_local {R E} {resp : E -> Type} {S} (h : forall e : E, S -> resp e * S)
    (c : local_call R E) (rs : R * S) : local_resp resp c * (R * S) :=
  match c with
  | GetLocal => (rs.1, rs)
  | SetLocal r' => (tt, (r', rs.2))
  | Outer e => let '(x, s') := h e rs.2 in (x, (rs.1, s'))
  end.

(** A number that grows with [sort_key]: shorter byte strings are below
    longer ones, and byte strings of one length are ranked as big-endian
    numerals. *)
Definition sort_rank (a : bytes) : Z := 256 ^ len a + from_bytes_big a.

(** The cache tells the truth about an external predicate whose verdict is
    the function [g] of the value: every value on which it was run is cached
    with its verdict, and [current] is one of the values it accepted. *)
Definition faithful (sha1 : bytes -> bytes) (g : bytes -> bool) {World : Type}
    (st : reducer World) : Prop :=
  (forall w, w ∈ invoked st -> cache st !! cache_key sha1 w = Some (g w))
  /\ current st ∈ invoked st
  /\ g (current st) = true.

(** The verdict of [nonempty_ext] as a function of the value. *)
Definition is_nonempty (v : bytes) : bool := bool_decide (v <> []).

(** A stack of indices, top first, with the larger index above. *)
Fixpoint decreasing (stack : list nat) : Prop :=
  match stack with
  | [] => True
  | x :: stack' => (forall y, y ∈ stack' -> (y < x)%nat) /\ decreasing stack'
  end.

(** The pairs of a list do not cross: a pair that opens inside another
    closes inside it. *)
Definition no_crossing (results : list (nat * nat)) : Prop :=
  forall a b a' b', (a, b) ∈ results -> (a', b') ∈ results ->
    (a < a' < b)%nat -> (b' < b)%nat.

(** The pairs of a list are in the order of their closing indices. *)
Definition by_close (results : list (nat * nat)) : Prop :=
  forall j1 j2 p1 p2, results !! j1 = Some p1 -> results !! j2 = Some p2 ->
    (j1 < j2)%nat -> (p1.2 < p2.2)%nat.

(** The state of the scan at index [s.1.1]: the stack is decreasing and
    below the index, every pair lies below the index, no index on the stack
    is inside a pair, and the pairs are nested and ordered. *)
Definition nest_inv (s : nat * list nat * list (nat * nat)) : Prop :=
  decreasing s.1.2
  /\ (forall x, x ∈ s.1.2 -> (x < s.1.1)%nat)
  /\ (forall a b, (a, b) ∈ s.2 -> (a < b < s.1.1)%nat)
  /\ (forall a b x, (a, b) ∈ s.2 -> x ∈ s.1.2 -> (b < x \/ x < a)%nat)
  /\ no_crossing s.2
  /\ by_close s.2.

(** [v] is [target] with some of its bytes deleted, all of them at indices
    that belong to one of the [sets]. *)
Definition deletes_within (sets : list (gset nat)) (target v : bytes) : Prop :=
  exists keep : nat -> bool,
    v = select_from keep O target
    /\ forall i, (i < length target)%nat -> keep i = false ->
         exists s, s ∈ sets /\ i ∈ s.

(** The indices of [target] that are no longer retained belong to the
    [sets]. *)
Definition retained_inv (sets : list (gset nat)) (target : bytes) (retained : gset nat)
    : Prop :=
  forall i, (i < length target)%nat -> i ∉ retained -> exists s, s ∈ sets /\ i ∈ s.

(** The indices of the brackets of [b"a(b)c"], and the index between
    them. *)
Definition demo_sets : list (gset nat) := [{[1%nat; 3%nat]}; {[2%nat]}].

(** The six bytes of [BRACKETS], and a byte string without them. *)
Definition bracket_bytes : list byte := BRACKETS ≫= (fun p => [p.1; p.2]).

Definition without_brackets (s : bytes) : bytes :=
  filter (fun c => c ∉ bracket_bytes) s.

(** The outcome is neither an [IndexError] nor an [AssertionError]. *)
Definition in_bounds {A} (o : outcome A) : Prop :=
  o <> Raised IndexError /\ o <> Raised AssertionError.
(** * Properties *)

(** [each_elem H tac]: [H] says that something is an element of a list
    given by its elements; [tac] closes the goal for each of them. *)
Ltac each_elem H tac :=
  repeat (apply elem_of_cons in H as [->|H]; [tac|]);
  by apply elem_of_nil in H.

(** ** Running programs *)

Lemma run_bind {E} {resp : E -> Type} {S A B} (h : forall e : E, S -> resp e * S)
    (m : prog E resp A) (f : A -> prog E resp B) (s : S) :
  run h (m ≫= f) s =
  match run h m s with
  | (Returned a, s') => run h (f a) s'
  | (Raised e, s') => (Raised e, s')
  | (Timeout, s') => (Timeout, s')
  end.
Proof.
  unfold mbind, prog_bind. revert s.
  induction m as [a|e| |e k IH]; intros s; simpl; try reflexivity.
  destruct (h e s) as [x s']. apply IH.
Qed.

Lemma run_ret {E} {resp : E -> Type} {S A} (h : forall e : E, S -> resp e * S)
    (a : A) (s : S) :
  run h (mret a : prog E resp A) s = (Returned a, s).
Proof. reflexivity. Qed.

(** ** [find_integer] *)

Section FindInteger.
Variable g : Z -> bool.

Lemma run_ask k log :
  run (oracle_handler g) (ask k) log = (Returned (g k), log ++ [k]).
Proof. reflexivity. Qed.

Lemma outside_snoc lo hi lo' hi' log k :
  outside lo hi log -> lo < k < hi -> 1 <= k ->
  lo <= lo' -> hi' <= hi -> (k <= lo' \/ hi' <= k) ->
  outside lo' hi' (log ++ [k]).
Proof.
  intros [Hnd Hin] Hk H1 Hlo Hhi Hside. split.
  - apply NoDup_app. split_and!; [done| |apply NoDup_singleton].
    intros x Hx ->%list_elem_of_singleton. apply Hin in Hx. lia.
  - intros x [Hx| ->%list_elem_of_singleton]%elem_of_app; [|lia].
    apply Hin in Hx. lia.
Qed.

Lemma find_integer_probe_spec (m : Z) (fuel : nat) (lo hi : Z) (log : list Z) :
  (forall b, m + 1 <= b -> g b = false) ->
  g lo = true -> 1 <= lo < hi -> hi <= 2 * lo \/ hi = 5 ->
  outside lo (hi + 1) log -> (forall x, x ∈ log -> x < hi) ->
  (Z.to_nat (m + 1 - hi) + 1 <= fuel)%nat ->
  exists lo' hi' log',
    run (oracle_handler g) (find_integer_probe fuel ask lo hi) log
    = (Returned (lo', hi'), log')
    /\ g lo' = true /\ g hi' = false /\ 1 <= lo' < hi'
    /\ (hi' <= 2 * lo' \/ hi' = 5)
    /\ outside lo' hi' log'.
Proof.
  intros Hm. revert lo hi log.
  induction fuel as [|fuel IH]; intros lo hi log Hlo Hlh Hdbl Hout Hlt Hfuel; [lia|].
  simpl.
  destruct (g hi) eqn:Hg.
  - assert (hi < m + 1).
    { destruct (decide (hi < m + 1)); [done|]. rewrite Hm in Hg by lia. done. }
    apply IH; try lia; try done.
    + destruct Hout as [Hnd Hin]. split.
      * apply NoDup_app. split_and!; [done| |apply NoDup_singleton].
        intros x Hx ->%list_elem_of_singleton. apply Hlt in Hx. lia.
      * intros x [Hx| ->%list_elem_of_singleton]%elem_of_app; [|lia].
        specialize (Hin _ Hx). specialize (Hlt _ Hx). lia.
    + intros x [Hx| ->%list_elem_of_singleton]%elem_of_app; [|lia].
      apply Hlt in Hx. lia.
  - exists lo, hi, (log ++ [hi]). split_and!; try done; try lia.
    destruct Hout as [Hnd Hin]. split.
    + apply NoDup_app. split_and!; [done| |apply NoDup_singleton].
      intros x Hx ->%list_elem_of_singleton. apply Hlt in Hx. lia.
    + intros x [Hx| ->%list_elem_of_singleton]%elem_of_app; [|lia].
      specialize (Hin _ Hx). specialize (Hlt _ Hx). lia.
Qed.

Lemma find_integer_bisect_spec (fuel : nat) (lo hi : Z) (log : list Z) :
  g lo = true -> g hi = false -> 1 <= lo < hi -> outside lo hi log ->
  (Z.to_nat (hi - lo) <= fuel)%nat ->
  exists n log',
    run (oracle_handler g) (find_integer_bisect fuel ask lo hi) log
    = (Returned n, log')
    /\ g n = true /\ g (n + 1) = false /\ lo <= n < hi
    /\ outside n (n + 1) log'.
Proof.
  revert lo hi log.
  induction fuel as [|fuel IH]; intros lo hi log Hlo Hhi Hlh Hout Hfuel; [lia|].
  simpl. destruct (Z.ltb_spec (lo + 1) hi) as [Hlt|Hge].
  - simpl.
    assert (Hmid : lo + 1 <= (lo + hi) / 2 < hi).
    { split; [apply Z.div_le_lower_bound; lia | apply Z.div_lt_upper_bound; lia]. }
    destruct (g ((lo + hi) / 2)) eqn:Hg.
    + destruct (IH ((lo + hi) / 2) hi (log ++ [(lo + hi) / 2]))
        as (n & log' & ? & ? & ? & ? & ?); try done; try lia.
      { eapply outside_snoc; eauto; lia. }
      exists n, log'. split_and!; try done; lia.
    + destruct (IH lo ((lo + hi) / 2) (log ++ [(lo + hi) / 2]))
        as (n & log' & ? & ? & ? & ? & ?); try done; try lia.
      { eapply outside_snoc; eauto; lia. }
      exists n, log'. split_and!; try done; lia.
  - exists lo, log. assert (hi = lo + 1) as -> by lia.
    split_and!; try done; lia.
Qed.
End FindInteger.

Lemma boundary_unique (g : Z -> bool) (n : Z) :
  (forall a b, 0 <= a <= b -> g b = true -> g a = true) ->
  0 <= n -> g n = true -> g (n + 1) = false ->
  forall k, 0 <= k -> g k = true <-> k <= n.
Proof.
  intros Hmono Hn Ht Hf k Hk. split.
  - intros Hgk. destruct (decide (k <= n)) as [|Hgt]; [done|].
    rewrite (Hmono (n + 1) k) in Hf by (done || lia). done.
  - intros Hle. apply (Hmono k n); [lia|done].
Qed.

(** C1. For a non-increasing [g] with [g 0 = true] that is false somewhere
    ([g (m + 1) = false]), [find_integer] returns, with enough fuel for its
    two loops, the boundary [n]: [g n = true], [g (n + 1) = false], and [g] is
    true exactly on [0..n].  The arguments it asked about are all at least 1
    (never 0) and pairwise distinct. *)
Theorem find_integer_contract (g : Z -> bool) (m : Z) (fuel : nat) :
  (forall a b, 0 <= a <= b -> g b = true -> g a = true) ->
  g 0 = true -> 0 <= m -> g (m + 1) = false ->
  (Z.to_nat m + 2 <= fuel)%nat ->
  exists n calls,
    find_integer_logged fuel g = (Returned n, calls)
    /\ 0 <= n <= m /\ g n = true /\ g (n + 1) = false
    /\ (forall k, 0 <= k -> g k = true <-> k <= n)
    /\ NoDup calls /\ (forall k, k ∈ calls -> 1 <= k).
Proof.
  intros Hmono H0 Hm Hfalse Hfuel.
  assert (Hbound : forall n, 0 <= n -> g n = true -> n <= m).
  { intros n Hn Hgn. destruct (decide (n <= m)) as [|Hgt]; [done|].
    rewrite (Hmono (m + 1) n) in Hfalse by (done || lia). done. }
  assert (Hlast : forall n calls, 0 <= n -> g n = true -> g (n + 1) = false ->
            outside n (n + 1) calls ->
            0 <= n <= m /\ g n = true /\ g (n + 1) = false
            /\ (forall k, 0 <= k -> g k = true <-> k <= n)
            /\ NoDup calls /\ (forall k, k ∈ calls -> 1 <= k)).
  { intros n calls Hn Ht Hf [Hnd Hin]. split_and!; try done.
    - by apply Hbound.
    - by apply boundary_unique.
    - intros k Hk. by apply Hin in Hk as [? _]. }
  assert (Hsmall : forall calls n, NoDup calls ->
            (forall x, x ∈ calls -> 1 <= x <= n + 1) -> outside n (n + 1) calls).
  { intros calls n Hnd Hin. split; [done|]. intros x Hx. apply Hin in Hx. lia. }
  unfold find_integer_logged, find_integer. simpl.
  destruct (g 1) eqn:H1; simpl.
  2:{ exists 0, [1]. split; [done|]. apply Hlast; try done.
      apply Hsmall; [compute_done|]. intros x ->%list_elem_of_singleton. lia. }
  destruct (g 2) eqn:H2; simpl.
  2:{ exists 1, [1; 2]. split; [done|]. apply Hlast; try done.
      apply Hsmall; [compute_done|].
      intros x Hx. each_elem Hx lia. }
  destruct (g 3) eqn:H3; simpl.
  2:{ exists 2, [1; 2; 3]. split; [done|]. apply Hlast; try done.
      apply Hsmall; [compute_done|].
      intros x Hx. each_elem Hx lia. }
  destruct (g 4) eqn:H4; simpl.
  2:{ exists 3, [1; 2; 3; 4]. split; [done|]. apply Hlast; try done.
      apply Hsmall; [compute_done|].
      intros x Hx. each_elem Hx lia. }
  assert (4 <= m) by (by apply Hbound).
  destruct (find_integer_probe_spec g m fuel 4 5 [1; 2; 3; 4])
    as (lo & hi & log & Hrun & Hglo & Hghi & Hlh & Hdbl & Hout);
    try done; try lia.
  { intros b Hb. destruct (g b) eqn:Hgb; [|done]. apply Hbound in Hgb; lia. }
  { split; [compute_done|].
    intros x Hx. each_elem Hx lia. }
  { intros x Hx. each_elem Hx lia. }
  change (pbind ?a ?b) with (a ≫= b). rewrite run_bind, Hrun.
  assert (lo <= m) by (apply Hbound; [lia|done]).
  destruct (find_integer_bisect_spec g fuel lo hi log)
    as (n & calls & Hrun' & Hgn & Hgn1 & Hn & Hout'); try done; try lia.
  exists n, calls. split; [done|]. apply Hlast; try done. lia.
Qed.

Lemma find_integer_contract_witness :
  exists n calls,
    find_integer_logged 15 (fun k => k <=? 13) = (Returned n, calls)
    /\ 0 <= n <= 13 /\ (n <=? 13) = true /\ (n + 1 <=? 13) = false
    /\ (forall k, 0 <= k -> (k <=? 13) = true <-> k <= n)
    /\ NoDup calls /\ (forall k, k ∈ calls -> 1 <= k).
Proof.
  apply (find_integer_contract (fun k => k <=? 13) 13 15).
  - intros a b Hab Hb. apply Z.leb_le in Hb. apply Z.leb_le. lia.
  - reflexivity.
  - lia.
  - reflexivity.
  - simpl. lia.
Defined.

(** ** [linear_reduce] *)

(** C3. On [[1; 2; 3; 4; 5]] with [keeps2_drops3] the sweep stops at its first
    position: the pair-delete probe [[2; 4; 5]] is accepted and the [break]
    after it leaves the [while] loop.  The element 5 is still in the result,
    every candidate that was submitted contains it, and a candidate without
    it ([[2; 4]]) would have been accepted. *)
Theorem linear_reduce_stops_after_pair_delete (fuel : nat) :
  linear_reduce_logged (S fuel) keeps2_drops3 [1; 2; 3; 4; 5]
  = (Returned [2; 4; 5], [[2; 3; 4; 5]; [3; 4; 5]; [4; 5]; [2; 4; 5]])
  /\ 5 ∈ [2; 4; 5]
  /\ (forall c, c ∈ [[2; 3; 4; 5]; [3; 4; 5]; [4; 5]; [2; 4; 5]] -> 5 ∈ c)
  /\ keeps2_drops3 [2; 4] = true.
Proof.
  split_and!.
  - reflexivity.
  - compute_done.
  - intros c Hc. each_elem Hc ltac:(compute_done).
  - reflexivity.
Qed.

(** ** The order on byte strings *)

Lemma bytes_lt_irrefl a : bytes_lt a a = false.
Proof.
  induction a as [|x a IH]; simpl; [done|].
  by rewrite Z.ltb_irrefl.
Qed.

Lemma byte_val_inj x y : byte_val x = byte_val y -> x = y.
Proof.
  unfold byte_val. intros H%(inj Z.of_N).
  apply (f_equal Byte.of_N) in H. rewrite !Byte.of_to_N in H. congruence.
Qed.

Lemma bytes_lt_trans a b c :
  bytes_lt a b = true -> bytes_lt b c = true -> bytes_lt a c = true.
Proof.
  revert b c. induction a as [|x a IH]; intros [|y b] [|z c]; simpl; try done.
  repeat case_match; try done;
    repeat match goal with
           | H : (_ <? _) = true |- _ => apply Z.ltb_lt in H
           | H : (_ <? _) = false |- _ => apply Z.ltb_ge in H
           end; try lia.
  apply IH.
Qed.

Lemma sort_key_lt_irrefl a : sort_key_lt a a = false.
Proof. unfold sort_key_lt. rewrite Z.eqb_refl. apply bytes_lt_irrefl. Qed.

Lemma sort_key_lt_trans a b c :
  sort_key_lt a b = true -> sort_key_lt b c = true -> sort_key_lt a c = true.
Proof.
  unfold sort_key_lt.
  repeat case_match;
    repeat match goal with
           | H : (_ =? _) = true |- _ => apply Z.eqb_eq in H
           | H : (_ =? _) = false |- _ => apply Z.eqb_neq in H
           end;
    rewrite ?Z.ltb_lt; try lia.
  apply bytes_lt_trans.
Qed.

(** Nothing sorts below the empty byte string. *)
Lemma sort_key_lt_nil a : sort_key_lt a [] = false.
Proof.
  destruct a as [|x a]; [done|]. unfold sort_key_lt, len.
  destruct (Z.eqb_spec (Z.of_nat (length (x :: a))) (Z.of_nat (length (@nil byte))));
    simpl in *; [lia|].
  apply Z.ltb_ge. lia.
Qed.

(** ** The cached predicate *)

Section EngineFacts.
Variable sha1 : bytes -> bytes.
Variable World : Type.
Variable ext : bytes -> World -> bool * World.

Abbreviation key := (cache_key sha1).
Abbreviation pred := (predicate sha1 World ext).
Abbreviation exec := (run (engine sha1 World ext)).

(** The fingerprint is a 64-bit unsigned integer. *)
Lemma from_bytes_big_bound (b : bytes) : 0 <= from_bytes_big b < 256 ^ len b.
Proof.
  unfold from_bytes_big, len. rewrite <- (rev_involutive b).
  induction (rev b) as [|c l IH]; simpl; [lia|].
  rewrite fold_left_app, length_app. simpl.
  assert (0 <= byte_val c < 256).
  { unfold byte_val. pose proof (Byte.to_N_bounded c). lia. }
  rewrite Nat2Z.inj_add, Z.pow_add_r by lia. change (256 ^ Z.of_nat 1) with 256. nia.
Qed.

Lemma cache_key_bound (v : bytes) : 0 <= key v < 2 ^ 64.
Proof.
  unfold cache_key. pose proof (from_bytes_big_bound (take 8 (sha1 v))) as H.
  assert (len (take 8 (sha1 v)) <= 8).
  { unfold len. rewrite length_take.
    pose proof (Nat.le_min_l 8 (length (sha1 v))). lia. }
  assert (256 ^ len (take 8 (sha1 v)) <= 256 ^ 8)
    by (apply Z.pow_le_mono_r; lia).
  change (2 ^ 64) with (256 ^ 8). lia.
Qed.

(** A call of [predicate] that finds the fingerprint in the cache. *)
Lemma predicate_hit value st r :
  cache st !! key value = Some r -> pred value st = (r, st).
Proof. unfold predicate. by intros ->. Qed.

(** A call of [predicate] that does not. *)
Lemma predicate_miss value st :
  cache st !! key value = None ->
  pred value st =
  let '(result, w') := ext value (world st) in
  let shrink := result && sort_key_lt value (current st) in
  (result,
   {| current := if shrink then value else current st;
      current_id := if shrink then S (current_id st) else current_id st;
      cache := <[key value := result]> (cache st);
      world := w';
      invoked := invoked st ++ [value] |}).
Proof. unfold predicate. by intros ->. Qed.

(** The effect of one call on [current]: it is kept, or replaced by a value
    that the external predicate accepted and that sorts strictly below it. *)
Lemma predicate_current value st r st' :
  pred value st = (r, st') ->
  (current st' = current st /\ current_id st' = current_id st)
  \/ (current st' = value /\ current_id st' = S (current_id st)
      /\ sort_key_lt value (current st) = true /\ r = true
      /\ cache st !! key value = None
      /\ (ext value (world st)).1 = true).
Proof.
  unfold predicate. destruct (cache st !! key value) as [r0|] eqn:Hc.
  - intros [= <- <-]. by left.
  - destruct (ext value (world st)) as [result w'] eqn:He.
    destruct result, (sort_key_lt value (current st)) eqn:Hlt; simpl;
      intros [= <- <-]; simpl; auto 10.
Qed.

(** The cache only grows: an entry, once stored, keeps its verdict. *)
Lemma predicate_cache value st r st' :
  pred value st = (r, st') ->
  cache st ⊆ cache st' /\ cache st' !! key value = Some r.
Proof.
  unfold predicate. destruct (cache st !! key value) as [r0|] eqn:Hc.
  - by intros [= <- <-].
  - destruct (ext value (world st)) as [result w'].
    intros [= <- <-]; simpl. split; [by apply insert_subseteq|].
    by rewrite lookup_insert_eq.
Qed.
End EngineFacts.

(** ** What holds throughout a run *)

(** A property of the environment that every answered call preserves holds
    at the end of any program. *)
Lemma run_invariant {E} {resp : E -> Type} {S A} (h : forall e : E, S -> resp e * S)
    (I : S -> Prop) :
  (forall e s, I s -> I (h e s).2) ->
  forall (p : prog E resp A) s out s', I s -> run h p s = (out, s') -> I s'.
Proof.
  intros Hstep p. induction p as [a|e| |e k IH]; intros s out s' Hs; simpl.
  - by intros [= _ <-].
  - by intros [= _ <-].
  - by intros [= _ <-].
  - specialize (Hstep e s Hs). destruct (h e s) as [x s1]. by apply IH.
Qed.

Section Runs.
Variable sha1 : bytes -> bytes.
Variable World : Type.
Variable ext : bytes -> World -> bool * World.

Abbreviation key := (cache_key sha1).
Abbreviation pred := (predicate sha1 World ext).
Abbreviation exec := (run (engine sha1 World ext)).

Lemma later_refl (st : reducer World) : later st st.
Proof. unfold later, shrunk_or_same. split_and!; [by left|done|done|done]. Qed.

Lemma later_step c st0 st :
  later st0 st -> later st0 (engine sha1 World ext c st).2.
Proof.
  intros (Hcur & Hcache & Hid & Hiff). destruct c as [value|]; simpl; [|done].
  destruct (pred value st) as [r st'] eqn:Hp. simpl.
  pose proof (predicate_cache _ _ _ _ _ _ _ Hp) as [Hsub _].
  destruct (predicate_current _ _ _ _ _ _ _ Hp)
    as [[Hc Hi]|(Hc & Hi & Hlt & _)]; unfold later, shrunk_or_same.
  - rewrite Hc, Hi. split_and!; try done. by etrans.
  - rewrite Hc, Hi. split_and!.
    + right. destruct Hcur as [Heq|Hcur]; [by rewrite <- Heq|].
      by eapply sort_key_lt_trans.
    + by etrans.
    + lia.
    + split; [lia|]. intros ->. destruct Hcur as [Heq|Hcur].
      * rewrite Heq, sort_key_lt_irrefl in Hlt. done.
      * pose proof (sort_key_lt_trans _ _ _ Hlt Hcur) as Hbad.
        by rewrite sort_key_lt_irrefl in Hbad.
Qed.

Lemma run_later {A} (p : pass A) st out st' :
  exec p st = (out, st') -> later st st'.
Proof.
  apply (run_invariant (engine sha1 World ext) (later st));
    [intros c s; apply later_step | apply later_refl].
Qed.

Lemma init_current initial w0 st0 :
  init sha1 World ext initial w0 = Returned st0 -> current st0 = initial.
Proof.
  unfold init. destruct (ext initial w0) as [[] w']; simpl; [|done].
  by intros [= <-].
Qed.

Lemma coherent_init initial w0 st0 :
  init sha1 World ext initial w0 = Returned st0 -> coherent sha1 st0.
Proof.
  unfold init. destruct (ext initial w0) as [[] w']; simpl; [|done].
  intros [= <-]. split_and!; simpl.
  - intros k. rewrite lookup_insert_is_Some, lookup_empty. split.
    + intros [<-|[_ []%is_Some_None]]. exists initial. by rewrite list_elem_of_singleton.
    + intros (w & ->%list_elem_of_singleton & <-). by left.
  - apply NoDup_singleton.
  - intros w ->%list_elem_of_singleton _. apply sort_key_lt_irrefl.
Qed.

Lemma coherent_step c st : coherent sha1 st -> coherent sha1 (engine sha1 World ext c st).2.
Proof.
  intros (Hdom & Hnd & Hacc). destruct c as [value|]; simpl; [|done].
  destruct (cache st !! key value) as [r0|] eqn:Hc.
  { by rewrite (predicate_hit _ _ _ _ _ _ Hc). }
  rewrite (predicate_miss _ _ _ _ _ Hc).
  destruct (ext value (world st)) as [result w'] eqn:He. simpl.
  assert (Hfresh : forall w, w ∈ invoked st -> key w <> key value).
  { intros w Hw Heq. assert (is_Some (cache st !! key value)) as [? ?]; [|congruence].
    apply Hdom. eauto. }
  split_and!; simpl.
  - intros k. rewrite lookup_insert_is_Some, Hdom. split.
    + intros [<-|[_ (w & Hw & <-)]].
      * exists value. split; [|done]. apply elem_of_app. right. by apply list_elem_of_singleton.
      * exists w. split; [|done]. apply elem_of_app. by left.
    + intros (w & [Hw| ->%list_elem_of_singleton]%elem_of_app & <-); [|by left].
      right. split; [by apply not_eq_sym, Hfresh|]. eauto.
  - rewrite fmap_app. apply NoDup_app. split_and!; [done| |apply NoDup_singleton].
    intros k (w & Hk & Hw)%list_elem_of_fmap Hk'%list_elem_of_singleton.
    apply (Hfresh w); [done|congruence].
  - intros w [Hw| ->%list_elem_of_singleton]%elem_of_app.
    + rewrite lookup_insert_ne by (by apply not_eq_sym, Hfresh).
      intros Hacc'. specialize (Hacc _ Hw Hacc').
      destruct result, (sort_key_lt value (current st)) eqn:Hlt; simpl; try done.
      destruct (sort_key_lt w value) eqn:Hwv; [|done].
      by rewrite (sort_key_lt_trans _ _ _ Hwv Hlt) in Hacc.
    + rewrite lookup_insert_eq. intros [= ->]. simpl.
      destruct (sort_key_lt value (current st)) eqn:Hlt; [|done].
      apply sort_key_lt_irrefl.
Qed.

Lemma run_coherent {A} (p : pass A) st out st' :
  coherent sha1 st -> exec p st = (out, st') -> coherent sha1 st'.
Proof. apply (run_invariant (engine sha1 World ext) (coherent sha1)), coherent_step. Qed.

Lemma run_attempt (v : bytes) (st : reducer World) :
  exec (attempt v) st =
  if sort_key_lt v (current st)
  then let '(r, st') := pred v st in (Returned r, st')
  else (Returned false, st).
Proof.
  unfold attempt. simpl. destruct (sort_key_lt v (current st)); [|done].
  simpl. by destruct (predicate sha1 World ext v st).
Qed.

(** In a coherent state, an [attempt] that returns true on a value whose
    fingerprint belongs to no other invoked value has made it [current]. *)
Lemma attempt_accepts v st st' :
  coherent sha1 st ->
  (forall w, w ∈ invoked st -> key w = key v -> w = v) ->
  exec (attempt v) st = (Returned true, st') ->
  current st' = v /\ sort_key_lt v (current st) = true.
Proof.
  intros (Hdom & Hnd & Hacc) Hfresh. rewrite run_attempt.
  destruct (sort_key_lt v (current st)) eqn:Hlt; [|done].
  destruct (pred v st) as [r st1] eqn:Hp. intros [= -> ->].
  destruct (predicate_current _ _ _ _ _ _ _ Hp) as [[Hc _]|(Hc & _)]; [|done].
  destruct (cache st !! key v) as [r0|] eqn:Hhit.
  - rewrite (predicate_hit _ _ _ _ _ _ Hhit) in Hp. injection Hp as -> _.
    destruct (proj1 (Hdom (key v))) as (w & Hw & Hkey); [by eauto|].
    rewrite <- (Hfresh w Hw Hkey) in Hlt at 1.
    rewrite Hacc in Hlt; [done|done|]. by rewrite Hkey.
  - rewrite (predicate_miss _ _ _ _ _ Hhit) in Hp.
    destruct (ext v (world st)) as [result w']. injection Hp as -> <-.
    simpl in *. by rewrite Hlt in Hc |- *.
Qed.

(** An [attempt] that returns false has left [current] alone. *)
Lemma attempt_rejects v st st' :
  exec (attempt v) st = (Returned false, st') ->
  current st' = current st /\ current_id st' = current_id st.
Proof.
  rewrite run_attempt. destruct (sort_key_lt v (current st)); [|by intros [= <-]].
  destruct (pred v st) as [r st1] eqn:Hp. intros [= -> ->].
  by destruct (predicate_current _ _ _ _ _ _ _ Hp) as [?|(_ & _ & _ & ? & _)].
Qed.
End Runs.

(** ** Construction *)

(** C7. Construction raises (a [ValueError]) exactly when the external
    predicate rejects the initial input; otherwise it returns an engine whose
    [current] is the initial input and whose cache holds the verdict [true]
    under the input's fingerprint. *)
Theorem init_raises_iff_rejected (sha1 : bytes -> bytes) (World : Type)
    (ext : bytes -> World -> bool * World) (initial : bytes) (w0 : World) :
  match init sha1 World ext initial w0 with
  | Raised e => e = ValueError /\ (ext initial w0).1 = false
  | Returned st =>
      (ext initial w0).1 = true
      /\ current st = initial
      /\ cache st !! cache_key sha1 initial = Some (ext initial w0).1
      /\ world st = (ext initial w0).2
  | Timeout => False
  end.
Proof.
  unfold init. destruct (ext initial w0) as [[] w']; simpl; [|done].
  split_and!; try done. by rewrite lookup_insert_eq.
Qed.

(** ** Cache hits *)

(** C10. When the fingerprint of [value] is in the cache, [predicate] returns
    the stored verdict and the engine's state is the same afterwards:
    [current], the cache, the world and the record of external invocations
    are all untouched, whatever the verdict and however [value] sorts. *)
Theorem predicate_hit_frame (sha1 : bytes -> bytes) (World : Type)
    (ext : bytes -> World -> bool * World) (value : bytes) (st : reducer World)
    (r : bool) :
  cache st !! cache_key sha1 value = Some r ->
  predicate sha1 World ext value st = (r, st).
Proof. apply predicate_hit. Qed.

Lemma predicate_hit_frame_witness :
  init flat_digest unit accept_all (b_lit "ab") tt = Returned (fresh flat_digest (b_lit "ab"))
  /\ sort_key_lt (b_lit "a") (current (fresh flat_digest (b_lit "ab"))) = true
  /\ predicate flat_digest unit accept_all (b_lit "a") (fresh flat_digest (b_lit "ab")) = (true, (fresh flat_digest (b_lit "ab"))).
Proof.
  split_and!; [reflexivity|reflexivity|].
  apply (predicate_hit_frame flat_digest unit accept_all (b_lit "a") (fresh flat_digest (b_lit "ab")) true).
  reflexivity.
Defined.

(** ** Cache correctness *)

(** C4. At any point of a run that starts with the construction of the
    engine: the external predicate has been run at most once on each byte
    string (indeed at most once per fingerprint), each of these runs has left
    a verdict in the cache, a value whose fingerprint is cached is answered
    with the stored verdict without a further external run, and whatever the
    engine does next leaves every stored verdict in place. *)
Theorem cache_answers_repeats (sha1 : bytes -> bytes) (World : Type)
    (ext : bytes -> World -> bool * World) (initial : bytes) (w0 : World)
    (st0 : reducer World) {A} (p : pass A) (out : outcome A) (st : reducer World) :
  init sha1 World ext initial w0 = Returned st0 ->
  run (engine sha1 World ext) p st0 = (out, st) ->
  NoDup (invoked st)
  /\ NoDup (cache_key sha1 <$> invoked st)
  /\ (forall v, v ∈ invoked st -> is_Some (cache st !! cache_key sha1 v))
  /\ (forall v r, cache st !! cache_key sha1 v = Some r ->
        predicate sha1 World ext v st = (r, st))
  /\ (forall v r st', predicate sha1 World ext v st = (r, st') ->
        cache st' !! cache_key sha1 v = Some r
        /\ (invoked st' = invoked st \/ (invoked st' = invoked st ++ [v] /\ v ∉ invoked st)))
  /\ (forall B (q : pass B) out' st', run (engine sha1 World ext) q st = (out', st') ->
        forall k r, cache st !! k = Some r -> cache st' !! k = Some r).
Proof.
  intros Hinit Hrun.
  pose proof (run_coherent _ _ _ _ _ _ _ (coherent_init _ _ _ _ _ _ Hinit) Hrun)
    as (Hdom & Hnd & _).
  split_and!.
  - by apply NoDup_fmap_1 in Hnd.
  - done.
  - intros v Hv. apply Hdom. eauto.
  - intros v r. apply predicate_hit.
  - intros v r st' Hp. split; [by eapply predicate_cache|].
    destruct (cache st !! cache_key sha1 v) as [r0|] eqn:Hc.
    + rewrite (predicate_hit _ _ _ _ _ _ Hc) in Hp. injection Hp as <- <-. by left.
    + rewrite (predicate_miss _ _ _ _ _ Hc) in Hp.
      destruct (ext v (world st)) as [result w']. injection Hp as <- <-. simpl.
      right. split; [done|]. intros Hv.
      assert (is_Some (cache st !! cache_key sha1 v)) as [? ?]; [|congruence].
      apply Hdom. eauto.
  - intros B q out' st' Hq k r Hk.
    apply run_later in Hq as (_ & Hsub & _).
    by eapply lookup_weaken.
Qed.

Example demo_end_invoked :
  invoked demo_end = [b_lit "ab"; b_lit "a"] /\ current demo_end = b_lit "a".
Proof. split; vm_compute; reflexivity. Qed.

Lemma cache_answers_repeats_witness :
  NoDup (invoked demo_end)
  /\ NoDup (cache_key rolling_digest <$> invoked demo_end)
  /\ (forall v, v ∈ invoked demo_end -> is_Some (cache demo_end !! cache_key rolling_digest v))
  /\ (forall v r, cache demo_end !! cache_key rolling_digest v = Some r ->
        predicate rolling_digest unit nonempty_ext v demo_end = (r, demo_end))
  /\ (forall v r st', predicate rolling_digest unit nonempty_ext v demo_end = (r, st') ->
        cache st' !! cache_key rolling_digest v = Some r
        /\ (invoked st' = invoked demo_end
            \/ (invoked st' = invoked demo_end ++ [v] /\ v ∉ invoked demo_end)))
  /\ (forall B (q : pass B) out' st',
        run (engine rolling_digest unit nonempty_ext) q demo_end = (out', st') ->
        forall k r, cache demo_end !! k = Some r -> cache st' !! k = Some r).
Proof.
  apply (cache_answers_repeats rolling_digest unit nonempty_ext (b_lit "ab") tt
           (fresh rolling_digest (b_lit "ab")) demo_client
           (run (engine rolling_digest unit nonempty_ext) demo_client (fresh rolling_digest (b_lit "ab"))).1).
  - reflexivity.
  - unfold demo_end.
    destruct (run (engine rolling_digest unit nonempty_ext) demo_client (fresh rolling_digest (b_lit "ab"))).
    reflexivity.
Defined.

(** ** Monotone shrink *)

Section Collisions.
Variable sha1 : bytes -> bytes.

(** Byte strings are more numerous than fingerprints: among the strings
    [replicate i x01], two of different lengths share a fingerprint. *)
Lemma fingerprints_collide :
  ~ (forall i j : nat, i <> j ->
       cache_key sha1 (replicate i x01) <> cache_key sha1 (replicate j x01)).
Proof.
  intros Hinj.
  remember (Z.to_nat (2 ^ 64)) as N eqn:HN.
  set (f := fun i : nat => cache_key sha1 (replicate i x01)).
  assert (Hnd : NoDup (f <$> seq 0 (S N))).
  { apply NoDup_fmap_2_strong; [|apply NoDup_seq].
    intros i j _ _ Hij. destruct (decide (i = j)) as [|Hne]; [done|].
    by destruct (Hinj i j Hne). }
  assert (Hsub : f <$> seq 0 (S N) ⊆+ Z.of_nat <$> seq 0 N).
  { apply NoDup_submseteq; [done|].
    intros k (i & -> & _)%list_elem_of_fmap.
    pose proof (cache_key_bound sha1 (replicate i x01)) as Hb.
    apply list_elem_of_fmap. exists (Z.to_nat (f i)). split; [unfold f; lia|].
    apply elem_of_seq. unfold f. lia. }
  apply submseteq_length in Hsub.
  rewrite !length_fmap, !length_seq in Hsub. lia.
Qed.
End Collisions.

Lemma sort_key_lt_shorter (a b : bytes) :
  (length a < length b)%nat -> sort_key_lt a b = true.
Proof.
  intros Hlt. unfold sort_key_lt, len.
  destruct (Z.eqb_spec (Z.of_nat (length a)) (Z.of_nat (length b))); [lia|].
  apply Z.ltb_lt. lia.
Qed.

(** Under any digest, some run has an [attempt] that returns true and
    leaves [current] as it was: take two strings of ones with the same
    fingerprint, build the engine on the longer and attempt the shorter. *)
Lemma collision_defeats_attempt (sha1 : bytes -> bytes) (i j : nat) :
  (i < j)%nat ->
  cache_key sha1 (replicate i x01) = cache_key sha1 (replicate j x01) ->
  ~ attempt_always_shrinks sha1.
Proof.
  intros Hij Hkey Hclaim.
  set (st0 := {| current := replicate j x01; current_id := 0;
                 cache := <[cache_key sha1 (replicate j x01) := true]> ∅;
                 world := tt; invoked := [replicate j x01] |}).
  assert (Hrun : run (engine sha1 unit accept_all) (attempt (replicate i x01)) st0
                 = (Returned true, st0)).
  { rewrite run_attempt. simpl.
    rewrite sort_key_lt_shorter by (by rewrite !length_replicate).
    rewrite (predicate_hit _ _ _ _ _ true); [done|].
    simpl. rewrite Hkey. apply lookup_insert_eq. }
  specialize (Hclaim unit accept_all (replicate j x01) tt st0 unit (mret tt)
                (Returned tt) st0 (replicate i x01) st0 eq_refl eq_refl Hrun).
  by rewrite sort_key_lt_irrefl in Hclaim.
Qed.

Lemma every_digest_collides_on_attempt : ~ exists sha1, attempt_always_shrinks sha1.
Proof.
  intros [sha1 Hclaim]. apply (fingerprints_collide sha1). intros i j Hne Hkey.
  destruct (decide (i < j)%nat).
  - by apply (collision_defeats_attempt sha1 i j).
  - apply (collision_defeats_attempt sha1 j i); [lia|done|done].
Qed.

(** C2, as stated, fails.  Whatever the digest is, some run has an [attempt]
    that returns true without a decrease of [current].  On a concrete engine:
    under [flat_digest], after construction on [b"ab"], [attempt(b"a")] finds
    the fingerprint in the cache, returns true and leaves the engine as it
    was, although [b"a"] sorts below [b"ab"]. *)
Lemma attempt_true_without_shrink :
  (~ exists sha1, attempt_always_shrinks sha1)
  /\ init flat_digest unit accept_all (b_lit "ab") tt
     = Returned (fresh flat_digest (b_lit "ab"))
  /\ sort_key_lt (b_lit "a") (b_lit "ab") = true
  /\ run (engine flat_digest unit accept_all) (attempt (b_lit "a"))
       (fresh flat_digest (b_lit "ab"))
     = (Returned true, fresh flat_digest (b_lit "ab")).
Proof. split; [apply every_digest_collides_on_attempt|]. split_and!; reflexivity. Qed.

(** C2 (amended). From the construction of the engine on, [current] only
    ever stays or moves to a value that sorts strictly below it; one call of
    [predicate] replaces [current] only by the submitted value, and only when
    the external predicate has just accepted it and it sorts strictly below
    [current]; a value that does not sort strictly below [current] never
    replaces it.  An [attempt] that returns true has replaced [current] by the
    attempted value, which sorts strictly below the old one, provided the
    value's fingerprint is not that of a different value on which the
    external predicate was run. *)
Theorem monotone_shrink (sha1 : bytes -> bytes) (World : Type)
    (ext : bytes -> World -> bool * World) (initial : bytes) (w0 : World)
    (st0 : reducer World) {A} (p : pass A) (out : outcome A) (st : reducer World) :
  init sha1 World ext initial w0 = Returned st0 ->
  run (engine sha1 World ext) p st0 = (out, st) ->
  (current st = initial \/ sort_key_lt (current st) initial = true)
  /\ (forall B (q : pass B) out' st', run (engine sha1 World ext) q st = (out', st') ->
        current st' = current st \/ sort_key_lt (current st') (current st) = true)
  /\ (forall v r st', predicate sha1 World ext v st = (r, st') ->
        current st' = current st
        \/ (current st' = v /\ sort_key_lt v (current st) = true
            /\ r = true /\ (ext v (world st)).1 = true))
  /\ (forall v r st', predicate sha1 World ext v st = (r, st') ->
        sort_key_lt v (current st) = false -> current st' = current st)
  /\ (forall v st',
        (forall w, w ∈ invoked st -> cache_key sha1 w = cache_key sha1 v -> w = v) ->
        run (engine sha1 World ext) (attempt v) st = (Returned true, st') ->
        current st' = v /\ sort_key_lt (current st') (current st) = true).
Proof.
  intros Hinit Hrun.
  pose proof (run_coherent _ _ _ _ _ _ _ (coherent_init _ _ _ _ _ _ Hinit) Hrun)
    as Hcoh.
  split_and!.
  - apply run_later in Hrun as (Hcur & _).
    by rewrite (init_current _ _ _ _ _ _ Hinit) in Hcur.
  - intros B q out' st' Hq. by apply run_later in Hq as (Hcur & _).
  - intros v r st' Hp.
    destruct (predicate_current _ _ _ _ _ _ _ Hp) as [[? _]|(? & _ & ? & ? & _ & ?)]; auto.
  - intros v r st' Hp Hge.
    destruct (predicate_current _ _ _ _ _ _ _ Hp) as [[? _]|(_ & _ & ? & _)];
      [done|congruence].
  - intros v st' Hfresh Hrun'.
    destruct (attempt_accepts sha1 World ext v st st') as [Hc Hlt]; try done.
    by rewrite Hc.
Qed.

Lemma monotone_shrink_witness :
  (current demo_end = b_lit "ab" \/ sort_key_lt (current demo_end) (b_lit "ab") = true)
  /\ (forall B (q : pass B) out' st',
        run (engine rolling_digest unit nonempty_ext) q demo_end = (out', st') ->
        current st' = current demo_end
        \/ sort_key_lt (current st') (current demo_end) = true)
  /\ (forall v r st', predicate rolling_digest unit nonempty_ext v demo_end = (r, st') ->
        current st' = current demo_end
        \/ (current st' = v /\ sort_key_lt v (current demo_end) = true
            /\ r = true /\ (nonempty_ext v (world demo_end)).1 = true))
  /\ (forall v r st', predicate rolling_digest unit nonempty_ext v demo_end = (r, st') ->
        sort_key_lt v (current demo_end) = false -> current st' = current demo_end)
  /\ (forall v st',
        (forall w, w ∈ invoked demo_end ->
                   cache_key rolling_digest w = cache_key rolling_digest v -> w = v) ->
        run (engine rolling_digest unit nonempty_ext) (attempt v) demo_end
        = (Returned true, st') ->
        current st' = v /\ sort_key_lt (current st') (current demo_end) = true).
Proof.
  apply (monotone_shrink rolling_digest unit nonempty_ext (b_lit "ab") tt
           (fresh rolling_digest (b_lit "ab")) demo_client
           (run (engine rolling_digest unit nonempty_ext) demo_client (fresh rolling_digest (b_lit "ab"))).1).
  - reflexivity.
  - unfold demo_end.
    destruct (run (engine rolling_digest unit nonempty_ext) demo_client (fresh rolling_digest (b_lit "ab"))).
    reflexivity.
Defined.

(** ** Bracket pairing *)

Lemma elem_of_endpoints x results :
  x ∈ endpoints results <-> exists a b, (a, b) ∈ results /\ (x = a \/ x = b).
Proof.
  unfold endpoints. rewrite list_elem_of_bind. split.
  - intros ([a b] & Hx & Hp). exists a, b.
    split; [done|]. simpl in Hx.
    apply elem_of_cons in Hx as [->|Hx]; [by left|].
    apply list_elem_of_singleton in Hx as ->. by right.
  - intros (a & b & Hp & Hx). exists (a, b). split; [|done]. simpl.
    destruct Hx as [-> | ->]; [by left|right; by left].
Qed.

Lemma endpoints_snoc results a b :
  endpoints (results ++ [(a, b)]) = endpoints results ++ [a; b].
Proof. unfold endpoints. by rewrite bind_app. Qed.

Section Brackets.
Variables lbr rbr : byte.

Lemma scan_inv_fresh pre s x :
  scan_inv lbr rbr pre s -> x ∈ s.1.2 ++ endpoints s.2 -> (x < length pre)%nat.
Proof.
  intros (_ & Hst & Hres & _) [Hx|Hx]%elem_of_app.
  - by apply Hst, lookup_lt_Some in Hx.
  - apply elem_of_endpoints in Hx as (a & b & Hab & Hx).
    apply Hres in Hab as (_ & Ha%lookup_lt_Some & Hb%lookup_lt_Some & _).
    destruct Hx; by subst.
Qed.

Lemma scan_inv_step pre s c :
  scan_inv lbr rbr pre s -> scan_inv lbr rbr (pre ++ [c]) (paired_step lbr rbr s c).
Proof.
  intros Hinv. pose proof (fun x => scan_inv_fresh pre s x Hinv) as Hfresh.
  destruct Hinv as (Hi & Hst & Hres & Hnd).
  destruct s as [[i stack] results]. simpl in *. subst i.
  assert (Hext : forall a x, pre !! a = Some x -> (pre ++ [c]) !! a = Some x).
  { intros a x Ha. by apply lookup_app_l_Some. }
  assert (Hlast : (pre ++ [c]) !! length pre = Some c).
  { rewrite lookup_app_r by lia. by rewrite Nat.sub_diag. }
  assert (Hres' : forall a b, (a, b) ∈ results ->
            (a < b)%nat /\ (pre ++ [c]) !! a = Some lbr
            /\ (pre ++ [c]) !! b = Some rbr /\ lbr <> rbr).
  { intros a b Hab. apply Hres in Hab as (? & ? & ? & ?). auto. }
  assert (Hlen : length (pre ++ [c]) = S (length pre)).
  { rewrite length_app. simpl. lia. }
  unfold paired_step. case_bool_decide as Hl; [|case_bool_decide as Hr].
  - subst c. split_and!; simpl; try done.
    + intros a [->|Ha]%elem_of_cons; auto.
    + apply NoDup_cons. split; [|done].
      intros Hin. specialize (Hfresh _ Hin). lia.
  - subst c. destruct stack as [|top stack'].
    + split_and!; simpl; try done. intros a Ha. auto.
    + split_and!; simpl; try done.
      * intros a Ha. apply Hext, Hst. by right.
      * intros a b [Hab|[= -> ->]%list_elem_of_singleton]%elem_of_app; [auto|].
        assert (pre !! top = Some lbr) as Htop by (apply Hst; by left).
        split_and!; auto. by apply lookup_lt_Some in Htop.
      * rewrite endpoints_snoc.
        assert (Hperm : stack' ++ endpoints results ++ [top; length pre]
                        ≡ₚ length pre :: top :: stack' ++ endpoints results).
        { rewrite (app_assoc stack'). rewrite <- Permutation_app_comm. simpl.
          apply perm_swap. }
        rewrite Hperm. apply NoDup_cons. split; [|done].
        intros Hin. specialize (Hfresh _ Hin). lia.
  - split_and!; simpl; try done. intros a Ha. auto.
Qed.

Lemma scan_inv_fold rest pre s :
  scan_inv lbr rbr pre s -> scan_inv lbr rbr (pre ++ rest) (fold_left (paired_step lbr rbr) rest s).
Proof.
  revert pre s. induction rest as [|c rest IH]; intros pre s Hinv; simpl.
  - by rewrite app_nil_r.
  - rewrite (assoc_L _ pre [c] rest : pre ++ c :: rest = (pre ++ [c]) ++ rest).
    by apply IH, scan_inv_step.
Qed.

Lemma scan_inv_start : scan_inv lbr rbr [] (O, [], []).
Proof. split_and!; simpl; try done; [by intros a ?%elem_of_nil | by intros a b ?%elem_of_nil | constructor]. Qed.

Lemma paired_scan_inv target : scan_inv lbr rbr target (paired_scan lbr rbr target).
Proof. apply (scan_inv_fold target []), scan_inv_start. Qed.

(** Pairs emitted from a given state on: their open index is on the stack
    or not yet read, their close index is not yet read. *)
Lemma scan_extends rest i stack results :
  exists extra,
    (fold_left (paired_step lbr rbr) rest (i, stack, results)).2 = results ++ extra
    /\ forall a b, (a, b) ∈ extra -> (a ∈ stack \/ (i <= a)%nat) /\ (i <= b)%nat.
Proof.
  revert i stack results.
  induction rest as [|c rest IH]; intros i stack results; simpl.
  { exists []. split; [by rewrite app_nil_r|]. by intros a b ?%elem_of_nil. }
  case_bool_decide as Hl; [|case_bool_decide as Hr; [destruct stack as [|top stack']|]].
  - destruct (IH (S i) (i :: stack) results) as (extra & -> & Hx).
    exists extra. split; [done|]. intros a b Hab.
    destruct (Hx _ _ Hab) as [[[->|?]%elem_of_cons|?] ?]; split; auto; lia.
  - destruct (IH (S i) [] results) as (extra & -> & Hx).
    exists extra. split; [done|]. intros a b Hab.
    destruct (Hx _ _ Hab) as [[?|?] ?]; split; auto; lia.
  - destruct (IH (S i) stack' (results ++ [(top, i)])) as (extra & -> & Hx).
    exists ((top, i) :: extra). split; [by rewrite <- app_assoc|].
    intros a b [[= -> ->]|Hab]%elem_of_cons.
    + split; [left; by left|lia].
    + destruct (Hx _ _ Hab) as [[?|?] ?]; split; auto; try lia. left. by right.
  - destruct (IH (S i) stack results) as (extra & -> & Hx).
    exists extra. split; [done|]. intros a b Hab.
    destruct (Hx _ _ Hab) as [[?|?] ?]; split; auto; lia.
Qed.

Lemma unmatched_close_discarded target j :
  target !! j = Some rbr ->
  (paired_scan lbr rbr (take j target)).1.2 = [] ->
  j ∉ endpoints (paired_scan lbr rbr target).2.
Proof.
  intros Hj Hempty Hin.
  pose proof (paired_scan_inv target) as (_ & _ & Hres & _).
  assert (Hne : lbr <> rbr).
  { apply elem_of_endpoints in Hin as (a & b & Hab & _).
    by apply Hres in Hab as (_ & _ & _ & ?). }
  pose proof (paired_scan_inv (take j target)) as Hpre.
  pose proof (scan_inv_fresh _ _ j Hpre) as Hfresh.
  destruct Hpre as (Hi & _).
  destruct (paired_scan lbr rbr (take j target)) as [[i0 stack0] res0] eqn:Hscan.
  simpl in *. subst stack0.
  assert (Hlen : length (take j target) = j).
  { apply lookup_lt_Some in Hj. rewrite length_take. lia. }
  rewrite Hlen in Hi, Hfresh. subst i0.
  unfold paired_scan in Hin.
  rewrite <- (take_drop_middle target j rbr Hj), fold_left_app in Hin.
  fold (paired_scan lbr rbr (take j target)) in Hin. rewrite Hscan in Hin.
  simpl in Hin. rewrite bool_decide_eq_false_2 in Hin by (by apply not_eq_sym).
  rewrite bool_decide_eq_true_2 in Hin by done.
  destruct (scan_extends (drop (S j) target) (S j) [] res0) as (extra & Heq & Hx).
  rewrite Heq in Hin. apply elem_of_endpoints in Hin as (a & b & Hab & Hjab).
  apply elem_of_app in Hab as [Hab|Hab].
  - assert (j ∈ endpoints res0) as Hj0 by (apply elem_of_endpoints; eauto).
    specialize (Hfresh Hj0). lia.
  - destruct (Hx _ _ Hab) as [[?%elem_of_nil|?] ?]; [done|]. lia.
Qed.
End Brackets.

(** C8. Every pair [(i, j)] that [find_paired_brackets] emits has [i < j],
    the open byte at [i] and the close byte at [j]; the endpoints of all the
    emitted pairs are pairwise distinct indices; a close byte met while the
    stack is empty is an endpoint of no pair; an open byte still on the stack
    at the end is an endpoint of no pair. *)
Theorem find_paired_brackets_sound (lbr rbr : byte) (target : bytes) :
  (forall i j, (i, j) ∈ find_paired_brackets (lbr, rbr) target ->
     (i < j)%nat /\ target !! i = Some lbr /\ target !! j = Some rbr)
  /\ NoDup (endpoints (find_paired_brackets (lbr, rbr) target))
  /\ (forall j, target !! j = Some rbr ->
        (paired_scan lbr rbr (take j target)).1.2 = [] ->
        j ∉ endpoints (find_paired_brackets (lbr, rbr) target))
  /\ (forall i, i ∈ (paired_scan lbr rbr target).1.2 ->
        i ∉ endpoints (find_paired_brackets (lbr, rbr) target)).
Proof.
  unfold find_paired_brackets.
  pose proof (paired_scan_inv lbr rbr target) as (_ & _ & Hres & Hnd).
  split_and!.
  - intros i j Hij. apply Hres in Hij as (? & ? & ? & _). auto.
  - by apply NoDup_app in Hnd as (_ & _ & ?).
  - apply unmatched_close_discarded.
  - intros i Hi. apply NoDup_app in Hnd as (_ & Hdisj & _). by apply Hdisj.
Qed.

(** ** Exceptions a program can end in *)



Section NoRaise.
Context {E : Type} {resp : E -> Type}.





Context {A : Type}.


End NoRaise.

(** ** Delimiter-based reduction *)

Lemma run_bind_returned {E} {resp : E -> Type} {S A B}
    (h : forall e : E, S -> resp e * S) (m : prog E resp A)
    (f : A -> prog E resp B) (s : S) (b : B) (s' : S) :
  run h (m ≫= f) s = (Returned b, s') ->
  exists a s1, run h m s = (Returned a, s1) /\ run h (f a) s1 = (Returned b, s').
Proof.
  rewrite run_bind. destruct (run h m s) as [[a|e|] s1]; [eauto|done..].
Qed.


Lemma run_bind_timeout {E} {resp : E -> Type} {S A B}
    (h : forall e : E, S -> resp e * S) (m : prog E resp A)
    (f : A -> prog E resp B) (s : S) :
  (run h m s).1 = Timeout -> (run h (m ≫= f) s).1 = Timeout.
Proof. rewrite run_bind. by destruct (run h m s) as [[a|e|] s1]. Qed.

Lemma bytes_join_nil (parts : list bytes) : bytes_join [] parts = mjoin parts.
Proof.
  induction parts as [|p parts IH]; [done|].
  destruct parts as [|q parts]; simpl in *; [by rewrite app_nil_r|].
  by rewrite IH.
Qed.

(** Joining with the empty delimiter does not see the empty parts. *)
Lemma bytes_join_nil_nonempty (parts : list bytes) :
  bytes_join [] (nonempty_parts parts) = bytes_join [] parts.
Proof.
  rewrite !bytes_join_nil. unfold nonempty_parts.
  induction parts as [|p parts IH]; [done|].
  rewrite filter_cons. destruct (decide (p <> [])) as [|Hp]; simpl.
  - by rewrite IH.
  - destruct p; [by rewrite IH|]. by destruct Hp.
Qed.

(** ** The order is total *)

Lemma bytes_lt_total (a b : bytes) :
  length a = length b -> bytes_lt a b = true \/ a = b \/ bytes_lt b a = true.
Proof.
  revert b. induction a as [|x a IH]; intros [|y b] Hlen; simpl in *; try done.
  - by right; left.
  - destruct (Z.ltb_spec (byte_val x) (byte_val y)); [by left|].
    destruct (Z.ltb_spec (byte_val y) (byte_val x)); [by right; right|].
    assert (x = y) as -> by (apply byte_val_inj; lia).
    destruct (IH b) as [?|[->|?]]; [lia|by left|by right; left|by right; right].
Qed.



Section Delimiter.
Variable sha1 : bytes -> bytes.
Variable World : Type.
Variable ext : bytes -> World -> bool * World.

Abbreviation exec := (run (engine sha1 World ext)).

Lemma run_split_current delimiter st :
  exec (split_current delimiter) st =
  match bytes_split delimiter (current st) with
  | Some parts => (Returned parts, st)
  | None => (Raised ValueError, st)
  end.
Proof. unfold split_current. simpl. by destruct (bytes_split delimiter (current st)). Qed.

Lemma run_self_current_id st :
  exec self_current_id st = (Returned (current_id st), st).
Proof. reflexivity. Qed.

Lemma run_self_current st :
  exec self_current st = (Returned (current st), st).
Proof. reflexivity. Qed.




End Delimiter.


(** When the no-delimiter join sorts below [current] and its fingerprint is
    cached with verdict true, both attempts are answered from the cache and
    the re-split runs with the empty delimiter. *)
Lemma resplit_raises_on_hit (sha1 : bytes -> bytes) (World : Type)
    (ext : bytes -> World -> bool * World) (fuel : nat) (delimiter : int_or_bytes)
    (st : reducer World) (parts : list bytes) :
  bytes_split (to_bs delimiter) (current st) = Some parts ->
  sort_key_lt (bytes_join [] parts) (current st) = true ->
  cache st !! cache_key sha1 (bytes_join [] parts) = Some true ->
  run (engine sha1 World ext) (reduce_by_delimiter fuel delimiter) st
  = (Raised ValueError, st).
Proof.
  intros Hsplit Hlt Hhit.
  assert (Hjoins : run (engine sha1 World ext)
                     (reduce_by_delimiter_joins (to_bs delimiter)) st
                   = (Returned ([], parts, true), st)).
  { unfold reduce_by_delimiter_joins.
    rewrite run_bind, run_split_current, Hsplit.
    rewrite run_bind, run_attempt, Hlt, (predicate_hit _ _ _ _ _ _ Hhit).
    cbn iota.
    rewrite run_bind, run_attempt, bytes_join_nil_nonempty, Hlt,
      (predicate_hit _ _ _ _ _ _ Hhit).
    reflexivity. }
  unfold reduce_by_delimiter.
  rewrite run_bind, run_self_current_id, run_bind, Hjoins.
  rewrite run_bind, run_split_current. reflexivity.
Qed.

(** The condition on fingerprints in [resplit_keeps_delimiter] is what
    [resplit_raises_on_hit] leaves out.  It holds of every digest that tells
    the values in play apart; a digest that gives all values one fingerprint
    shows what it rules out: under [flat_digest], after construction on
    [b"a;"], both joins of [reduce_by_delimiter(b";")] are [b"a"], whose
    fingerprint is that of [b"a;"], so both attempts are answered true from
    the cache while [current] stays [b"a;"]. *)
Example resplit_under_flat_digest :
  init flat_digest unit accept_all (b_lit "a;") tt
  = Returned (fresh flat_digest (b_lit "a;"))
  /\ run (engine flat_digest unit accept_all)
       (reduce_by_delimiter_joins (b_lit ";")) (fresh flat_digest (b_lit "a;"))
     = (Returned ([], [b_lit "a"; []], true), fresh flat_digest (b_lit "a;"))
  /\ run (engine flat_digest unit accept_all)
       (reduce_by_delimiter 10 (PyBytes (b_lit ";"))) (fresh flat_digest (b_lit "a;"))
     = (Raised ValueError, fresh flat_digest (b_lit "a;")).
Proof. split_and!; reflexivity. Qed.


(** ** More fuel

    A program given more fuel does what it did before, and may go on where
    it had run out. *)

Lemma approx_refl {E} {resp : E -> Type} {A} (p : prog E resp A) : approx p p.
Proof. induction p; constructor; auto. Qed.

Lemma approx_bind {E} {resp : E -> Type} {A B} (m m' : prog E resp A)
    (f f' : A -> prog E resp B) :
  approx m m' -> (forall a, approx (f a) (f' a)) -> approx (m ≫= f) (m' ≫= f').
Proof.
  unfold mbind, prog_bind. intros Hm Hf.
  induction Hm; simpl; try constructor; auto.
Qed.

(** An outcome other than running out of fuel is kept. *)
Lemma approx_run {E} {resp : E -> Type} {S A} (h : forall e : E, S -> resp e * S)
    (p q : prog E resp A) (s : S) (out : outcome A) (s' : S) :
  approx p q -> run h p s = (out, s') -> out <> Timeout -> run h q s = (out, s').
Proof.
  intros Hpq. revert s. induction Hpq as [q|a|e|c k k' _ IH]; intros s; simpl.
  - intros [= <- _]. done.
  - done.
  - done.
  - destruct (h c s) as [x s1]. apply IH.
Qed.

Lemma approx_run_local {R E} {resp : E -> Type} {A}
    (p q : prog (local_call R E) (local_resp resp) A) (r : R) :
  approx p q -> approx (run_local p r) (run_local q r).
Proof.
  intros Hpq. revert r. induction Hpq as [q|a|e|c k k' _ IH]; intros r; simpl;
    try constructor.
  destruct c as [|r'|e]; simpl; [apply IH|apply IH|].
  constructor. intros x. apply IH.
Qed.

Create HintDb fuel.
#[local] Hint Resolve approx_refl : fuel.
#[local] Hint Extern 2 (_ <= _)%nat => lia : fuel.

(** [fuel_mono]: programs built alike from parts that approximate each
    other approximate each other. *)
Ltac fuel_mono :=
  repeat first
    [ apply approx_refl
    | apply approx_diverge
    | solve [eauto with fuel]
    | apply approx_bind; [|intros ?]
    | apply approx_run_local
    | match goal with
      | |- approx (if ?b then _ else _) (if ?b then _ else _) => destruct b
      | |- approx (match ?x with _ => _ end) (match ?x with _ => _ end) => destruct x
      | |- approx (let '(_, _) := ?x in _) (let '(_, _) := ?x in _) => destruct x
      end ].

Section FuelSequences.
Context {E : Type} {resp : E -> Type}.

Lemma find_integer_probe_mono n m (f : Z -> prog E resp bool) lo hi :
  (n <= m)%nat -> approx (find_integer_probe n f lo hi) (find_integer_probe m f lo hi).
Proof.
  revert m lo hi. induction n as [|n IH]; intros m lo hi Hnm; [constructor|].
  destruct m as [|m]; [lia|]. cbn [find_integer_probe]. fuel_mono.
Qed.

Lemma find_integer_bisect_mono n m (f : Z -> prog E resp bool) lo hi :
  (n <= m)%nat -> approx (find_integer_bisect n f lo hi) (find_integer_bisect m f lo hi).
Proof.
  revert m lo hi. induction n as [|n IH]; intros m lo hi Hnm; [constructor|].
  destruct m as [|m]; [lia|]. cbn [find_integer_bisect]. fuel_mono.
Qed.

Lemma find_integer_scan_mono (f : Z -> prog E resp bool) ks rest rest' :
  approx rest rest' -> approx (find_integer_scan f ks rest) (find_integer_scan f ks rest').
Proof. intros Hr. induction ks as [|i ks IH]; cbn [find_integer_scan]; fuel_mono. Qed.

Hint Resolve find_integer_probe_mono find_integer_bisect_mono : fuel.

Lemma find_integer_mono n m (f : Z -> prog E resp bool) :
  (n <= m)%nat -> approx (find_integer n f) (find_integer m f).
Proof. intros Hnm. unfold find_integer. apply find_integer_scan_mono. fuel_mono. Qed.

Hint Resolve find_integer_mono : fuel.

Lemma linear_reduce_loop_mono {A} n m fuel fuel'
    (predicate : list A -> prog E resp bool) sequence i :
  (n <= m)%nat -> (fuel <= fuel')%nat ->
  approx (linear_reduce_loop n fuel predicate sequence i)
         (linear_reduce_loop m fuel' predicate sequence i).
Proof.
  revert m sequence i. induction n as [|n IH]; intros m sequence i Hnm Hf; [constructor|].
  destruct m as [|m]; [lia|]. cbn [linear_reduce_loop]. fuel_mono.
Qed.

Lemma linear_reduce_mono {A} n m (sequence : list A)
    (predicate : list A -> prog E resp bool) :
  (n <= m)%nat -> approx (linear_reduce n sequence predicate) (linear_reduce m sequence predicate).
Proof. intros Hnm. by apply linear_reduce_loop_mono. Qed.
End FuelSequences.

#[local] Hint Resolve find_integer_probe_mono find_integer_bisect_mono find_integer_mono
  linear_reduce_mono linear_reduce_loop_mono : fuel.

Section FuelPasses.
Variable re : regex.

Lemma delete_many_loop_mono n m fuel fuel' sets target i :
  (n <= m)%nat -> (fuel <= fuel')%nat ->
  approx (delete_many_loop n fuel sets target i) (delete_many_loop m fuel' sets target i).
Proof.
  revert m i. induction n as [|n IH]; intros m i Hnm Hf; [constructor|].
  destruct m as [|m]; [lia|]. cbn [delete_many_loop]. fuel_mono.
Qed.

Hint Resolve delete_many_loop_mono : fuel.

Lemma attempt_delete_many_sets_mono n m sets :
  (n <= m)%nat -> approx (attempt_delete_many_sets n sets) (attempt_delete_many_sets m sets).
Proof. intros Hnm. unfold attempt_delete_many_sets. fuel_mono. Qed.

Hint Resolve attempt_delete_many_sets_mono : fuel.

Lemma strip_re_mono n m expr :
  (n <= m)%nat -> approx (strip_re re n expr) (strip_re re m expr).
Proof. intros Hnm. unfold strip_re. fuel_mono. Qed.

Hint Resolve strip_re_mono : fuel.

Lemma remove_comments_mono n m :
  (n <= m)%nat -> approx (remove_comments re n) (remove_comments re m).
Proof. intros Hnm. unfold remove_comments. fuel_mono. Qed.

Lemma squeeze_newlines_mono n m :
  (n <= m)%nat -> approx (squeeze_newlines n) (squeeze_newlines m).
Proof.
  revert m. induction n as [|n IH]; intros m Hnm; [constructor|].
  destruct m as [|m]; [lia|]. cbn [squeeze_newlines]. fuel_mono.
Qed.

Hint Resolve squeeze_newlines_mono : fuel.

Lemma normalize_whitespace_mono n m :
  (n <= m)%nat -> approx (normalize_whitespace re n) (normalize_whitespace re m).
Proof. intros Hnm. unfold normalize_whitespace. fuel_mono. Qed.

Lemma reduce_by_delimiter_mono n m delimiter :
  (n <= m)%nat -> approx (reduce_by_delimiter n delimiter) (reduce_by_delimiter m delimiter).
Proof. intros Hnm. unfold reduce_by_delimiter. fuel_mono. Qed.

Hint Resolve reduce_by_delimiter_mono : fuel.

Lemma delete_bracket_contents_mono n m :
  (n <= m)%nat -> approx (delete_bracket_contents n) (delete_bracket_contents m).
Proof.
  intros Hnm. unfold delete_bracket_contents.
  induction BRACKETS as [|b kinds IH]; cbn [delete_bracket_contents_each]; fuel_mono.
Qed.

Lemma debracket_mono n m :
  (n <= m)%nat -> approx (debracket n) (debracket m).
Proof.
  intros Hnm. unfold debracket.
  induction BRACKETS as [|b kinds IH]; cbn [debracket_each]; fuel_mono.
Qed.

Lemma kill_strings_each_mono n m quotes :
  (n <= m)%nat -> approx (kill_strings_each n quotes) (kill_strings_each m quotes).
Proof.
  intros Hnm. induction quotes as [|c quotes IH]; cbn [kill_strings_each]; fuel_mono.
Qed.

Lemma kill_strings_mono n m :
  (n <= m)%nat -> approx (kill_strings n) (kill_strings m).
Proof. apply kill_strings_each_mono. Qed.

Lemma pull_out_braces_loop_mono n m braces i :
  (n <= m)%nat ->
  approx (pull_out_braces_loop re n braces i) (pull_out_braces_loop re m braces i).
Proof.
  revert m braces i. induction n as [|n IH]; intros m braces i Hnm; [constructor|].
  destruct m as [|m]; [lia|]. cbn [pull_out_braces_loop]. fuel_mono.
Qed.

Hint Resolve pull_out_braces_loop_mono : fuel.

Lemma pull_out_braces_mono n m :
  (n <= m)%nat -> approx (pull_out_braces re n) (pull_out_braces re m).
Proof. intros Hnm. unfold pull_out_braces. fuel_mono. Qed.

Lemma prefix_lines_loop_mono n m terminator i :
  (n <= m)%nat ->
  approx (prefix_lines_loop n terminator i) (prefix_lines_loop m terminator i).
Proof.
  revert m i. induction n as [|n IH]; intros m i Hnm; [constructor|].
  destruct m as [|m]; [lia|]. cbn [prefix_lines_loop]. fuel_mono.
Qed.

Hint Resolve prefix_lines_loop_mono : fuel.

Lemma prefix_lines_each_mono n m terminators :
  (n <= m)%nat -> approx (prefix_lines_each n terminators) (prefix_lines_each m terminators).
Proof.
  intros Hnm. induction terminators as [|t terminators IH]; cbn [prefix_lines_each]; fuel_mono.
Qed.

Lemma prefix_lines_mono n m :
  (n <= m)%nat -> approx (prefix_lines n) (prefix_lines m).
Proof. apply prefix_lines_each_mono. Qed.

Lemma substitute_each_mono n m name definition pumped targets i :
  (n <= m)%nat ->
  approx (substitute_each re n name definition pumped targets i)
         (substitute_each re m name definition pumped targets i).
Proof.
  revert m pumped targets i. induction n as [|n IH]; intros m pumped targets i Hnm;
    [constructor|].
  destruct m as [|m]; [lia|]. cbn [substitute_each]. fuel_mono.
Qed.

Hint Resolve substitute_each_mono : fuel.

Lemma substitute_typedef_mono n m pumped typedef :
  (n <= m)%nat ->
  approx (substitute_typedef re n pumped typedef) (substitute_typedef re m pumped typedef).
Proof. intros Hnm. unfold substitute_typedef. fuel_mono. Qed.

Hint Resolve substitute_typedef_mono : fuel.

Lemma substitute_typedefs_mono n m fuel fuel' pumped attempted :
  (n <= m)%nat -> (fuel <= fuel')%nat ->
  approx (substitute_typedefs re n fuel pumped attempted)
         (substitute_typedefs re m fuel' pumped attempted).
Proof.
  revert m pumped attempted. induction n as [|n IH]; intros m pumped attempted Hnm Hf;
    [constructor|].
  destruct m as [|m]; [lia|]. cbn [substitute_typedefs]. fuel_mono.
Qed.

Hint Resolve substitute_typedefs_mono : fuel.

Lemma attempt_typedef_substitutions_mono n m :
  (n <= m)%nat ->
  approx (attempt_typedef_substitutions re n) (attempt_typedef_substitutions re m).
Proof. intros Hnm. unfold attempt_typedef_substitutions. fuel_mono. Qed.

Lemma normalize_each_mono n m identifiers :
  (n <= m)%nat -> approx (normalize_each n identifiers) (normalize_each m identifiers).
Proof.
  intros Hnm. induction identifiers as [|s identifiers IH]; cbn [normalize_each]; fuel_mono.
Qed.

Hint Resolve normalize_each_mono : fuel.

Lemma normalize_identifiers_mono n m :
  (n <= m)%nat -> approx (normalize_identifiers re n) (normalize_identifiers re m).
Proof. intros Hnm. unfold normalize_identifiers. fuel_mono. Qed.

Lemma reduce_by_bytes_mono n m :
  (n <= m)%nat -> approx (reduce_by_bytes n) (reduce_by_bytes m).
Proof. intros Hnm. unfold reduce_by_bytes. fuel_mono. Qed.

Lemma reduce_by_all_delimiters_loop_mono n m fuel fuel' delimiters :
  (n <= m)%nat -> (fuel <= fuel')%nat ->
  approx (reduce_by_all_delimiters_loop n fuel delimiters)
         (reduce_by_all_delimiters_loop m fuel' delimiters).
Proof.
  revert m delimiters. induction n as [|n IH]; intros m delimiters Hnm Hf; [constructor|].
  destruct m as [|m]; [lia|]. cbn [reduce_by_all_delimiters_loop]. fuel_mono.
Qed.

Hint Resolve reduce_by_all_delimiters_loop_mono : fuel.

Lemma reduce_by_all_delimiters_mono n m :
  (n <= m)%nat -> approx (reduce_by_all_delimiters n) (reduce_by_all_delimiters m).
Proof. intros Hnm. unfold reduce_by_all_delimiters. fuel_mono. Qed.

Hint Resolve remove_comments_mono normalize_whitespace_mono delete_bracket_contents_mono
  pull_out_braces_mono debracket_mono kill_strings_mono attempt_typedef_substitutions_mono
  normalize_identifiers_mono prefix_lines_mono reduce_by_bytes_mono
  reduce_by_all_delimiters_mono : fuel.

Lemma reduce_c_like_language_loop_mono n m fuel fuel' prev :
  (n <= m)%nat -> (fuel <= fuel')%nat ->
  approx (reduce_c_like_language_loop re n fuel prev)
         (reduce_c_like_language_loop re m fuel' prev).
Proof.
  revert m prev. induction n as [|n IH]; intros m prev Hnm Hf; [constructor|].
  destruct m as [|m]; [lia|]. cbn [reduce_c_like_language_loop]. fuel_mono.
Qed.

Lemma reduce_c_like_language_mono n m :
  (n <= m)%nat -> approx (reduce_c_like_language re n) (reduce_c_like_language re m).
Proof. intros Hnm. by apply reduce_c_like_language_loop_mono. Qed.

Hint Resolve reduce_c_like_language_mono : fuel.

Lemma reduce_turn_mono n m :
  (n <= m)%nat -> approx (reduce_turn re n) (reduce_turn re m).
Proof. intros Hnm. unfold reduce_turn. fuel_mono. Qed.

Hint Resolve reduce_turn_mono : fuel.

Lemma reduce_loop_mono n m fuel fuel' prev :
  (n <= m)%nat -> (fuel <= fuel')%nat ->
  approx (reduce_loop re n fuel prev) (reduce_loop re m fuel' prev).
Proof.
  revert m prev. induction n as [|n IH]; intros m prev Hnm Hf; [constructor|].
  destruct m as [|m]; [lia|]. cbn [reduce_loop]. fuel_mono.
Qed.

(** More fuel does not change what [reduce] returns. *)
Lemma reduce_mono n m :
  (n <= m)%nat -> approx (reduce re n) (reduce re m).
Proof. intros Hnm. by apply reduce_loop_mono. Qed.
End FuelPasses.

(** ** Termination of [reduce] *)

Section TypedefLoop.
Variable sha1 : bytes -> bytes.
Variable re : regex.

(** What is used of the digest and of the regular expressions: the empty
    string and the input have different fingerprints; the typedef pattern
    matches the whole input, with [a] for both groups; the first whole-word
    occurrence of [a] in the input is at [8, 9); substituting in the empty
    string gives the empty string. *)
Hypothesis digest_apart : cache_key sha1 [] <> cache_key sha1 typedef_a_a.
Hypothesis typedef_found :
  re_finditer re P_typedef typedef_a_a = [mkMatch 0 12 [b_lit "a"; b_lit "a"]].
Hypothesis word_found :
  exists m, re_finditer re (P_word (b_lit "a")) typedef_a_a !! O = Some m
            /\ m_start m = 8%nat /\ m_end m = 9%nat.
Hypothesis sub_empty :
  re_sub re (P_word (b_lit "a")) (b_lit "a") [] = Some [].

Abbreviation exec := (run (engine sha1 unit (only typedef_a_a))).

Lemma stuck_fresh : stuck sha1 (fresh sha1 typedef_a_a).
Proof.
  split_and!; simpl; [done|by rewrite lookup_insert_eq|].
  intros k Hk. by rewrite lookup_insert_ne, lookup_empty.
Qed.

Lemma stuck_predicate v st :
  stuck sha1 st ->
  exists st', predicate sha1 unit (only typedef_a_a) v st
              = (bool_decide (cache_key sha1 v = cache_key sha1 typedef_a_a), st')
              /\ stuck sha1 st'.
Proof.
  intros (Hcur & Hin & Hout).
  destruct (cache st !! cache_key sha1 v) as [r|] eqn:Hc.
  - rewrite (predicate_hit _ _ _ _ _ _ Hc). exists st. split; [|done].
    case_bool_decide as Hk.
    + rewrite Hk, Hin in Hc. by injection Hc as <-.
    + destruct r; [|done]. by destruct (Hout _ Hk).
  - rewrite (predicate_miss _ _ _ _ _ Hc). unfold only, pure_ext.
    assert (Hk : cache_key sha1 v <> cache_key sha1 typedef_a_a) by congruence.
    assert (Hv : v <> typedef_a_a) by congruence.
    rewrite (bool_decide_eq_false_2 _ Hv), (bool_decide_eq_false_2 _ Hk). simpl.
    eexists. split; [done|]. split_and!; simpl; [done|by rewrite lookup_insert_ne|].
    intros k Hk'. destruct (decide (k = cache_key sha1 v)) as [->|].
    + by rewrite lookup_insert_eq.
    + rewrite lookup_insert_ne by done. by apply Hout.
Qed.

Lemma stuck_step c st : stuck sha1 st -> stuck sha1 (engine sha1 unit (only typedef_a_a) c st).2.
Proof.
  intros Hst. destruct c as [v|]; simpl; [|done].
  by destruct (stuck_predicate v st Hst) as (st' & -> & ?).
Qed.

(** From a stuck state the typedef pass neither returns nor raises: it runs
    out of fuel, whatever the fuel. *)
Lemma times_out_bind_l {A B} (m : pass A) (f : A -> pass B) :
  times_out sha1 m -> times_out sha1 (m ≫= f).
Proof. intros Hm st Hst. by apply run_bind_timeout, Hm. Qed.

Lemma times_out_current {A} (f : bytes -> pass A) :
  times_out sha1 (f typedef_a_a) -> times_out sha1 (self_current ≫= f).
Proof.
  intros Hf st Hst. rewrite run_bind. simpl.
  pose proof Hst as (Hcur & _). rewrite Hcur. by apply Hf.
Qed.

Lemma times_out_predicate {A} (v : bytes) (f : bool -> pass A) :
  times_out sha1 (f (bool_decide (cache_key sha1 v = cache_key sha1 typedef_a_a))) ->
  times_out sha1 (self_predicate v ≫= f).
Proof.
  intros Hf st Hst. rewrite run_bind. simpl.
  destruct (stuck_predicate v st Hst) as (st1 & -> & Hst1). by apply Hf.
Qed.

(** The walk over the occurrences of the name: the first occurrence is
    replaced by the definition, which gives the input back; it is accepted
    from the cache and the walk starts again at the same place. *)
Lemma substitute_each_times_out n :
  times_out sha1
    (substitute_each re n (b_lit "a") (b_lit "a") typedef_a_a
       (re_finditer re (P_word (b_lit "a")) typedef_a_a) O).
Proof.
  induction n as [|n IH]; [done|].
  cbn [substitute_each]. destruct word_found as (m & -> & -> & ->).
  change (take 8 typedef_a_a ++ b_lit "a" ++ drop 9 typedef_a_a) with typedef_a_a.
  apply times_out_predicate. by rewrite bool_decide_eq_true_2.
Qed.

Lemma attempt_typedef_substitutions_times_out fuel :
  times_out sha1 (attempt_typedef_substitutions re fuel).
Proof.
  unfold attempt_typedef_substitutions. apply times_out_current.
  apply times_out_bind_l.
  destruct fuel as [|n]; [done|].
  cbn [substitute_typedefs]. rewrite typedef_found.
  change (list_find _ _) with (Some (O, mkMatch 0 12 [b_lit "a"; b_lit "a"])).
  apply times_out_bind_l. unfold substitute_typedef.
  change (take _ typedef_a_a ++ drop _ typedef_a_a) with (@nil byte).
  apply times_out_predicate. rewrite bool_decide_eq_false_2 by done.
  change (m_group _ 2) with (b_lit "a"). change (m_group _ 1) with (b_lit "a").
  rewrite sub_empty.
  apply times_out_predicate. rewrite bool_decide_eq_false_2 by done.
  apply substitute_each_times_out.
Qed.

(** A part of the turn that returns with some fuel returns with more, and
    leaves the engine stuck. *)
Lemma times_out_after {A B} (p q : pass A) (k : A -> pass B) (a : A)
    (st st1 : reducer unit) :
  approx p q -> exec p st = (Returned a, st1) -> stuck sha1 st ->
  (stuck sha1 st1 -> (exec (k a) st1).1 = Timeout) ->
  (exec (q ≫= k) st).1 = Timeout.
Proof.
  intros Hpq Hrun Hst Hk.
  rewrite run_bind, (approx_run _ _ _ _ _ _ Hpq Hrun) by done.
  apply Hk. eapply (run_invariant _ (stuck sha1)); [apply stuck_step|done|done].
Qed.
End TypedefLoop.

(** The turn in which the typedef pass is first reached: with fuel 3 every
    pass before it returns, hence with any larger fuel too. *)
Lemma typedef_turn_times_out (n fuel : nat) :
  (3 <= fuel)%nat ->
  (run (engine rolling_digest unit (only typedef_a_a))
     (reduce_c_like_language_loop backtracking (S n) fuel None)
     (fresh rolling_digest typedef_a_a)).1 = Timeout.
Proof.
  intros Hfuel. cbn [reduce_c_like_language_loop].
  rewrite run_bind, run_self_current_id.
  rewrite bool_decide_eq_false_2 by done.
  pose proof (stuck_fresh rolling_digest) as Hst.
  eapply (times_out_after _ (remove_comments backtracking 3));
    [apply remove_comments_mono, Hfuel|vm_compute; reflexivity|done|clear Hst; intros Hst].
  eapply (times_out_after _ (normalize_whitespace backtracking 3));
    [apply normalize_whitespace_mono, Hfuel|vm_compute; reflexivity|done|clear Hst; intros Hst].
  eapply (times_out_after _ (delete_bracket_contents 3));
    [apply delete_bracket_contents_mono, Hfuel|vm_compute; reflexivity|done|clear Hst; intros Hst].
  eapply (times_out_after _ (reduce_by_delimiter 3 _));
    [apply reduce_by_delimiter_mono, Hfuel|vm_compute; reflexivity|done|clear Hst; intros Hst].
  eapply (times_out_after _ (reduce_by_delimiter 3 _));
    [apply reduce_by_delimiter_mono, Hfuel|vm_compute; reflexivity|done|clear Hst; intros Hst].
  eapply (times_out_after _ (pull_out_braces backtracking 3));
    [apply pull_out_braces_mono, Hfuel|vm_compute; reflexivity|done|clear Hst; intros Hst].
  eapply (times_out_after _ (debracket 3));
    [apply debracket_mono, Hfuel|vm_compute; reflexivity|done|clear Hst; intros Hst].
  eapply (times_out_after _ (kill_strings 3));
    [apply kill_strings_mono, Hfuel|vm_compute; reflexivity|done|clear Hst; intros Hst].
  eapply (times_out_after _ self_current);
    [apply approx_refl|vm_compute; reflexivity|done|clear Hst; intros Hst].
  eapply (times_out_after _ (attempt _));
    [apply approx_refl|vm_compute; reflexivity|done|clear Hst; intros Hst].
  apply run_bind_timeout.
  apply (attempt_typedef_substitutions_times_out rolling_digest backtracking);
    try (vm_compute; done).
  eexists. split; [vm_compute; reflexivity|]. split; reflexivity.
Qed.

(** C5. On the input [b"typedef a a;"], with the external predicate that
    accepts this input only, the engine is built without an exception and
    [reduce] neither returns nor raises, whatever fuel its loops are given:
    it always runs out of fuel.  The typedef pass replaces the first [a] by
    the definition [a], finds the result (the input itself) accepted in the
    cache, and starts over at the same occurrence. *)
Theorem reduce_never_returns_on_typedef (fuel : nat) :
  init rolling_digest unit (only typedef_a_a) typedef_a_a tt
  = Returned (fresh rolling_digest typedef_a_a)
  /\ (run (engine rolling_digest unit (only typedef_a_a)) (reduce backtracking fuel)
        (fresh rolling_digest typedef_a_a)).1 = Timeout.
Proof.
  split; [reflexivity|].
  do 3 (destruct fuel as [|fuel]; [vm_compute; reflexivity|]).
  unfold reduce. cbn [reduce_loop].
  rewrite run_bind, run_self_current_id.
  rewrite bool_decide_eq_false_2 by done.
  apply run_bind_timeout. unfold reduce_turn. apply run_bind_timeout.
  apply typedef_turn_times_out. lia.
Qed.


(** ** Re-entry *)

Section Reentry.
Variable sha1 : bytes -> bytes.
Variable World : Type.
Variable ext : bytes -> World -> bool * World.
Variable re : regex.

Abbreviation exec := (run (engine sha1 World ext)).

(** A run that has left the identity of [current] alone can be replayed
    from any state with the same [current] whose cache holds all the
    verdicts of that run: every call is answered as before, now from the
    cache, and the state does not move. *)
Lemma replay {A} (p : pass A) (st : reducer World) (out : outcome A)
    (st' st2 : reducer World) :
  exec p st = (out, st') ->
  current_id st' = current_id st ->
  current st2 = current st -> current_id st2 = current_id st ->
  cache st' ⊆ cache st2 ->
  exec p st2 = (out, st2).
Proof.
  revert st. induction p as [a|e| |c k IH]; intros st Hrun Hid Hcur Hid2 Hsub; simpl in *.
  - by injection Hrun as <- _.
  - by injection Hrun as <- _.
  - by injection Hrun as <- _.
  - destruct c as [v|]; simpl in *.
    + destruct (predicate sha1 World ext v st) as [r st1] eqn:Hp.
      pose proof (predicate_cache _ _ _ _ _ _ _ Hp) as [_ Hstored].
      pose proof (run_later _ _ _ _ _ _ _ Hrun) as (_ & Hsub1 & Hle1 & _).
      assert (Hstep : later st st1).
      { pose proof (later_step sha1 World ext (Predicate v) st st (later_refl _ _)) as H.
        simpl in H. by rewrite Hp in H. }
      destruct Hstep as (_ & _ & Hle0 & Hiff).
      assert (Hid1 : current_id st1 = current_id st) by lia.
      rewrite (predicate_hit _ _ _ _ _ r).
      2:{ eapply lookup_weaken; [|done]. by eapply lookup_weaken. }
      apply (IH r st1); try done; try congruence.
      rewrite Hcur. symmetry. by apply Hiff.
    + rewrite Hcur, Hid2. by apply (IH _ st).
Qed.

(** The last turn of a loop that has returned did not move [current]. *)
Lemma reduce_loop_last_turn (fuel n : nat) (prev : option nat)
    (st st1 : reducer World) :
  exec (reduce_loop re n fuel prev) st = (Returned tt, st1) ->
  prev <> Some (current_id st) ->
  (2 <= n)%nat
  /\ exists st_a, exec (reduce_turn re fuel) st_a = (Returned tt, st1)
                  /\ current_id st1 = current_id st_a.
Proof.
  revert prev st. induction n as [|n IH]; intros prev st Hrun Hprev; [done|].
  cbn [reduce_loop] in Hrun. rewrite run_bind, run_self_current_id in Hrun.
  rewrite bool_decide_eq_false_2 in Hrun by done.
  apply run_bind_returned in Hrun as ([] & st_b & Hturn & Hrest).
  destruct (decide (current_id st_b = current_id st)) as [Heq|Hne].
  - destruct n as [|n]; [done|].
    cbn [reduce_loop] in Hrest. rewrite run_bind, run_self_current_id in Hrest.
    rewrite bool_decide_eq_true_2 in Hrest by congruence.
    injection Hrest as <-. split; [lia|]. by exists st.
  - destruct (IH (Some (current_id st)) st_b Hrest) as (Hn & st_a & ? & ?); [congruence|].
    split; [lia|]. by exists st_a.
Qed.
End Reentry.

(** C6. If a call of [reduce] returns, a second call right after it (with
    the same fuel or more) returns as well and leaves the engine exactly as
    it found it: [current] and its identity, the cache, the world and the
    record of external invocations are unchanged, so the external predicate
    is not even run. *)
Theorem reduce_twice (sha1 : bytes -> bytes) (World : Type)
    (ext : bytes -> World -> bool * World) (re : regex) (fuel fuel' : nat)
    (st st1 : reducer World) :
  (fuel <= fuel')%nat ->
  run (engine sha1 World ext) (reduce re fuel) st = (Returned tt, st1) ->
  run (engine sha1 World ext) (reduce re fuel') st1 = (Returned tt, st1).
Proof.
  intros Hle Hrun.
  apply (approx_run _ _ _ _ _ _ (reduce_mono re fuel fuel' Hle)); [|done].
  unfold reduce in *.
  destruct (reduce_loop_last_turn sha1 World ext re fuel fuel None st st1 Hrun)
    as (Hfuel & st_a & Hturn & Hid); [done|].
  destruct fuel as [|[|n]]; [lia..|].
  pose proof (run_later _ _ _ _ _ _ _ Hturn) as (_ & _ & _ & Hiff).
  assert (Hagain : run (engine sha1 World ext) (reduce_turn re (S (S n))) st1
                   = (Returned tt, st1)).
  { apply (replay sha1 World ext _ st_a _ st1); try done. by apply Hiff. }
  cbn [reduce_loop]. rewrite run_bind, run_self_current_id.
  rewrite bool_decide_eq_false_2 by done.
  rewrite run_bind, Hagain, run_bind, run_self_current_id.
  by rewrite bool_decide_eq_true_2.
Qed.

Example reduced_a_b_current :
  current reduced_a_b = [] /\ invoked reduced_a_b = [b_lit "a b"; []].
Proof. split; vm_compute; reflexivity. Qed.

Lemma reduce_twice_witness :
  run (engine rolling_digest unit accept_all) (reduce backtracking 35) reduced_a_b
  = (Returned tt, reduced_a_b).
Proof.
  apply (reduce_twice rolling_digest unit accept_all backtracking 30 35
           (fresh rolling_digest (b_lit "a b")) reduced_a_b); [lia|].
  vm_compute. reflexivity.
Defined.


(** * Further properties *)

(** ** Reasoning about runs *)

Lemma ends_bind {E} {resp : E -> Type} {S A B} (h : forall e : E, S -> resp e * S)
    (m : prog E resp A) (f : A -> prog E resp B) (s : S)
    (Q : outcome B -> S -> Prop) :
  ends h m s (fun o s1 =>
    match o with
    | Returned a => ends h (f a) s1 Q
    | Raised e => Q (Raised e) s1
    | Timeout => Q Timeout s1
    end) ->
  ends h (m ≫= f) s Q.
Proof. unfold ends. rewrite run_bind. by destruct (run h m s) as [[a|e|] s1]. Qed.

Lemma ends_mono {E} {resp : E -> Type} {S A} (h : forall e : E, S -> resp e * S)
    (p : prog E resp A) (s : S) (Q Q' : outcome A -> S -> Prop) :
  ends h p s Q -> (forall o s', Q o s' -> Q' o s') -> ends h p s Q'.
Proof. unfold ends. auto. Qed.

Lemma returns_run {E} {resp : E -> Type} {S A} (h : forall e : E, S -> resp e * S)
    (p : prog E resp A) (s : S) (R : A -> S -> Prop) :
  returns h p s R <-> exists a s', run h p s = (Returned a, s') /\ R a s'.
Proof.
  unfold returns, ends. destruct (run h p s) as [[a|e|] s1]; simpl.
  - split; [by eauto|]. by intros (? & ? & [= <- <-] & ?).
  - split; [done|]. by intros (? & ? & ? & _).
  - split; [done|]. by intros (? & ? & ? & _).
Qed.

Lemma returns_bind {E} {resp : E -> Type} {S A B} (h : forall e : E, S -> resp e * S)
    (m : prog E resp A) (f : A -> prog E resp B) (s : S) (R : B -> S -> Prop) :
  returns h m s (fun a s1 => returns h (f a) s1 R) -> returns h (m ≫= f) s R.
Proof.
  unfold returns, ends. rewrite run_bind.
  by destruct (run h m s) as [[a|e|] s1].
Qed.

Lemma returns_ret {E} {resp : E -> Type} {S A} (h : forall e : E, S -> resp e * S)
    (a : A) (s : S) (R : A -> S -> Prop) :
  R a s -> returns h (mret a : prog E resp A) s R.
Proof. done. Qed.

Lemma returns_mono {E} {resp : E -> Type} {S A} (h : forall e : E, S -> resp e * S)
    (p : prog E resp A) (s : S) (R R' : A -> S -> Prop) :
  returns h p s R -> (forall a s', R a s' -> R' a s') -> returns h p s R'.
Proof.
  unfold returns, ends. intros Hp HR.
  destruct (run h p s) as [[a|e|] s1]; simpl in *; auto.
Qed.

Lemma returns_call {E} {resp : E -> Type} {S} (h : forall e : E, S -> resp e * S)
    (e : E) (s : S) (R : resp e -> S -> Prop) :
  R (h e s).1 (h e s).2 -> returns h (call e) s R.
Proof. unfold returns, ends. simpl. by destruct (h e s). Qed.

(** ** [find_integer], whatever [f] answers *)

Section FindIntegerAny.
Context {E : Type} {resp : E -> Type} {S : Type}.
Variable h : forall e : E, S -> resp e * S.
Variable f : Z -> prog E resp bool.
Variable B : Z.
(** [J n s]: in state [s], [n] is the last argument that [f] accepted (0 if
    there was none). *)
Variable J : Z -> S -> Prop.
Hypothesis f_spec : forall n k s, J n s -> 0 <= n < k ->
  returns h (f k) s (fun b s' => if b then k <= B /\ J k s' else J n s').

Lemma find_integer_probe_returns (fuel : nat) (lo hi : Z) (s : S) :
  J lo s -> 0 <= lo < hi -> lo <= B -> hi <= 2 * lo \/ hi = 5 ->
  (Z.to_nat (B + 1 - hi) + 1 <= fuel)%nat ->
  returns h (find_integer_probe fuel f lo hi) s
    (fun '(lo', hi') s' => J lo' s' /\ 0 <= lo' < hi' /\ lo' <= B
                           /\ (hi' <= 2 * lo' \/ hi' = 5)).
Proof.
  revert lo hi s. induction fuel as [|fuel IH]; intros lo hi s HJ Hlo HB Hhi Hfuel; [lia|].
  cbn [find_integer_probe]. apply returns_bind.
  eapply returns_mono; [apply (f_spec lo hi s HJ); lia|].
  intros [] s' Hb.
  - destruct Hb as [HhiB HJ']. apply IH; [done|lia|done|lia|lia].
  - by apply returns_ret.
Qed.

Lemma find_integer_bisect_returns (fuel : nat) (lo hi : Z) (s : S) :
  J lo s -> 0 <= lo < hi -> lo <= B ->
  (Z.to_nat (hi - lo) <= fuel)%nat ->
  returns h (find_integer_bisect fuel f lo hi) s
    (fun n s' => J n s' /\ lo <= n < hi /\ n <= B).
Proof.
  revert lo hi s. induction fuel as [|fuel IH]; intros lo hi s HJ Hlo HB Hfuel; [lia|].
  cbn [find_integer_bisect]. destruct (Z.ltb_spec (lo + 1) hi) as [Hlt|Hge].
  - assert (lo < (lo + hi) / 2 < hi) as Hmid.
    { pose proof (Z.div_mod (lo + hi) 2). pose proof (Z.mod_pos_bound (lo + hi) 2). lia. }
    apply returns_bind.
    eapply returns_mono; [apply (f_spec lo ((lo + hi) / 2) s HJ); lia|].
    intros [] s' Hb.
    + destruct Hb as [HmB HJ'].
      eapply returns_mono; [apply IH; [done|lia|done|lia]|].
      intros n s'' (? & ? & ?). split_and!; [done|lia|lia|done].
    + eapply returns_mono; [apply IH; [done|lia|done|lia]|].
      intros n s'' (? & ? & ?). split_and!; [done|lia|lia|done].
  - apply returns_ret. split_and!; [done|lia|lia|done].
Qed.

Lemma find_integer_returns (fuel : nat) (s : S) :
  J 0 s -> 0 <= B -> (Z.to_nat B + 1 <= fuel)%nat ->
  returns h (find_integer fuel f) s (fun n s' => J n s' /\ 0 <= n <= B).
Proof.
  intros HJ HB Hfuel. unfold find_integer. cbn [find_integer_scan].
  apply returns_bind. eapply returns_mono; [apply (f_spec 0 1 s HJ); lia|].
  intros [] s1 H1; simpl; [|apply returns_ret; split; [done|lia]].
  destruct H1 as [? HJ1].
  apply returns_bind. eapply returns_mono; [apply (f_spec 1 2 s1 HJ1); lia|].
  intros [] s2 H2; simpl; [|apply returns_ret; split; [done|lia]].
  destruct H2 as [? HJ2].
  apply returns_bind. eapply returns_mono; [apply (f_spec 2 3 s2 HJ2); lia|].
  intros [] s3 H3; simpl; [|apply returns_ret; split; [done|lia]].
  destruct H3 as [? HJ3].
  apply returns_bind. eapply returns_mono; [apply (f_spec 3 4 s3 HJ3); lia|].
  intros [] s4 H4; simpl; [|apply returns_ret; split; [done|lia]].
  destruct H4 as [? HJ4].
  apply returns_bind.
  eapply returns_mono; [apply (find_integer_probe_returns fuel 4 5 s4); [done|lia|lia|lia|lia]|].
  intros [lo hi] s5 (HJ5 & ? & ? & ?).
  eapply returns_mono; [apply (find_integer_bisect_returns fuel lo hi s5); [done|lia|lia|lia]|].
  intros n s6 (? & ? & ?). split; [done|lia].
Qed.
End FindIntegerAny.

(** ** [linear_reduce], whatever the predicate answers *)

Lemma slice_from_nonneg {A} (l : list A) (a : Z) :
  0 <= a -> slice_from l a = drop (Z.to_nat a) l.
Proof. intros Ha. unfold slice_from, slice_bound. by destruct (Z.ltb_spec a 0); [lia|]. Qed.

Lemma slice_to_nonneg {A} (l : list A) (a : Z) :
  0 <= a -> slice_to l a = take (Z.to_nat a) l.
Proof. intros Ha. unfold slice_to, slice_bound. by destruct (Z.ltb_spec a 0); [lia|]. Qed.

(** [sequence[:i] + sequence[i + k:]] *)
Lemma cut_sublist {A} (l : list A) (i n k : nat) :
  (n <= k)%nat -> take i l ++ drop (i + k) l `sublist_of` take i l ++ drop (i + n) l.
Proof.
  intros Hnk. apply sublist_app; [done|].
  replace (i + k)%nat with ((i + n) + (k - n))%nat by lia.
  rewrite <- drop_drop. apply sublist_drop.
Qed.

Lemma cut_length {A} (l : list A) (i k : nat) :
  (i + k <= length l)%nat -> length (take i l ++ drop (i + k) l) = (length l - k)%nat.
Proof. intros Hk. rewrite length_app, length_take, length_drop. lia. Qed.

Section LinearReduceAny.
Context {E : Type} {resp : E -> Type} {S A : Type}.
Variable h : forall e : E, S -> resp e * S.
Variable predicate : list A -> prog E resp bool.
(** [J r s]: in state [s], [r] is the sequence the sweep holds (the input,
    or the last candidate that was accepted). *)
Variable J : list A -> S -> Prop.
Hypothesis predicate_spec : forall r c s,
  J r s -> c `sublist_of` r -> (length c < length r)%nat ->
  returns h (predicate c) s (fun b s' => if b then J c s' else J r s').

Lemma linear_reduce_fallback_returns (sequence : list A) (i : Z) (offsets : list Z) (s : S) :
  J sequence s -> 0 <= i -> (forall o, o ∈ offsets -> 0 < o) ->
  returns h (linear_reduce_fallback predicate sequence (slice_to sequence i) i offsets) s
    (fun r s' => J r s' /\ r `sublist_of` sequence).
Proof.
  intros HJ Hi. revert s HJ. induction offsets as [|o offsets IH]; intros s HJ Ho.
  - by apply returns_ret.
  - cbn [linear_reduce_fallback].
    assert (0 < o) by (apply Ho; left).
    assert (forall o', o' ∈ offsets -> 0 < o') by (intros; apply Ho; by right).
    destruct (Z.leb_spec (i + o) (len sequence)) as [Hle|Hgt]; [|by apply IH].
    rewrite slice_to_nonneg, slice_from_nonneg by lia.
    unfold len in Hle.
    replace (Z.to_nat (i + o)) with (Z.to_nat i + Z.to_nat o)%nat by lia.
    assert (Hsub : take (Z.to_nat i) sequence ++ drop (Z.to_nat i + Z.to_nat o) sequence
                   `sublist_of` sequence).
    { rewrite <- (take_drop (Z.to_nat i) sequence) at 3.
      apply sublist_app; [done|]. rewrite <- drop_drop. apply sublist_drop. }
    apply returns_bind. eapply returns_mono.
    { apply (predicate_spec sequence _ s HJ Hsub). rewrite cut_length; lia. }
    intros [] s' Hb; [by apply returns_ret|].
    rewrite <- slice_to_nonneg by lia. by apply IH.
Qed.

Lemma linear_reduce_loop_returns (turns fuel : nat) (sequence : list A) (i : Z) (s : S) :
  J sequence s -> 0 <= i ->
  (Z.to_nat (2 * len sequence - i) + 1 <= turns)%nat ->
  (length sequence + 1 <= fuel)%nat ->
  returns h (linear_reduce_loop turns fuel predicate sequence i) s
    (fun r s' => J r s' /\ r `sublist_of` sequence).
Proof.
  revert sequence i s.
  induction turns as [|turns IH]; intros sequence i s HJ Hi Hturns Hfuel; [lia|].
  cbn [linear_reduce_loop].
  destruct (Z.ltb_spec i (len sequence)) as [Hlt|Hge]; [|by apply returns_ret].
  unfold len in Hlt, Hturns.
  set (cand := fun n : Z => slice_to sequence i ++ slice_from sequence (i + n)).
  assert (Hcand : forall n, 0 <= n ->
            cand n = take (Z.to_nat i) sequence ++ drop (Z.to_nat i + Z.to_nat n) sequence).
  { intros n Hn. unfold cand. rewrite slice_to_nonneg, slice_from_nonneg by lia.
    by replace (Z.to_nat (i + n)) with (Z.to_nat i + Z.to_nat n)%nat by lia. }
  assert (Hcand0 : cand 0 = sequence).
  { rewrite Hcand by lia. by rewrite Nat.add_0_r, take_drop. }
  apply returns_bind.
  eapply returns_mono.
  { apply (find_integer_returns h _ (len sequence - i) (fun n s' => J (cand n) s')).
    - intros n k s1 HJn Hnk.
      destruct (Z.leb_spec (i + k) (len sequence)) as [Hle|Hgt]; [|by apply returns_ret].
      unfold len in Hle. fold (cand k). eapply returns_mono.
      + apply (predicate_spec (cand n) (cand k) s1 HJn).
        * rewrite !Hcand by lia. apply cut_sublist. lia.
        * rewrite !Hcand by lia. rewrite !cut_length by lia. lia.
      + intros [] s2 Hb; [|done]. split; [unfold len; lia|done].
    - by rewrite Hcand0.
    - unfold len. lia.
    - unfold len. lia. }
  intros n s1 [HJn Hn]. unfold len in Hn.
  destruct (Z.ltb_spec n 0) as [|_]; [lia|].
  apply returns_bind.
  apply (returns_mono _ _ _ (fun r s' => J r s' /\ r `sublist_of` sequence)).
  { destruct (Z.ltb_spec 0 n) as [Hpos|Hzero].
    - apply returns_ret. split; [done|].
      assert (Hsub : cand n `sublist_of` cand 0).
      { rewrite !Hcand by lia. apply cut_sublist. lia. }
      by rewrite Hcand0 in Hsub.
    - apply linear_reduce_fallback_returns; [|done|].
      + assert (n = 0) as -> by lia. by rewrite Hcand0 in HJn.
      + intros o Ho. each_elem Ho ltac:(lia). }
  intros sequence1 s2 [HJ1 Hsub1].
  pose proof (sublist_length _ _ Hsub1) as Hlen1.
  apply returns_bind.
  apply (returns_mono _ _ _
           (fun '(r, stop) s' => J r s' /\ r `sublist_of` sequence1)).
  { destruct (Z.ltb_spec (i + 2) (len sequence1)) as [Hpair|_]; [|by apply returns_ret].
    unfold len in Hpair.
    assert (Hsub : delete (Z.to_nat i) (delete (Z.to_nat (i + 2)) sequence1)
                   `sublist_of` sequence1).
    { etrans; apply sublist_delete. }
    apply returns_bind. eapply returns_mono.
    { apply (predicate_spec sequence1 _ s2 HJ1 Hsub).
      rewrite !length_delete; [lia| |].
      - apply lookup_lt_is_Some. lia.
      - apply lookup_lt_is_Some. rewrite length_delete; [lia|].
        apply lookup_lt_is_Some. lia. }
    intros [] s3 Hb; by apply returns_ret. }
  intros [sequence2 stop] s3 [HJ2 Hsub2].
  pose proof (sublist_length _ _ Hsub2) as Hlen2.
  assert (sequence2 `sublist_of` sequence) by (by etrans).
  destruct stop; [by apply returns_ret|].
  destruct (Z.eqb_spec (len sequence) (len sequence2)) as [Heq|Hne]; unfold len in *.
  - eapply returns_mono; [apply IH; [done|lia|unfold len; lia|lia]|].
    intros r s4 [? ?]. split; [done|by etrans].
  - eapply returns_mono; [apply IH; [done|lia|unfold len; lia|lia]|].
    intros r s4 [? ?]. split; [done|by etrans].
Qed.

Lemma linear_reduce_returns (fuel : nat) (sequence : list A) (s : S) :
  J sequence s -> (2 * length sequence + 1 <= fuel)%nat ->
  returns h (linear_reduce fuel sequence predicate) s
    (fun r s' => J r s' /\ r `sublist_of` sequence).
Proof.
  intros HJ Hfuel. apply linear_reduce_loop_returns; [done|lia|unfold len; lia|lia].
Qed.
End LinearReduceAny.

(** X1. [linear_reduce] always ends, whatever the predicate answers and
    whatever state it keeps: with fuel for [2 * len(sequence) + 1] turns it
    returns (its [assert] never fails and it raises nothing of its own), and
    what it returns is a subsequence of its input. *)
Theorem linear_reduce_terminates {A S : Type} (h : list A -> S -> bool * S)
    (sequence : list A) (s : S) (fuel : nat) :
  (2 * length sequence + 1 <= fuel)%nat ->
  exists r s',
    run h (linear_reduce fuel sequence submit) s = (Returned r, s')
    /\ r `sublist_of` sequence.
Proof.
  intros Hfuel. apply returns_run.
  eapply returns_mono.
  - apply (linear_reduce_returns h submit (fun _ _ => True)); [|done|done].
    intros r c s1 _ _ _. unfold returns, ends. simpl. by destruct (h c s1) as [[] ?].
  - by intros r s' [_ ?].
Qed.

Lemma linear_reduce_terminates_witness :
  exists r s',
    run (candidate_handler (fun l => bool_decide (3 ∈ l)))
      (linear_reduce 11 [1; 2; 3; 4; 5] submit) [] = (Returned r, s')
    /\ r `sublist_of` [1; 2; 3; 4; 5].
Proof.
  apply (linear_reduce_terminates (candidate_handler (fun l => bool_decide (3 ∈ l)))
           [1; 2; 3; 4; 5] [] 11).
  simpl. lia.
Defined.

(** X2. For a predicate that is a function of the candidate,
    [linear_reduce] submits only candidates obtained from its input by
    deleting at least one element, and returns either the input itself or a
    candidate that it submitted and that was accepted; so when the input
    satisfies the predicate, the result does. *)
Theorem linear_reduce_returns_accepted {A : Type} (p : list A -> bool)
    (sequence : list A) (fuel : nat) :
  (2 * length sequence + 1 <= fuel)%nat ->
  exists r log,
    linear_reduce_logged fuel p sequence = (Returned r, log)
    /\ (r = sequence \/ (r ∈ log /\ p r = true))
    /\ (p sequence = true -> p r = true)
    /\ (forall c, c ∈ log ->
          c `sublist_of` sequence /\ (length c < length sequence)%nat).
Proof.
  intros Hfuel. unfold linear_reduce_logged. apply returns_run.
  eapply returns_mono.
  - apply (linear_reduce_returns (candidate_handler p) submit
             (fun r log =>
                (r = sequence \/ (r ∈ log /\ p r = true))
                /\ r `sublist_of` sequence
                /\ forall c, c ∈ log ->
                     c `sublist_of` sequence /\ (length c < length sequence)%nat)).
    + intros r c log (Hr & Hsub & Hlog) Hc Hlen. unfold returns, ends. simpl.
      assert (Hc' : c `sublist_of` sequence) by (by etrans).
      assert (Hlen' : (length c < length sequence)%nat).
      { pose proof (sublist_length _ _ Hsub). lia. }
      assert (Hlog' : forall c', c' ∈ log ++ [c] ->
                c' `sublist_of` sequence /\ (length c' < length sequence)%nat).
      { intros c' [?|Hc'']%elem_of_app; [by apply Hlog|].
        by apply list_elem_of_singleton in Hc'' as ->. }
      destruct (p c) eqn:Hp.
      * split_and!; [|done|done]. right. split; [|done].
        apply elem_of_app. right. by apply list_elem_of_singleton.
      * split_and!; [|done|done].
        destruct Hr as [->|[? ?]]; [by left|]. right. split; [|done].
        apply elem_of_app. by left.
    + split_and!; [by left|done|]. by intros c ?%elem_of_nil.
    + done.
  - intros r log [(Hr & Hsub & Hlog) _]. split_and!; [done| |done].
    intros Hp. by destruct Hr as [->|[_ ?]].
Qed.

Lemma linear_reduce_returns_accepted_witness :
  exists r log,
    linear_reduce_logged 11 (fun l => bool_decide (3 ∈ l)) [1; 2; 3; 4; 5] = (Returned r, log)
    /\ (r = [1; 2; 3; 4; 5] \/ (r ∈ log /\ bool_decide (3 ∈ r) = true))
    /\ (bool_decide (3 ∈ [1; 2; 3; 4; 5]) = true -> bool_decide (3 ∈ r) = true)
    /\ (forall c, c ∈ log ->
          c `sublist_of` [1; 2; 3; 4; 5] /\ (length c < length [1; 2; 3; 4; 5])%nat).
Proof.
  apply (linear_reduce_returns_accepted (fun l => bool_decide (3 ∈ l)) [1; 2; 3; 4; 5] 11).
  simpl. lia.
Defined.

(** ** The order of [sort_key] *)

Lemma byte_val_bound (c : byte) : 0 <= byte_val c < 256.
Proof. unfold byte_val. pose proof (Byte.to_N_bounded c). lia. Qed.

Lemma from_bytes_big_cons (x : byte) (a : bytes) :
  from_bytes_big (x :: a) = byte_val x * 256 ^ len a + from_bytes_big a.
Proof.
  unfold from_bytes_big, len. simpl. generalize (byte_val x). clear x.
  induction a as [|y a IH] using rev_ind; intros v; simpl; [lia|].
  rewrite !fold_left_app. simpl. rewrite IH, length_app. simpl.
  rewrite Nat2Z.inj_add, Z.pow_add_r by lia. change (256 ^ Z.of_nat 1) with 256.
  fold (from_bytes_big a). lia.
Qed.

Lemma bytes_lt_from_bytes_big (a b : bytes) :
  length a = length b -> bytes_lt a b = true -> from_bytes_big a < from_bytes_big b.
Proof.
  revert b. induction a as [|x a IH]; intros [|y b] Hlen; simpl in *; try done.
  rewrite !from_bytes_big_cons. unfold len.
  assert (length a = length b) as Hl by lia. rewrite Hl.
  pose proof (from_bytes_big_bound a) as Ha. pose proof (from_bytes_big_bound b) as Hb.
  unfold len in Ha, Hb. rewrite Hl in Ha.
  destruct (Z.ltb_spec (byte_val x) (byte_val y)) as [Hxy|Hxy].
  - intros _. nia.
  - destruct (Z.ltb_spec (byte_val y) (byte_val x)); [done|].
    intros Hlt%IH; [|done]. assert (byte_val x = byte_val y) as -> by lia. lia.
Qed.

Lemma sort_key_lt_rank (a b : bytes) :
  sort_key_lt a b = true -> 0 <= sort_rank a < sort_rank b.
Proof.
  unfold sort_key_lt, sort_rank.
  pose proof (from_bytes_big_bound a) as Ha. pose proof (from_bytes_big_bound b) as Hb.
  assert (0 < 256 ^ len a) by (apply Z.pow_pos_nonneg; unfold len; lia).
  destruct (Z.eqb_spec (len a) (len b)) as [Heq|Hne].
  - intros Hlt%bytes_lt_from_bytes_big; [|unfold len in Heq; lia].
    rewrite Heq in *. lia.
  - intros Hlt%Z.ltb_lt.
    assert (256 ^ (len a + 1) <= 256 ^ len b) by (apply Z.pow_le_mono_r; lia).
    rewrite Z.pow_add_r in * by (unfold len; lia). lia.
Qed.

(** X3. The order of [sort_key] (length first, then the bytes) is a strict
    total order on byte strings: no byte string is below itself, the order
    is transitive, two different byte strings are always comparable, a
    shorter byte string is below a longer one, the empty byte string is
    below every other and nothing is below it (so the [current] that a
    shrink replaces is never empty, and the percentage in the shrink message
    never divides by zero). *)
Theorem sort_key_strict_total_order :
  (forall a, sort_key_lt a a = false)
  /\ (forall a b c, sort_key_lt a b = true -> sort_key_lt b c = true ->
        sort_key_lt a c = true)
  /\ (forall a b, sort_key_lt a b = true \/ a = b \/ sort_key_lt b a = true)
  /\ (forall a b, (length a < length b)%nat -> sort_key_lt a b = true)
  /\ (forall a, a <> [] -> sort_key_lt [] a = true)
  /\ (forall a, sort_key_lt a [] = false).
Proof.
  split_and!; [| | | | |apply sort_key_lt_nil].
  - apply sort_key_lt_irrefl.
  - apply sort_key_lt_trans.
  - intros a b. unfold sort_key_lt.
    destruct (Z.eqb_spec (len a) (len b)) as [Heq|Hne].
    + rewrite (proj2 (Z.eqb_eq (len b) (len a))) by lia.
      apply bytes_lt_total. unfold len in Heq. lia.
    + rewrite (proj2 (Z.eqb_neq (len b) (len a))) by lia.
      destruct (Z.ltb_spec (len a) (len b)); [by left|].
      right; right. apply Z.ltb_lt. lia.
  - apply sort_key_lt_shorter.
  - intros [|x a] Ha; [done|]. apply sort_key_lt_shorter. simpl. lia.
Qed.

(** X4. The order of [sort_key] is well-founded: there is no infinite
    sequence of byte strings each below the one before, so [current] can be
    replaced only finitely often. *)
Theorem sort_key_well_founded :
  well_founded (fun a b : bytes => sort_key_lt a b = true).
Proof.
  apply (well_founded_lt_compat _ (fun a => Z.to_nat (sort_rank a))).
  intros a b Hlt%sort_key_lt_rank. lia.
Qed.

(** ** The engine and a deterministic external predicate *)

Section Faithful.
Variable sha1 : bytes -> bytes.
Variable World : Type.
Variable ext : bytes -> World -> bool * World.
Variable g : bytes -> bool.
Hypothesis ext_g : forall v w, (ext v w).1 = g v.

Lemma faithful_init initial w0 st0 :
  init sha1 World ext initial w0 = Returned st0 -> faithful sha1 g st0.
Proof.
  unfold init. pose proof (ext_g initial w0) as Hg.
  destruct (ext initial w0) as [[] w']; simpl in *; [|done].
  intros [= <-]. split_and!; simpl.
  - intros w ->%list_elem_of_singleton. by rewrite lookup_insert_eq, <- Hg.
  - by apply list_elem_of_singleton.
  - done.
Qed.

Lemma faithful_step c st :
  faithful sha1 g st -> faithful sha1 g (engine sha1 World ext c st).2.
Proof.
  intros (Hin & Hcur & Hacc). destruct c as [value|]; simpl; [|done].
  destruct (cache st !! cache_key sha1 value) as [r0|] eqn:Hc.
  { by rewrite (predicate_hit _ _ _ _ _ _ Hc). }
  rewrite (predicate_miss _ _ _ _ _ Hc).
  pose proof (ext_g value (world st)) as Hg.
  destruct (ext value (world st)) as [result w'] eqn:He. simpl in *.
  split_and!; simpl.
  - intros w [Hw|Hw]%elem_of_app.
    + rewrite lookup_insert_ne; [by apply Hin|].
      intros Heq. specialize (Hin _ Hw). congruence.
    + apply list_elem_of_singleton in Hw as ->. by rewrite lookup_insert_eq, Hg.
  - apply elem_of_app.
    destruct (result && sort_key_lt value (current st)); [|by left].
    right. by apply list_elem_of_singleton.
  - destruct result; simpl; [|done].
    by destruct (sort_key_lt value (current st)).
Qed.

Lemma run_faithful {A} (p : pass A) st out st' :
  faithful sha1 g st -> run (engine sha1 World ext) p st = (out, st') -> faithful sha1 g st'.
Proof. apply (run_invariant (engine sha1 World ext) (faithful sha1 g)), faithful_step. Qed.
End Faithful.

(** X5. Predicate preservation.  With an external predicate whose verdict
    depends on the value alone, at every point of a run that starts with the
    construction of the engine, [current] is a value on which the external
    predicate was run and which it accepts, and [self.predicate(current)]
    answers true from the cache, leaving the engine as it is. *)
Theorem current_is_accepted (sha1 : bytes -> bytes) (World : Type)
    (ext : bytes -> World -> bool * World) (g : bytes -> bool)
    (initial : bytes) (w0 : World) (st0 : reducer World) {A} (p : pass A)
    (out : outcome A) (st : reducer World) :
  (forall v w, (ext v w).1 = g v) ->
  init sha1 World ext initial w0 = Returned st0 ->
  run (engine sha1 World ext) p st0 = (out, st) ->
  g (current st) = true
  /\ current st ∈ invoked st
  /\ predicate sha1 World ext (current st) st = (true, st).
Proof.
  intros Hg Hinit Hrun.
  pose proof (run_faithful sha1 World ext g Hg p st0 out st
                (faithful_init sha1 World ext g Hg _ _ _ Hinit) Hrun)
    as (Hin & Hcur & Hacc).
  split_and!; [done|done|].
  apply predicate_hit. by rewrite (Hin _ Hcur), Hacc.
Qed.

Lemma current_is_accepted_witness :
  is_nonempty (current demo_end) = true
  /\ current demo_end ∈ invoked demo_end
  /\ predicate rolling_digest unit nonempty_ext (current demo_end) demo_end
     = (true, demo_end).
Proof.
  apply (current_is_accepted rolling_digest unit nonempty_ext
           is_nonempty (b_lit "ab") tt
           (fresh rolling_digest (b_lit "ab")) demo_client
           (run (engine rolling_digest unit nonempty_ext) demo_client
              (fresh rolling_digest (b_lit "ab"))).1).
  - reflexivity.
  - reflexivity.
  - unfold demo_end.
    destruct (run (engine rolling_digest unit nonempty_ext) demo_client
                (fresh rolling_digest (b_lit "ab"))).
    reflexivity.
Defined.

(** X6. The cache is transparent where fingerprints do not collide.  With
    an external predicate whose verdict depends on the value alone, every
    value on which it was run is cached with that verdict, and
    [self.predicate(v)] answers what the external predicate answers on [v]
    unless a different value with the fingerprint of [v] was run before. *)
Theorem cached_predicate_agrees (sha1 : bytes -> bytes) (World : Type)
    (ext : bytes -> World -> bool * World) (g : bytes -> bool)
    (initial : bytes) (w0 : World) (st0 : reducer World) {A} (p : pass A)
    (out : outcome A) (st : reducer World) :
  (forall v w, (ext v w).1 = g v) ->
  init sha1 World ext initial w0 = Returned st0 ->
  run (engine sha1 World ext) p st0 = (out, st) ->
  (forall w, w ∈ invoked st -> cache st !! cache_key sha1 w = Some (g w))
  /\ (forall v,
        (forall w, w ∈ invoked st -> cache_key sha1 w = cache_key sha1 v -> w = v) ->
        (predicate sha1 World ext v st).1 = g v).
Proof.
  intros Hg Hinit Hrun.
  pose proof (run_faithful sha1 World ext g Hg p st0 out st
                (faithful_init sha1 World ext g Hg _ _ _ Hinit) Hrun)
    as (Hin & _ & _).
  pose proof (run_coherent sha1 World ext p st0 out st
                (coherent_init sha1 World ext _ _ _ Hinit) Hrun) as (Hdom & _ & _).
  split; [done|]. intros v Hv.
  destruct (cache st !! cache_key sha1 v) as [r|] eqn:Hc.
  - rewrite (predicate_hit _ _ _ _ _ _ Hc). simpl.
    destruct (proj1 (Hdom (cache_key sha1 v))) as (w & Hw & Hkey); [by eauto|].
    rewrite <- (Hv w Hw Hkey), (Hin w Hw) in *. congruence.
  - rewrite (predicate_miss _ _ _ _ _ Hc).
    pose proof (Hg v (world st)) as Hgv.
    by destruct (ext v (world st)) as [result w'].
Qed.

Lemma cached_predicate_agrees_witness :
  (forall w, w ∈ invoked demo_end ->
     cache demo_end !! cache_key rolling_digest w = Some (is_nonempty w))
  /\ (forall v,
        (forall w, w ∈ invoked demo_end ->
           cache_key rolling_digest w = cache_key rolling_digest v -> w = v) ->
        (predicate rolling_digest unit nonempty_ext v demo_end).1 = is_nonempty v).
Proof.
  apply (cached_predicate_agrees rolling_digest unit nonempty_ext
           is_nonempty (b_lit "ab") tt
           (fresh rolling_digest (b_lit "ab")) demo_client
           (run (engine rolling_digest unit nonempty_ext) demo_client
              (fresh rolling_digest (b_lit "ab"))).1).
  - reflexivity.
  - reflexivity.
  - unfold demo_end.
    destruct (run (engine rolling_digest unit nonempty_ext) demo_client
                (fresh rolling_digest (b_lit "ab"))).
    reflexivity.
Defined.

(** X7. Every run of the external predicate adds one entry to the cache
    and nothing else does: at every point of a run that starts with the
    construction of the engine, the cache has as many entries as the
    external predicate had invocations, and its keys are the fingerprints of
    the values on which it was run. *)
Theorem cache_counts_invocations (sha1 : bytes -> bytes) (World : Type)
    (ext : bytes -> World -> bool * World) (initial : bytes) (w0 : World)
    (st0 : reducer World) {A} (p : pass A) (out : outcome A) (st : reducer World) :
  init sha1 World ext initial w0 = Returned st0 ->
  run (engine sha1 World ext) p st0 = (out, st) ->
  size (cache st) = length (invoked st)
  /\ (forall k, is_Some (cache st !! k) <->
                exists w, w ∈ invoked st /\ cache_key sha1 w = k).
Proof.
  intros Hinit Hrun.
  pose proof (run_coherent sha1 World ext p st0 out st
                (coherent_init sha1 World ext _ _ _ Hinit) Hrun) as (Hdom & Hnd & _).
  split; [|done].
  assert (Hkeys : dom (cache st) =@{gset Z} list_to_set (cache_key sha1 <$> invoked st)).
  { apply set_eq. intros k.
    rewrite elem_of_dom, elem_of_list_to_set, list_elem_of_fmap, Hdom.
    split; intros (w & ? & ?); eauto. }
  by rewrite <- size_dom, Hkeys, size_list_to_set, length_fmap.
Qed.

Lemma cache_counts_invocations_witness :
  size (cache demo_end) = length (invoked demo_end)
  /\ (forall k, is_Some (cache demo_end !! k) <->
                exists w, w ∈ invoked demo_end /\ cache_key rolling_digest w = k).
Proof.
  apply (cache_counts_invocations rolling_digest unit nonempty_ext (b_lit "ab") tt
           (fresh rolling_digest (b_lit "ab")) demo_client
           (run (engine rolling_digest unit nonempty_ext) demo_client
              (fresh rolling_digest (b_lit "ab"))).1).
  - reflexivity.
  - unfold demo_end.
    destruct (run (engine rolling_digest unit nonempty_ext) demo_client
                (fresh rolling_digest (b_lit "ab"))).
    reflexivity.
Defined.

(** X8. [current] is replaced a bounded number of times: over any run, the
    number of replacements (the increase of the identity counter) is at most
    the decrease of [sort_rank(current)]. *)
Theorem replacements_bounded (sha1 : bytes -> bytes) (World : Type)
    (ext : bytes -> World -> bool * World) {A} (p : pass A)
    (st : reducer World) (out : outcome A) (st' : reducer World) :
  run (engine sha1 World ext) p st = (out, st') ->
  (current_id st <= current_id st')%nat
  /\ Z.of_nat (current_id st' - current_id st)
     <= sort_rank (current st) - sort_rank (current st').
Proof.
  intros Hrun.
  pose proof (run_later sha1 World ext p st out st' Hrun) as (_ & _ & Hid & _).
  split; [done|].
  cut (Z.of_nat (current_id st') + sort_rank (current st')
       <= Z.of_nat (current_id st) + sort_rank (current st)); [lia|].
  revert Hrun.
  apply (run_invariant (engine sha1 World ext)
           (fun s => Z.of_nat (current_id s) + sort_rank (current s)
                     <= Z.of_nat (current_id st) + sort_rank (current st))); [|lia].
  intros c s Hs. destruct c as [v|]; simpl; [|done].
  destruct (predicate sha1 World ext v s) as [r s1] eqn:Hp. simpl.
  destruct (predicate_current _ _ _ _ _ _ _ Hp) as [[-> ->]|(-> & -> & Hlt & _)]; [done|].
  apply sort_key_lt_rank in Hlt. lia.
Qed.

Lemma replacements_bounded_witness :
  (current_id (fresh rolling_digest (b_lit "ab")) <= current_id demo_end)%nat
  /\ Z.of_nat (current_id demo_end - current_id (fresh rolling_digest (b_lit "ab")))
     <= sort_rank (current (fresh rolling_digest (b_lit "ab")))
        - sort_rank (current demo_end).
Proof.
  apply (replacements_bounded rolling_digest unit nonempty_ext demo_client
           (fresh rolling_digest (b_lit "ab"))
           (run (engine rolling_digest unit nonempty_ext) demo_client
              (fresh rolling_digest (b_lit "ab"))).1).
  unfold demo_end.
  destruct (run (engine rolling_digest unit nonempty_ext) demo_client
              (fresh rolling_digest (b_lit "ab"))).
  reflexivity.
Defined.

(** ** Nesting of the bracket pairs *)

Lemma nest_inv_step (lbr rbr : byte) s c :
  nest_inv s -> nest_inv (paired_step lbr rbr s c).
Proof.
  destruct s as [[i stack] results]. unfold nest_inv. simpl.
  intros (Hdec & Hstack & Hres & Hout & Hcross & Hclose).
  assert (Hkeep : decreasing stack
    /\ (forall x, x ∈ stack -> (x < S i)%nat)
    /\ (forall a b, (a, b) ∈ results -> (a < b < S i)%nat)
    /\ (forall a b x, (a, b) ∈ results -> x ∈ stack -> (b < x \/ x < a)%nat)
    /\ no_crossing results /\ by_close results).
  { split_and!; try done.
    - intros x Hx. specialize (Hstack x Hx). lia.
    - intros a b Hab. specialize (Hres a b Hab). lia. }
  case_bool_decide as Hl; simpl.
  { split_and!; try done.
    - intros x [->|Hx]%elem_of_cons; [lia|]. specialize (Hstack x Hx). lia.
    - intros a b Hab. specialize (Hres a b Hab). lia.
    - intros a b x Hab [->|Hx]%elem_of_cons; [|by eauto].
      specialize (Hres a b Hab). lia. }
  case_bool_decide as Hr; simpl; [|done].
  destruct stack as [|top stack]; simpl; [done|].
  destruct Hdec as [Htop Hdec].
  assert (Htopi : (top < i)%nat) by (apply Hstack; left).
  split_and!.
  - done.
  - intros x Hx. assert (x < i)%nat by (apply Hstack; by right). lia.
  - intros a b [Hab|Hab]%elem_of_app.
    + specialize (Hres a b Hab). lia.
    + apply list_elem_of_singleton in Hab as [= -> ->]. lia.
  - intros a b x [Hab|Hab]%elem_of_app Hx.
    + apply (Hout a b x Hab). by right.
    + apply list_elem_of_singleton in Hab as [= -> ->]. right. by apply Htop.
  - intros a b a' b' [Hab|Hab]%elem_of_app [Hab'|Hab']%elem_of_app Hin.
    + by apply (Hcross a b a' b').
    + apply list_elem_of_singleton in Hab' as [= -> ->].
      specialize (Hres a b Hab).
      destruct (Hout a b top Hab) as [?|?]; [by left|lia|lia].
    + apply list_elem_of_singleton in Hab as [= -> ->].
      specialize (Hres a' b' Hab'). lia.
    + apply list_elem_of_singleton in Hab as [= -> ->].
      apply list_elem_of_singleton in Hab' as [= -> ->]. lia.
  - intros j1 j2 p1 p2 H1 H2 Hj.
    apply lookup_app_Some in H1 as [H1|[Hlen1 H1]];
      apply lookup_app_Some in H2 as [H2|[Hlen2 H2]].
    + by apply (Hclose j1 j2).
    + apply list_lookup_singleton_Some in H2 as [_ <-]. simpl.
      destruct p1 as [a b]. apply list_elem_of_lookup_2 in H1.
      specialize (Hres a b H1). simpl. lia.
    + apply lookup_lt_Some in H2. lia.
    + apply list_lookup_singleton_Some in H1 as [? _].
      apply list_lookup_singleton_Some in H2 as [? _]. lia.
Qed.

Lemma nest_inv_scan (lbr rbr : byte) (target : bytes) :
  nest_inv (paired_scan lbr rbr target).
Proof.
  unfold paired_scan.
  assert (Hstart : nest_inv (O, [], [])).
  { unfold nest_inv, no_crossing, by_close. simpl.
    split_and!; try done.
    - by intros x ?%elem_of_nil.
    - by intros a b ?%elem_of_nil.
    - by intros a b x ?%elem_of_nil.
    - by intros a b a' b' ?%elem_of_nil. }
  revert Hstart. generalize (O, @nil nat, @nil (nat * nat)).
  induction target as [|c target IH]; intros s Hs; simpl; [done|].
  by apply IH, nest_inv_step.
Qed.

(** X9. The pairs that [find_paired_brackets] emits are properly nested
    and come in the order of their closing brackets: a pair that opens
    inside another pair closes inside it, and of two pairs the one emitted
    first closes first (so the inner pairs of a group come before the pair
    that encloses them). *)
Theorem find_paired_brackets_nested (bracket : byte * byte) (target : bytes) :
  no_crossing (find_paired_brackets bracket target)
  /\ by_close (find_paired_brackets bracket target)
  /\ (forall a b a' b',
        (a, b) ∈ find_paired_brackets bracket target ->
        (a', b') ∈ find_paired_brackets bracket target ->
        (b' < a \/ b < a' \/ (a < a' /\ b' < b) \/ (a' < a /\ b < b')
         \/ (a = a' /\ b = b'))%nat).
Proof.
  destruct bracket as [lbr rbr]. unfold find_paired_brackets.
  pose proof (nest_inv_scan lbr rbr target) as (_ & _ & Hres & _ & Hcross & Hclose).
  pose proof (paired_scan_inv lbr rbr target) as (_ & _ & Hsound & Hnd).
  split_and!; [done|done|].
  intros a b a' b' Hab Hab'.
  pose proof (Hres a b Hab). pose proof (Hres a' b' Hab').
  assert (a' <> b /\ a <> b') as [? ?].
  { destruct (Hsound a b Hab) as (_ & Ha & Hb & Hlr).
    destruct (Hsound a' b' Hab') as (_ & Ha' & Hb' & _).
    split; intros ->; congruence. }
  destruct (decide (a = a')) as [<-|Hne].
  - destruct (decide (b = b')) as [<-|Hneb]; [by repeat right|].
    exfalso. apply NoDup_app in Hnd as (_ & _ & Hnd).
    apply list_elem_of_split in Hab as (l1 & l2 & Heq).
    rewrite Heq in Hab', Hnd.
    unfold endpoints in Hnd. rewrite bind_app, bind_cons in Hnd. simpl in Hnd.
    apply NoDup_app in Hnd as (_ & Hl1 & Hnd).
    apply NoDup_cons in Hnd as [Ha _].
    apply elem_of_app in Hab' as [Hab'|Hab'].
    + apply (Hl1 a).
      * apply list_elem_of_bind. exists (a, b'). split; [by left|done].
      * by left.
    + apply elem_of_cons in Hab' as [[= ?]|Hab']; [done|].
      apply Ha. right. apply list_elem_of_bind. exists (a, b'). split; [by left|done].
  - destruct (decide (a < a')%nat).
    + destruct (decide (a' < b)%nat); [|right; left; lia].
      right; right; left. split; [done|]. by apply (Hcross a b a' b').
    + destruct (decide (a < b')%nat); [|left; lia].
      right; right; right; left. split; [lia|]. apply (Hcross a' b' a b); [done|done|lia].
Qed.

(** ** [find_integer] without monotonicity *)

Lemma find_integer_logged_any (g : Z -> bool) (m : Z) (fuel : nat) :
  (forall k, m < k -> g k = false) ->
  (Z.to_nat m + 2 <= fuel)%nat ->
  exists n calls,
    find_integer_logged fuel g = (Returned n, calls)
    /\ 0 <= n
    /\ (n = 0 \/ g n = true) /\ g (n + 1) = false
    /\ NoDup calls /\ (forall k, k ∈ calls -> 1 <= k).
Proof.
  intros Hfalse Hfuel.
  assert (Hbound : forall n, g n = true -> n <= m).
  { intros n Hgn. destruct (decide (n <= m)) as [|Hgt]; [done|].
    rewrite Hfalse in Hgn by lia. done. }
  assert (Hsmall : forall calls n, NoDup calls ->
            (forall x, x ∈ calls -> 1 <= x <= n + 1) ->
            NoDup calls /\ (forall k, k ∈ calls -> 1 <= k)).
  { intros calls n Hnd Hin. split; [done|]. intros x Hx. apply Hin in Hx. lia. }
  unfold find_integer_logged, find_integer. simpl.
  destruct (g 1) eqn:H1; simpl.
  2:{ exists 0, [1]. split_and!; [done|lia|by left|done|..]; apply (Hsmall _ 0);
        try compute_done; intros x ->%list_elem_of_singleton; lia. }
  destruct (g 2) eqn:H2; simpl.
  2:{ exists 1, [1; 2]. split_and!; [done|lia|by right|done|..]; apply (Hsmall _ 1);
        try compute_done; intros x Hx; each_elem Hx lia. }
  destruct (g 3) eqn:H3; simpl.
  2:{ exists 2, [1; 2; 3]. split_and!; [done|lia|by right|done|..]; apply (Hsmall _ 2);
        try compute_done; intros x Hx; each_elem Hx lia. }
  destruct (g 4) eqn:H4; simpl.
  2:{ exists 3, [1; 2; 3; 4]. split_and!; [done|lia|by right|done|..]; apply (Hsmall _ 3);
        try compute_done; intros x Hx; each_elem Hx lia. }
  assert (4 <= m) by (by apply Hbound).
  destruct (find_integer_probe_spec g m fuel 4 5 [1; 2; 3; 4])
    as (lo & hi & log & Hrun & Hglo & Hghi & Hlh & Hdbl & Hout);
    try done; try lia.
  { intros b Hb. apply Hfalse. lia. }
  { split; [compute_done|].
    intros x Hx. each_elem Hx lia. }
  { intros x Hx. each_elem Hx lia. }
  change (pbind ?a ?b) with (a ≫= b). rewrite run_bind, Hrun.
  assert (lo <= m) by (by apply Hbound).
  destruct (find_integer_bisect_spec g fuel lo hi log)
    as (n & calls & Hrun' & Hgn & Hgn1 & Hn & [Hnd Hin]); try done; try lia.
  exists n, calls. split_and!; [done|lia|by right|done|done|].
  intros k Hk. by apply Hin in Hk as [? _].
Qed.

(** X10. Whatever [f] is (it need not be monotone, and [f(0)] need not
    hold), if [f] is false from some point on then [find_integer] returns an
    [n >= 0] with [f(n + 1)] false and, unless [n] is 0, [f(n)] true, as
    its docstring says; it never asks about 0 nor twice about the same
    argument. *)
Theorem find_integer_local_boundary (g : Z -> bool) (m : Z) (fuel : nat) :
  (forall k, m < k -> g k = false) ->
  (Z.to_nat m + 2 <= fuel)%nat ->
  exists n calls,
    find_integer_logged fuel g = (Returned n, calls)
    /\ 0 <= n
    /\ (n = 0 \/ g n = true) /\ g (n + 1) = false
    /\ NoDup calls /\ (forall k, k ∈ calls -> 1 <= k).
Proof. apply find_integer_logged_any. Qed.

Lemma find_integer_local_boundary_witness :
  exists n calls,
    find_integer_logged 12 (fun k => bool_decide (k <> 7) && (k <=? 10)) = (Returned n, calls)
    /\ 0 <= n
    /\ (n = 0 \/ bool_decide (n <> 7) && (n <=? 10) = true)
    /\ bool_decide (n + 1 <> 7) && (n + 1 <=? 10) = false
    /\ NoDup calls /\ (forall k, k ∈ calls -> 1 <= k).
Proof.
  apply (find_integer_local_boundary (fun k => bool_decide (k <> 7) && (k <=? 10)) 10 12).
  - intros k Hk. rewrite (proj2 (Z.leb_gt k 10)) by lia. apply andb_false_r.
  - simpl. lia.
Defined.

(** ** Programs with a local variable *)

Lemma run_run_local {R E} {resp : E -> Type} {S A} (h : forall e : E, S -> resp e * S)
    (p : prog (local_call R E) (local_resp resp) A) (r : R) (s : S) :
  run h (run_local p r) s =
  let '(o, rs) := run (with_local h) p (r, s) in
  (match o with
   | Returned a => Returned (a, rs.1)
   | Raised e => Raised e
   | Timeout => Timeout
   end, rs.2).
Proof.
  revert r s. induction p as [a|e| |c k IH]; intros r s; simpl; try done.
  destruct c as [|r'|e]; simpl.
  - apply IH.
  - apply IH.
  - destruct (h e s) as [x s']. apply IH.
Qed.

Lemma returns_run_local {R E} {resp : E -> Type} {S A} (h : forall e : E, S -> resp e * S)
    (p : prog (local_call R E) (local_resp resp) A) (r : R) (s : S)
    (Q : A * R -> S -> Prop) :
  returns (with_local h) p (r, s) (fun a rs => Q (a, rs.1) rs.2) ->
  returns h (run_local p r) s Q.
Proof.
  unfold returns, ends. rewrite run_run_local.
  by destruct (run (with_local h) p (r, s)) as [[a|e|] [r' s']].
Qed.

(** ** Deleting many sets of indices *)

Lemma select_from_sublist (keep : nat -> bool) (i : nat) (target : bytes) :
  select_from keep i target `sublist_of` target.
Proof.
  revert i. induction target as [|c target IH]; intros i; simpl; [done|].
  destruct (keep i); [by apply sublist_skip|by apply sublist_cons].
Qed.

Lemma length_insert_by {A} (before : A -> A -> bool) (x : A) (l : list A) :
  length (insert_by before x l) = S (length l).
Proof. induction l as [|y l IH]; simpl; [done|]. destruct (before x y); simpl; lia. Qed.

Lemma length_sort_by {A} (before : A -> A -> bool) (l : list A) :
  length (sort_by before l) = length l.
Proof.
  unfold sort_by.
  assert (H : forall acc : list A,
            length (fold_left (fun acc x => insert_by before x acc) l acc)
            = (length acc + length l)%nat); [|by rewrite H].
  induction l as [|x l IH]; intros acc; simpl; [lia|].
  rewrite IH, length_insert_by. lia.
Qed.

Lemma elem_of_insert_by {A} (before : A -> A -> bool) (x y : A) (l : list A) :
  y ∈ insert_by before x l <-> y = x \/ y ∈ l.
Proof.
  induction l as [|z l IH]; simpl.
  - rewrite list_elem_of_singleton, elem_of_nil. tauto.
  - destruct (before x z); rewrite !elem_of_cons, ?IH; tauto.
Qed.

Lemma elem_of_sort_by {A} (before : A -> A -> bool) (y : A) (l : list A) :
  y ∈ sort_by before l <-> y ∈ l.
Proof.
  unfold sort_by. transitivity (y ∈ @nil A \/ y ∈ l); [|rewrite elem_of_nil; tauto].
  generalize (@nil A). induction l as [|x l IH]; intros acc; simpl.
  - rewrite elem_of_nil. tauto.
  - rewrite IH, elem_of_insert_by, elem_of_cons. tauto.
Qed.

Section DeleteMany.
Variable sha1 : bytes -> bytes.
Variable World : Type.
Variable ext : bytes -> World -> bool * World.

Abbreviation eng := (engine sha1 World ext).
Abbreviation leng := (with_local (engine sha1 World ext)).
Abbreviation exec := (run (engine sha1 World ext)).

Lemma returns_self_current {A} (f : bytes -> pass A) st (R : A -> reducer World -> Prop) :
  returns eng (f (current st)) st R -> returns eng (self_current ≫= f) st R.
Proof. unfold returns, ends. by rewrite run_bind, run_self_current. Qed.

Lemma returns_self_current_id {A} (f : nat -> pass A) st (R : A -> reducer World -> Prop) :
  returns eng (f (current_id st)) st R -> returns eng (self_current_id ≫= f) st R.
Proof. unfold returns, ends. by rewrite run_bind, run_self_current_id. Qed.

Lemma returns_self_predicate v st (R : bool -> reducer World -> Prop) :
  R (predicate sha1 World ext v st).1 (predicate sha1 World ext v st).2 ->
  returns eng (self_predicate v) st R.
Proof. unfold returns, ends. simpl. by destruct (predicate sha1 World ext v st). Qed.

Lemma returns_attempt v st (R : bool -> reducer World -> Prop) :
  (sort_key_lt v (current st) = true ->
   R (predicate sha1 World ext v st).1 (predicate sha1 World ext v st).2) ->
  (sort_key_lt v (current st) = false -> R false st) ->
  returns eng (attempt v) st R.
Proof.
  unfold returns, ends. rewrite run_attempt. intros Hlt Hge.
  destruct (sort_key_lt v (current st)); [|by apply Hge].
  specialize (Hlt eq_refl). by destruct (predicate sha1 World ext v st).
Qed.

(** A call of [predicate] on a subsequence of [cur0] keeps [current] a
    subsequence of [cur0]. *)
Lemma predicate_only_deletes (cur0 v : bytes) st :
  current st `sublist_of` cur0 -> v `sublist_of` cur0 ->
  current (predicate sha1 World ext v st).2 `sublist_of` cur0.
Proof.
  intros Hcur Hv. destruct (predicate sha1 World ext v st) as [r st'] eqn:Hp. simpl.
  destruct (predicate_current _ _ _ _ _ _ _ Hp) as [[Heq _]|(Heq & _)]; by rewrite Heq.
Qed.

(** A call of [predicate] on such a value keeps [current] such a value. *)
Lemma predicate_deletes_within sets target v st :
  deletes_within sets target (current st) -> deletes_within sets target v ->
  deletes_within sets target (current (predicate sha1 World ext v st).2).
Proof.
  intros Hcur Hv. destruct (predicate sha1 World ext v st) as [r st'] eqn:Hp. simpl.
  destruct (predicate_current _ _ _ _ _ _ _ Hp) as [[Heq _]|(Heq & _)]; by rewrite Heq.
Qed.

Section Sets.
Variable sets : list (gset nat).
Variable target : bytes.

Lemma try_remove_returns (given : list (gset nat)) i j retained st :
  (forall s, s ∈ given -> s ∈ sets) ->
  retained_inv sets target retained -> deletes_within sets target (current st) ->
  returns leng (try_remove given target i j) (retained, st)
    (fun b rs => retained_inv sets target rs.1 /\ deletes_within sets target (current rs.2)
                 /\ (b = true -> j <= len given)).
Proof.
  intros Hgiven Hret Hcur. unfold try_remove.
  destruct (Z.ltb_spec (len given) j) as [Hlt|Hge]; [by apply returns_ret|].
  unfold returns, ends. simpl.
  case_bool_decide; simpl; [done|].
  set (to_remove := ⋃ take (Z.to_nat (j - i)) (drop (Z.to_nat i) given)).
  assert (Hrem : forall x, x ∈ to_remove -> exists s, s ∈ sets /\ x ∈ s).
  { intros x (s & Hs & Hx)%elem_of_union_list. exists s. split; [|done].
    apply Hgiven. eapply elem_of_sublist; [done|].
    etrans; [apply sublist_take|apply sublist_drop]. }
  match goal with |- context [predicate sha1 World ext ?v st] =>
    pose proof (predicate_deletes_within sets target v st Hcur) as Hv;
    destruct (predicate sha1 World ext v st) as [[] st'] eqn:Hp
  end; simpl in *.
  - split_and!; [|apply Hv|done].
    + intros x Hx Hnot. apply not_elem_of_difference in Hnot as [?|?]; [by apply Hret|by apply Hrem].
    + eexists. split; [done|]. intros x Hx Hkeep. simpl in Hkeep.
      apply andb_false_iff in Hkeep as [Hk|Hk].
      * apply bool_decide_eq_false in Hk. by apply Hret.
      * apply negb_false_iff, bool_decide_eq_true in Hk. by apply Hrem.
  - split_and!; [done|apply Hv|done].
    eexists. split; [done|]. intros x Hx Hkeep. simpl in Hkeep.
    apply andb_false_iff in Hkeep as [Hk|Hk].
    + apply bool_decide_eq_false in Hk. by apply Hret.
    + apply negb_false_iff, bool_decide_eq_true in Hk. by apply Hrem.
Qed.

Lemma delete_many_loop_returns n fuel (given : list (gset nat)) i retained st :
  (forall s, s ∈ given -> s ∈ sets) ->
  retained_inv sets target retained -> deletes_within sets target (current st) ->
  0 <= i -> (Z.to_nat (len given - i) + 1 <= n)%nat -> (length given + 1 <= fuel)%nat ->
  returns leng (delete_many_loop n fuel given target i) (retained, st)
    (fun _ rs => deletes_within sets target (current rs.2)).
Proof.
  intros Hgiven. revert i retained st.
  induction n as [|n IH]; intros i retained st Hret Hcur Hi Hn Hfuel; [lia|].
  cbn [delete_many_loop].
  destruct (Z.ltb_spec i (len given)) as [Hlt|Hge]; [|by apply returns_ret].
  apply returns_bind. eapply returns_mono.
  { apply (find_integer_returns (with_local (engine sha1 World ext)) _ (len given - i)
             (fun _ rs => retained_inv sets target rs.1 /\ deletes_within sets target (current rs.2))).
    - intros m k [r1 s1] [Hr1 Hs1] Hmk. eapply returns_mono.
      + by apply (try_remove_returns given i (i + k) r1 s1).
      + intros [] rs (? & ? & Hb); [|done]. split; [|done]. specialize (Hb eq_refl). lia.
    - done.
    - lia.
    - unfold len. lia. }
  intros k [r1 s1] [[Hr1 Hs1] Hk]. simpl in Hr1, Hs1. apply IH; [done|done|lia|lia|lia].
Qed.
End Sets.

Lemma deletes_within_refl sets target : deletes_within sets target target.
Proof.
  exists (fun _ => true). split; [|done].
  generalize O. induction target as [|c target IH]; intros i; simpl; [done|].
  by rewrite <- IH.
Qed.

Lemma deletes_within_sublist sets target v :
  deletes_within sets target v -> v `sublist_of` target.
Proof. intros (keep & -> & _). apply select_from_sublist. Qed.

Lemma attempt_delete_many_sets_returns (fuel : nat) (sets : list (gset nat)) st :
  (length sets + 1 <= fuel)%nat ->
  returns eng (attempt_delete_many_sets fuel sets) st
    (fun _ st' => deletes_within sets (current st) (current st')).
Proof.
  intros Hfuel. unfold attempt_delete_many_sets.
  apply returns_self_current. apply returns_bind. apply returns_run_local.
  assert (Hgiven : forall s, s ∈ sort_by set_key_gt sets -> s ∈ sets).
  { intros s. by rewrite elem_of_sort_by. }
  assert (Hret : retained_inv sets (current st) (list_to_set (seq 0 (length (current st))))).
  { intros i Hi Hnot. destruct Hnot. apply elem_of_list_to_set, elem_of_seq. lia. }
  apply returns_bind. eapply returns_mono.
  { apply (try_remove_returns sets (current st)); [done|done|apply deletes_within_refl]. }
  intros all [r1 s1] (Hr1 & Hs1 & _). simpl in Hr1, Hs1.
  apply (returns_mono _ _ _ (fun _ rs => deletes_within sets (current st) (current rs.2))).
  { destruct all.
    - apply returns_ret. exact Hs1.
    - apply (delete_many_loop_returns sets (current st)); try done;
        unfold len; rewrite length_sort_by; lia. }
  by intros [] [r2 s2] ?.
Qed.

Lemma attempt_delete_many_sets_nothing (fuel : nat) (sets : list (gset nat)) st :
  (forall s x, s ∈ sets -> x ∈ s -> (length (current st) <= x)%nat) ->
  exec (attempt_delete_many_sets fuel sets) st = (Returned tt, st).
Proof.
  intros Hout. unfold attempt_delete_many_sets.
  rewrite run_bind, run_self_current, run_bind, run_run_local.
  unfold try_remove. rewrite Z.ltb_irrefl. simpl.
  rewrite bool_decide_eq_true_2; [done|].
  intros x (s & Hs & Hx)%elem_of_union_list Hx'.
  eapply elem_of_sublist in Hs; [|etrans; [apply sublist_take|apply sublist_drop]].
  apply elem_of_sort_by in Hs.
  specialize (Hout s x Hs Hx).
  apply elem_of_list_to_set, elem_of_seq in Hx'. lia.
Qed.
End DeleteMany.

(** X11. [attempt_delete_many_sets] always returns, once its fuel exceeds
    the number of sets, whatever the external predicate answers; [current]
    is afterwards what it was before with some bytes deleted, every one of
    them at an index that belongs to one of the sets.  When no set holds an
    index of [current] (in particular when there is no set), the engine is
    left untouched: [self.predicate] is not called. *)
Theorem attempt_delete_many_sets_deletes (sha1 : bytes -> bytes) (World : Type)
    (ext : bytes -> World -> bool * World) (fuel : nat) (sets : list (gset nat))
    (st : reducer World) :
  (length sets + 1 <= fuel)%nat ->
  exists st',
    run (engine sha1 World ext) (attempt_delete_many_sets fuel sets) st = (Returned tt, st')
    /\ deletes_within sets (current st) (current st')
    /\ current st' `sublist_of` current st
    /\ ((forall s x, s ∈ sets -> x ∈ s -> (length (current st) <= x)%nat) -> st' = st).
Proof.
  intros Hfuel.
  pose proof (attempt_delete_many_sets_returns sha1 World ext fuel sets st Hfuel) as Hret.
  apply returns_run in Hret as ([] & st' & Hrun & Hdel).
  exists st'. split_and!; [done|done|by eapply deletes_within_sublist|].
  intros Hout. rewrite (attempt_delete_many_sets_nothing sha1 World ext fuel sets st Hout) in Hrun.
  congruence.
Qed.

Lemma attempt_delete_many_sets_deletes_witness :
  exists st',
    run (engine rolling_digest unit accept_all)
      (attempt_delete_many_sets 3 demo_sets)
      (fresh rolling_digest (b_lit "a(b)c")) = (Returned tt, st')
    /\ deletes_within demo_sets
         (current (fresh rolling_digest (b_lit "a(b)c"))) (current st')
    /\ current st' `sublist_of` current (fresh rolling_digest (b_lit "a(b)c"))
    /\ ((forall s x, s ∈ demo_sets -> x ∈ s ->
           (length (current (fresh rolling_digest (b_lit "a(b)c"))) <= x)%nat) ->
        st' = fresh rolling_digest (b_lit "a(b)c")).
Proof.
  apply (attempt_delete_many_sets_deletes rolling_digest unit accept_all 3
           demo_sets (fresh rolling_digest (b_lit "a(b)c"))).
  simpl. lia.
Defined.

(** ** Splitting and joining *)

Lemma split_go_not_nil (sep : bytes) (k : nat) (acc s : bytes) : split_go sep k acc s <> [].
Proof.
  revert k acc. induction s as [|c s IH]; intros k acc; simpl; [done|].
  destruct k; [|apply IH]. destruct (starts_with sep (c :: s)); [done|apply IH].
Qed.

Lemma bytes_join_cons (d p : bytes) (ps : list bytes) :
  ps <> [] -> bytes_join d (p :: ps) = p ++ d ++ bytes_join d ps.
Proof. by destruct ps. Qed.

Lemma starts_with_prefix (p s : bytes) :
  starts_with p s = true -> s = p ++ drop (length p) s.
Proof.
  revert s. induction p as [|x p IH]; intros [|y s]; simpl; try done.
  intros [Hxy Hp]%andb_prop. apply bool_decide_eq_true in Hxy as ->.
  f_equal. by apply IH.
Qed.

Lemma join_split_go (sep : bytes) (k : nat) (acc s : bytes) :
  sep <> [] -> (k <= length s)%nat ->
  bytes_join sep (split_go sep k acc s) = reverse acc ++ drop k s.
Proof.
  intros Hsep. revert k acc. induction s as [|c s IH]; intros k acc Hk; simpl in *.
  - destruct k; [|lia]. simpl. by rewrite app_nil_r.
  - destruct k as [|k]; [|apply IH; lia].
    destruct (starts_with sep (c :: s)) eqn:Hstart.
    + rewrite bytes_join_cons by apply split_go_not_nil.
      pose proof (starts_with_prefix _ _ Hstart) as Heq.
      assert (length sep <= S (length s))%nat as Hlen.
      { apply (f_equal length) in Heq. rewrite length_app in Heq. simpl in Heq. lia. }
      destruct sep as [|c0 sep']; [done|]. simpl in *.
      rewrite IH by lia. simpl. rewrite Nat.sub_0_r.
      injection Heq as -> Heq. by rewrite <- Heq.
    + rewrite IH by lia. rewrite reverse_cons, <- app_assoc. done.
Qed.

(** [sep.join(s.split(sep)) == s] *)
Lemma bytes_join_split (sep s : bytes) (parts : list bytes) :
  bytes_split sep s = Some parts -> sep <> [] /\ bytes_join sep parts = s.
Proof.
  unfold bytes_split. destruct sep as [|c sep'] eqn:Hsep; [done|].
  intros [= <-]. split; [done|]. by rewrite join_split_go by (done || simpl; lia).
Qed.

Lemma length_split_go (sep : bytes) (k : nat) (acc s : bytes) :
  (length (split_go sep k acc s) <= length s + 1)%nat.
Proof.
  revert k acc. induction s as [|c s IH]; intros k acc; simpl; [lia|].
  destruct k as [|k]; [|specialize (IH k acc); lia].
  destruct (starts_with sep (c :: s)); simpl.
  - specialize (IH (length sep - 1)%nat []). lia.
  - specialize (IH O (c :: acc)). lia.
Qed.

Lemma length_bytes_split (sep s : bytes) (parts : list bytes) :
  bytes_split sep s = Some parts -> (length parts <= length s + 1)%nat.
Proof.
  unfold bytes_split. destruct sep; [done|]. intros [= <-]. apply length_split_go.
Qed.

Lemma bytes_join_sublist (d : bytes) (ls ps : list bytes) :
  ls `sublist_of` ps -> bytes_join d ls `sublist_of` bytes_join d ps.
Proof.
  induction 1 as [|x l1 l2 Hsub IH|x l1 l2 Hsub IH]; [done| |].
  - destruct l1 as [|y l1].
    + destruct l2 as [|z l2]; [done|].
      rewrite (bytes_join_cons d x (z :: l2)) by done. by apply sublist_inserts_r.
    + assert (l2 <> []) by (intros ->; by apply sublist_nil_r in Hsub).
      rewrite (bytes_join_cons d x (y :: l1)), (bytes_join_cons d x l2) by done.
      apply sublist_app; [done|]. apply sublist_app; [done|]. exact IH.
  - destruct l2 as [|z l2].
    + apply sublist_nil_r in Hsub as ->. apply sublist_nil_l.
    + rewrite bytes_join_cons by done. by do 2 apply sublist_inserts_l.
Qed.

Lemma bytes_join_sublist_sep (d d' : bytes) (ps : list bytes) :
  d' `sublist_of` d -> bytes_join d' ps `sublist_of` bytes_join d ps.
Proof.
  intros Hd. induction ps as [|p ps IH]; [done|].
  destruct ps as [|q ps]; [done|].
  rewrite !bytes_join_cons by done. by repeat apply sublist_app.
Qed.

Lemma sublist_reverse {A} (l k : list A) :
  l `sublist_of` k -> reverse l `sublist_of` reverse k.
Proof.
  induction 1 as [|x l1 l2 _ IH|x l1 l2 _ IH]; [done| |].
  - rewrite !reverse_cons. by apply sublist_app.
  - rewrite reverse_cons. by apply sublist_inserts_r.
Qed.

(** ** Reduction along a delimiter *)

Lemma ends_returns_bind {E} {resp : E -> Type} {S A B} (h : forall e : E, S -> resp e * S)
    (m : prog E resp A) (f : A -> prog E resp B) (s : S) (Q : outcome B -> S -> Prop) :
  returns h m s (fun a s1 => ends h (f a) s1 Q) -> ends h (m ≫= f) s Q.
Proof.
  unfold returns, ends. rewrite run_bind.
  by destruct (run h m s) as [[a|e|] s1].
Qed.

Lemma ends_ret_bind {E} {resp : E -> Type} {S A B} (h : forall e : E, S -> resp e * S)
    (a : A) (f : A -> prog E resp B) (s : S) (Q : outcome B -> S -> Prop) :
  ends h (f a) s Q -> ends h (mret a ≫= f) s Q.
Proof. done. Qed.

Lemma returns_ends {E} {resp : E -> Type} {S A} (h : forall e : E, S -> resp e * S)
    (p : prog E resp A) (s : S) (R : A -> S -> Prop) (Q : outcome A -> S -> Prop) :
  returns h p s R -> (forall a s', R a s' -> Q (Returned a) s') -> ends h p s Q.
Proof.
  unfold returns, ends. intros Hp HQ.
  destruct (run h p s) as [[a|e|] s1]; simpl in *; [by apply HQ|done|done].
Qed.

Section Delimiters.
Variable sha1 : bytes -> bytes.
Variable World : Type.
Variable ext : bytes -> World -> bool * World.

Abbreviation eng := (engine sha1 World ext).

Lemma ends_split_current {A} (d : bytes) (f : list bytes -> pass A) st
    (Q : outcome A -> reducer World -> Prop) :
  match bytes_split d (current st) with
  | Some parts => ends eng (f parts) st Q
  | None => Q (Raised ValueError) st
  end ->
  ends eng (split_current d ≫= f) st Q.
Proof.
  unfold ends. rewrite run_bind, run_split_current.
  by destruct (bytes_split d (current st)).
Qed.

Lemma ends_attempt {A} (v : bytes) (f : bool -> pass A) st
    (Q : outcome A -> reducer World -> Prop) :
  (sort_key_lt v (current st) = true ->
   ends eng (f (predicate sha1 World ext v st).1) (predicate sha1 World ext v st).2 Q) ->
  (sort_key_lt v (current st) = false -> ends eng (f false) st Q) ->
  ends eng (attempt v ≫= f) st Q.
Proof.
  unfold ends. rewrite run_bind, run_attempt. intros Hlt Hge.
  destruct (sort_key_lt v (current st)); [|by apply Hge].
  specialize (Hlt eq_refl). by destruct (predicate sha1 World ext v st).
Qed.

Lemma ends_self_current_id {A} (f : nat -> pass A) st
    (Q : outcome A -> reducer World -> Prop) :
  ends eng (f (current_id st)) st Q -> ends eng (self_current_id ≫= f) st Q.
Proof. unfold ends. by rewrite run_bind, run_self_current_id. Qed.

Lemma ends_self_current {A} (f : bytes -> pass A) st
    (Q : outcome A -> reducer World -> Prop) :
  ends eng (f (current st)) st Q -> ends eng (self_current ≫= f) st Q.
Proof. unfold ends. by rewrite run_bind, run_self_current. Qed.

(** The two joins of [reduce_by_delimiter]. *)
Lemma reduce_by_delimiter_joins_ends (d0 cur0 : bytes) st :
  current st `sublist_of` cur0 ->
  ends eng (reduce_by_delimiter_joins d0) st
    (fun o st' =>
       current st' `sublist_of` cur0
       /\ match o with
          | Returned (d, parts, again) =>
              bytes_split d0 (current st) = Some parts /\ (d = [] \/ d = d0)
          | Raised e => e = ValueError
          | Timeout => False
          end).
Proof.
  intros Hcur. unfold reduce_by_delimiter_joins.
  apply ends_split_current.
  destruct (bytes_split d0 (current st)) as [parts|] eqn:Hsplit; [|done].
  destruct (bytes_join_split _ _ _ Hsplit) as [Hd0 Hjoin].
  assert (Hsub : forall d, d = [] \/ d = d0 ->
            bytes_join d (nonempty_parts parts) `sublist_of` cur0
            /\ bytes_join d parts `sublist_of` cur0).
  { intros d Hd.
    assert (bytes_join d parts `sublist_of` cur0).
    { etrans; [|exact Hcur]. rewrite <- Hjoin. apply bytes_join_sublist_sep.
      destruct Hd as [-> | ->]; [apply sublist_nil_l|done]. }
    split; [|done]. etrans; [|done]. apply bytes_join_sublist, sublist_filter. }
  assert (Hlast : forall (d : bytes) st1, d = [] \/ d = d0 -> current st1 `sublist_of` cur0 ->
            ends eng (attempt (bytes_join d (nonempty_parts parts)) ≫= fun again =>
                      mret (d, parts, again)) st1
              (fun o st' =>
                 current st' `sublist_of` cur0
                 /\ match o with
                    | Returned (d, parts', again) =>
                        Some parts = Some parts' /\ (d = [] \/ d = d0)
                    | Raised e => e = ValueError
                    | Timeout => False
                    end)).
  { intros d st1 Hd Hst1. apply ends_attempt; intros _; unfold ends; simpl; [|done].
    split; [|done]. apply predicate_only_deletes; [done|]. by apply Hsub. }
  apply ends_attempt; intros _.
  - pose proof (predicate_only_deletes sha1 World ext cur0 (bytes_join [] parts) st Hcur)
      as Hst1.
    destruct (predicate sha1 World ext (bytes_join [] parts) st) as [joined st1]. simpl in *.
    apply Hlast; [destruct joined; auto|]. apply Hst1. apply Hsub. by left.
  - apply Hlast; [by right|done].
Qed.

(** How a call of [reduce_by_delimiter] that began with [current] a
    subsequence of [cur0] may end. *)
Lemma reduce_by_delimiter_ends (fuel : nat) (delimiter : int_or_bytes) (cur0 : bytes) st :
  current st `sublist_of` cur0 ->
  (2 * length cur0 + 3 <= fuel)%nat ->
  ends eng (reduce_by_delimiter fuel delimiter) st
    (fun o st' =>
       current st' `sublist_of` cur0
       /\ match o with
          | Returned b => b = negb (current_id st =? current_id st')%nat
          | Raised e => e = ValueError
          | Timeout => False
          end).
Proof.
  intros Hcur Hfuel. unfold reduce_by_delimiter.
  apply ends_self_current_id. apply ends_bind.
  eapply ends_mono; [by apply (reduce_by_delimiter_joins_ends (to_bs delimiter) cur0)|].
  intros [[[d parts] again]|e|] st1 [Hst1 Ho]; [|done|done].
  destruct Ho as [Hsplit Hd].
  destruct (bytes_join_split _ _ _ Hsplit) as [Hd0 Hjoin].
  assert (Hrest : forall parts' st2,
            current st2 `sublist_of` cur0 ->
            bytes_join d parts' `sublist_of` cur0 ->
            (length parts' <= length cur0 + 1)%nat ->
            ends eng
              (linear_reduce fuel (reverse parts')
                 (fun ls => self_predicate (bytes_join d (reverse ls))) ≫= fun _ =>
               self_current_id ≫= fun now =>
               mret (negb (current_id st =? now)%nat)) st2
              (fun o st' =>
                 current st' `sublist_of` cur0
                 /\ match o with
                    | Returned b => b = negb (current_id st =? current_id st')%nat
                    | Raised e => e = ValueError
                    | Timeout => False
                    end)).
  { intros parts' st2 Hst2 Hparts' Hlen. apply ends_returns_bind.
    eapply returns_mono.
    - apply (linear_reduce_returns eng _
               (fun r s => reverse r `sublist_of` parts' /\ current s `sublist_of` cur0)).
      + intros r c s [Hr Hs] Hc _. apply returns_self_predicate.
        assert (reverse c `sublist_of` parts').
        { etrans; [|exact Hr]. by apply sublist_reverse. }
        assert (current (predicate sha1 World ext (bytes_join d (reverse c)) s).2
                `sublist_of` cur0).
        { apply predicate_only_deletes; [done|].
          etrans; [|exact Hparts']. by apply bytes_join_sublist. }
        by destruct (predicate sha1 World ext (bytes_join d (reverse c)) s).1.
      + by rewrite reverse_involutive.
      + rewrite length_reverse. lia.
    - intros r s [[_ Hs] _]. apply ends_self_current_id. unfold ends. simpl. done. }
  destruct again.
  - apply ends_split_current.
    destruct (bytes_split d (current st1)) as [parts'|] eqn:Hsplit'; [|done].
    destruct (bytes_join_split _ _ _ Hsplit') as [_ Hjoin'].
    apply Hrest; [done|by rewrite Hjoin'|].
    pose proof (length_bytes_split _ _ _ Hsplit').
    pose proof (sublist_length _ _ Hst1). lia.
  - apply ends_ret_bind. apply Hrest; [done| |].
    + etrans; [|exact Hcur]. rewrite <- Hjoin. apply bytes_join_sublist_sep.
      destruct Hd as [-> | ->]; [apply sublist_nil_l|done].
    + pose proof (length_bytes_split _ _ _ Hsplit).
      pose proof (sublist_length _ _ Hcur). lia.
Qed.
End Delimiters.

(** X12. [reduce_by_delimiter] always ends, given fuel for
    [2 * len(current) + 3] turns: either it returns, and then with true
    exactly when [current] was replaced (by a byte string that sorts strictly
    below), or it raises the [ValueError] of a split on the empty separator;
    in both cases [current] is afterwards a subsequence of what it was. *)
Theorem reduce_by_delimiter_halts (sha1 : bytes -> bytes) (World : Type)
    (ext : bytes -> World -> bool * World) (fuel : nat) (delimiter : int_or_bytes)
    (st : reducer World) :
  (2 * length (current st) + 3 <= fuel)%nat ->
  exists o st',
    run (engine sha1 World ext) (reduce_by_delimiter fuel delimiter) st = (o, st')
    /\ current st' `sublist_of` current st
    /\ ((exists b, o = Returned b
                   /\ (b = true <-> current st' <> current st)
                   /\ (b = true <-> sort_key_lt (current st') (current st) = true))
        \/ o = Raised ValueError).
Proof.
  intros Hfuel.
  pose proof (reduce_by_delimiter_ends sha1 World ext fuel delimiter (current st) st
                (reflexivity _) Hfuel) as Hends.
  unfold ends in Hends.
  destruct (run (engine sha1 World ext) (reduce_by_delimiter fuel delimiter) st)
    as [o st'] eqn:Hrun.
  simpl in Hends. destruct Hends as [Hsub Ho].
  exists o, st'. split_and!; [done|done|].
  destruct o as [b|e|]; [|right; by subst|done].
  left. exists b. split; [done|].
  pose proof (run_later _ _ _ _ _ _ _ Hrun) as (Hshrunk & _ & _ & Hiff).
  assert (Hb : b = true <-> current st' <> current st).
  { subst b. rewrite negb_true_iff, Nat.eqb_neq. rewrite <- Hiff. split; intros H ?; by apply H. }
  split; [done|]. rewrite Hb. split.
  - intros Hne. by destruct Hshrunk as [?|?].
  - intros Hlt Heq. rewrite Heq, sort_key_lt_irrefl in Hlt. done.
Qed.

Lemma reduce_by_delimiter_halts_witness :
  exists o st',
    run (engine rolling_digest unit accept_all)
      (reduce_by_delimiter 9 (PyBytes (b_lit ";"))) (fresh rolling_digest (b_lit "a;b"))
    = (o, st')
    /\ current st' `sublist_of` current (fresh rolling_digest (b_lit "a;b"))
    /\ ((exists b, o = Returned b
                   /\ (b = true <-> current st' <> current (fresh rolling_digest (b_lit "a;b")))
                   /\ (b = true <->
                       sort_key_lt (current st') (current (fresh rolling_digest (b_lit "a;b")))
                       = true))
        \/ o = Raised ValueError).
Proof.
  apply (reduce_by_delimiter_halts rolling_digest unit accept_all 9
           (PyBytes (b_lit ";")) (fresh rolling_digest (b_lit "a;b"))).
  simpl. lia.
Defined.

(** X13. [reduce_by_bytes] always returns, given fuel for
    [2 * len(current) + 1] turns, and only deletes bytes: [current] is
    afterwards a subsequence of what it was. *)
Theorem reduce_by_bytes_deletes (sha1 : bytes -> bytes) (World : Type)
    (ext : bytes -> World -> bool * World) (fuel : nat) (st : reducer World) :
  (2 * length (current st) + 1 <= fuel)%nat ->
  exists st',
    run (engine sha1 World ext) (reduce_by_bytes fuel) st = (Returned tt, st')
    /\ current st' `sublist_of` current st.
Proof.
  intros Hfuel.
  cut (returns (engine sha1 World ext) (reduce_by_bytes fuel) st
         (fun _ st' => current st' `sublist_of` current st)).
  { intros ([] & st' & ? & ?)%returns_run. eauto. }
  unfold reduce_by_bytes.
  apply returns_self_current. apply returns_bind.
  eapply returns_mono.
  - apply (linear_reduce_returns (engine sha1 World ext) _
             (fun r s => r `sublist_of` current st /\ current s `sublist_of` current st)).
    + intros r c s [Hr Hs] Hc _. apply returns_self_predicate.
      assert (c `sublist_of` current st) by (by etrans).
      pose proof (predicate_only_deletes sha1 World ext (current st) c s Hs).
      destruct (predicate sha1 World ext c s).1; auto.
    + done.
    + done.
  - intros r s [[_ Hs] _]. by apply returns_ret.
Qed.

Lemma reduce_by_bytes_deletes_witness :
  exists st',
    run (engine rolling_digest unit accept_all) (reduce_by_bytes 7)
      (fresh rolling_digest (b_lit "a;b")) = (Returned tt, st')
    /\ current st' `sublist_of` current (fresh rolling_digest (b_lit "a;b")).
Proof.
  apply (reduce_by_bytes_deletes rolling_digest unit accept_all 7
           (fresh rolling_digest (b_lit "a;b"))).
  simpl. lia.
Defined.

(** ** All delimiters *)

Lemma rarest_elem_of (cur : bytes) (delimiters : list byte) (b : byte) :
  rarest cur delimiters = Some b -> b ∈ delimiters.
Proof.
  unfold rarest. intros Hhead. apply head_Some_elem_of in Hhead.
  by apply elem_of_sort_by in Hhead.
Qed.

Lemma length_remove_dups (l : bytes) : (length (remove_dups l) <= length l)%nat.
Proof.
  apply submseteq_length, NoDup_submseteq; [apply NoDup_remove_dups|].
  intros x. by rewrite elem_of_remove_dups.
Qed.

Lemma reduce_by_all_delimiters_loop_ends (sha1 : bytes -> bytes) (World : Type)
    (ext : bytes -> World -> bool * World) (n fuel : nat) (delimiters : list byte)
    (cur0 : bytes) (st : reducer World) :
  current st `sublist_of` cur0 ->
  (length delimiters + 1 <= n)%nat -> (2 * length cur0 + 3 <= fuel)%nat ->
  ends (engine sha1 World ext) (reduce_by_all_delimiters_loop n fuel delimiters) st
    (fun o st' =>
       current st' `sublist_of` cur0
       /\ match o with
          | Returned _ => True
          | Raised e => e = ValueError
          | Timeout => False
          end).
Proof.
  revert delimiters st. induction n as [|n IH]; intros delimiters st Hcur Hn Hfuel; [lia|].
  cbn [reduce_by_all_delimiters_loop]. apply ends_self_current.
  destruct (rarest (current st) delimiters) as [b|] eqn:Hrarest; [|done].
  apply ends_bind. eapply ends_mono.
  { by apply (reduce_by_delimiter_ends sha1 World ext fuel (PyInt b) cur0). }
  intros [r|e|] st1 [Hst1 Ho]; [|done|done].
  apply IH; [done| |done].
  pose proof (length_filter_lt (fun c => c <> b) delimiters b
                (rarest_elem_of _ _ _ Hrarest)) as Hlt.
  assert (~ b <> b) as Hb by (by intros ?).
  specialize (Hlt Hb). lia.
Qed.

(** X14. [reduce_by_all_delimiters] always ends, given fuel for
    [2 * len(current) + 3] turns: it returns or raises the [ValueError] of a
    split on the empty separator, and [current] is afterwards a subsequence
    of what it was. *)
Theorem reduce_by_all_delimiters_halts (sha1 : bytes -> bytes) (World : Type)
    (ext : bytes -> World -> bool * World) (fuel : nat) (st : reducer World) :
  (2 * length (current st) + 3 <= fuel)%nat ->
  exists o st',
    run (engine sha1 World ext) (reduce_by_all_delimiters fuel) st = (o, st')
    /\ current st' `sublist_of` current st
    /\ (o = Returned tt \/ o = Raised ValueError).
Proof.
  intros Hfuel.
  assert (Hends : ends (engine sha1 World ext) (reduce_by_all_delimiters fuel) st
            (fun o st' =>
               current st' `sublist_of` current st
               /\ match o with
                  | Returned _ => True
                  | Raised e => e = ValueError
                  | Timeout => False
                  end)).
  { unfold reduce_by_all_delimiters. apply ends_self_current.
    apply reduce_by_all_delimiters_loop_ends; [done| |done].
    pose proof (length_remove_dups (current st)). lia. }
  unfold ends in Hends.
  destruct (run (engine sha1 World ext) (reduce_by_all_delimiters fuel) st) as [o st'].
  simpl in Hends. destruct Hends as [Hsub Ho].
  exists o, st'. split_and!; [done|done|].
  destruct o as [[]|e|]; [by left|right; by subst|done].
Qed.

Lemma reduce_by_all_delimiters_halts_witness :
  exists o st',
    run (engine rolling_digest unit accept_all) (reduce_by_all_delimiters 9)
      (fresh rolling_digest (b_lit "a;b")) = (o, st')
    /\ current st' `sublist_of` current (fresh rolling_digest (b_lit "a;b"))
    /\ (o = Returned tt \/ o = Raised ValueError).
Proof.
  apply (reduce_by_all_delimiters_halts rolling_digest unit accept_all 9
           (fresh rolling_digest (b_lit "a;b"))).
  simpl. lia.
Defined.

(** ** Prefixes of lines *)

Lemma index_go_ge (sub : bytes) (pos : nat) (s : bytes) (i : nat) :
  index_go sub pos s = Some i -> (pos <= i)%nat.
Proof.
  revert pos. induction s as [|c s IH]; intros pos; simpl.
  - destruct (starts_with sub []); [|done]. intros [= <-]. lia.
  - destruct (starts_with sub (c :: s)); [intros [= <-]; lia|].
    intros Hi%IH. lia.
Qed.

Lemma bytes_index_ge (sub s : bytes) (start i : nat) :
  bytes_index sub s start = Some i -> (start <= i)%nat.
Proof.
  unfold bytes_index. destruct (length s <? start)%nat; [done|]. apply index_go_ge.
Qed.

Lemma index_go_absent (c : byte) (pos : nat) (s : bytes) :
  c ∉ s -> index_go [c] pos s = None.
Proof.
  revert pos. induction s as [|x s IH]; intros pos Hc; simpl; [done|].
  apply not_elem_of_cons in Hc as [Hcx Hc].
  rewrite bool_decide_eq_false_2 by done. simpl. by apply IH.
Qed.

Lemma take_drop_sublist {A} (l : list A) (i j : nat) :
  (i <= j)%nat -> take i l ++ drop j l `sublist_of` l.
Proof.
  intros Hij. rewrite <- (take_drop i l) at 3.
  apply sublist_app; [done|].
  replace j with (i + (j - i))%nat by lia. rewrite <- drop_drop. apply sublist_drop.
Qed.

Lemma sort_key_lt_length (a b : bytes) :
  sort_key_lt a b = true -> (length a <= length b)%nat.
Proof.
  unfold sort_key_lt, len. destruct (Z.eqb_spec (Z.of_nat (length a)) (Z.of_nat (length b))).
  - lia.
  - intros ?%Z.ltb_lt. lia.
Qed.

Section PrefixLines.
Variable sha1 : bytes -> bytes.
Variable World : Type.
Variable ext : bytes -> World -> bool * World.

Abbreviation eng := (engine sha1 World ext).

Lemma predicate_length (v : bytes) st :
  (length (current (predicate sha1 World ext v st).2) <= length (current st))%nat.
Proof.
  destruct (predicate sha1 World ext v st) as [r st'] eqn:Hp. simpl.
  destruct (predicate_current _ _ _ _ _ _ _ Hp) as [[-> _]|(-> & _ & Hlt & _)]; [done|].
  by apply sort_key_lt_length.
Qed.

Lemma prefix_lines_loop_returns (n : nat) (terminator cur0 : bytes) (i : nat) st :
  current st `sublist_of` cur0 ->
  (length (current st) - i + 1 <= n)%nat ->
  returns eng (prefix_lines_loop n terminator i) st
    (fun _ st' => current st' `sublist_of` cur0
                  /\ (length (current st') <= length (current st))%nat).
Proof.
  revert i st. induction n as [|n IH]; intros i st Hcur Hn; [lia|].
  cbn [prefix_lines_loop]. apply returns_self_current.
  destruct (Nat.ltb_spec i (length (current st))) as [Hlt|Hge]; [|by apply returns_ret].
  set (line_end := default (length (current st)) (bytes_index terminator (current st) (i + 1))).
  assert (Hend : (i <= line_end)%nat).
  { unfold line_end. destruct (bytes_index terminator (current st) (i + 1)) eqn:Hidx; simpl.
    - apply bytes_index_ge in Hidx. lia.
    - lia. }
  assert (Hv : take i (current st) ++ drop line_end (current st) `sublist_of` cur0).
  { etrans; [by apply take_drop_sublist|done]. }
  assert (Hnext : forall st1,
            current st1 `sublist_of` cur0 ->
            (length (current st1) <= length (current st))%nat ->
            returns eng
              (self_current ≫= fun cur' =>
                 match bytes_index [" "%byte] cur' (i + 1) with
                 | Some i' => prefix_lines_loop n terminator i'
                 | None => mret tt
                 end) st1
              (fun _ st' => current st' `sublist_of` cur0
                            /\ (length (current st') <= length (current st))%nat)).
  { intros st1 Hst1 Hlen1. apply returns_self_current.
    destruct (bytes_index [" "%byte] (current st1) (i + 1)) as [i'|] eqn:Hidx;
      [|by apply returns_ret].
    apply bytes_index_ge in Hidx.
    eapply returns_mono; [apply IH; [done|lia]|].
    intros _ st2 [? ?]. split; [done|lia]. }
  apply returns_bind. apply returns_attempt; intros _.
  - apply Hnext; [by apply predicate_only_deletes|apply predicate_length].
  - by apply Hnext.
Qed.

Lemma prefix_lines_each_returns (fuel : nat) (terminators : list bytes) (cur0 : bytes) st :
  current st `sublist_of` cur0 ->
  (length cur0 + 1 <= fuel)%nat ->
  returns eng (prefix_lines_each fuel terminators) st
    (fun _ st' => current st' `sublist_of` cur0).
Proof.
  revert st. induction terminators as [|terminator terminators IH]; intros st Hcur Hfuel.
  { by apply returns_ret. }
  cbn [prefix_lines_each]. apply returns_self_current.
  destruct (bytes_index [" "%byte] (current st) 0) as [i|]; [|by apply returns_ret].
  apply returns_bind. eapply returns_mono.
  - apply (prefix_lines_loop_returns fuel terminator cur0 i st Hcur).
    pose proof (sublist_length _ _ Hcur). lia.
  - intros _ st1 [Hst1 _]. by apply IH.
Qed.
End PrefixLines.

(** X15. [prefix_lines] always returns, once its fuel exceeds
    [len(current)], and only deletes bytes: [current] is afterwards a
    subsequence of what it was.  When [current] holds no space, it returns
    at once and leaves the engine untouched. *)
Theorem prefix_lines_deletes (sha1 : bytes -> bytes) (World : Type)
    (ext : bytes -> World -> bool * World) (fuel : nat) (st : reducer World) :
  (length (current st) + 1 <= fuel)%nat ->
  exists st',
    run (engine sha1 World ext) (prefix_lines fuel) st = (Returned tt, st')
    /\ current st' `sublist_of` current st
    /\ (" "%byte ∉ current st -> st' = st).
Proof.
  intros Hfuel.
  pose proof (prefix_lines_each_returns sha1 World ext fuel [[x0a]; [";"%byte]]
                (current st) st (reflexivity _) Hfuel) as Hret.
  apply returns_run in Hret as ([] & st' & Hrun & Hsub).
  exists st'. split_and!; [done|done|].
  intros Hspace. unfold prefix_lines in Hrun. cbn [prefix_lines_each] in Hrun.
  rewrite run_bind, run_self_current in Hrun.
  unfold bytes_index in Hrun. simpl in Hrun.
  rewrite index_go_absent in Hrun by done. by injection Hrun.
Qed.

Lemma prefix_lines_deletes_witness :
  exists st',
    run (engine rolling_digest unit accept_all) (prefix_lines 6)
      (fresh rolling_digest (b_lit "a b;c")) = (Returned tt, st')
    /\ current st' `sublist_of` current (fresh rolling_digest (b_lit "a b;c"))
    /\ (" "%byte ∉ current (fresh rolling_digest (b_lit "a b;c")) ->
        st' = fresh rolling_digest (b_lit "a b;c")).
Proof.
  apply (prefix_lines_deletes rolling_digest unit accept_all 6
           (fresh rolling_digest (b_lit "a b;c"))).
  simpl. lia.
Defined.

(** ** Removing brackets *)

Lemma paired_step_length (lbr rbr : byte) s c :
  (length (paired_step lbr rbr s c).2 <= S (length s.2))%nat.
Proof.
  destruct s as [[i stack] results]. simpl.
  repeat case_bool_decide; simpl; try lia.
  destruct stack; simpl; rewrite ?length_app; simpl; lia.
Qed.

Lemma length_find_paired_brackets (bracket : byte * byte) (target : bytes) :
  (length (find_paired_brackets bracket target) <= length target)%nat.
Proof.
  destruct bracket as [lbr rbr]. unfold find_paired_brackets, paired_scan.
  assert (H : forall s, (length (fold_left (paired_step lbr rbr) target s).2
                         <= length s.2 + length target)%nat); [|apply (H (O, [], []))].
  induction target as [|c target IH]; intros s; simpl; [lia|].
  specialize (IH (paired_step lbr rbr s c)).
  pose proof (paired_step_length lbr rbr s c). lia.
Qed.

Lemma select_from_filter (P : byte -> Prop) `{forall c, Decision (P c)}
    (keep : nat -> bool) (i : nat) (target : bytes) :
  (forall k c, target !! k = Some c -> keep (i + k)%nat = false -> ~ P c) ->
  filter P (select_from keep i target) = filter P target.
Proof.
  revert i. induction target as [|c target IH]; intros i Hkeep; simpl; [done|].
  assert (Hrest : filter P (select_from keep (S i) target) = filter P target).
  { apply IH. intros k c' Hk. replace (S i + k)%nat with (i + S k)%nat by lia.
    by apply Hkeep. }
  destruct (keep i) eqn:Hi.
  - by rewrite !filter_cons, Hrest.
  - rewrite Hrest, filter_cons, decide_False; [done|].
    apply (Hkeep O c); [done|]. by rewrite Nat.add_0_r.
Qed.

Lemma deletes_within_filter (P : byte -> Prop) `{forall c, Decision (P c)}
    (sets : list (gset nat)) (target v : bytes) :
  (forall s i c, s ∈ sets -> i ∈ s -> target !! i = Some c -> ~ P c) ->
  deletes_within sets target v -> filter P v = filter P target.
Proof.
  intros Hsets (keep & -> & Hkeep). apply select_from_filter.
  intros k c Hk Hfalse. simpl in Hfalse.
  destruct (Hkeep k) as (s & Hs & Hks); [by eapply lookup_lt_Some|done|].
  by apply (Hsets s k c).
Qed.

Lemma debracket_each_returns (sha1 : bytes -> bytes) (World : Type)
    (ext : bytes -> World -> bool * World) (fuel : nat) (kinds : list (byte * byte))
    (cur0 : bytes) (st : reducer World) :
  (forall b, b ∈ kinds -> b ∈ BRACKETS) ->
  current st `sublist_of` cur0 ->
  without_brackets (current st) = without_brackets cur0 ->
  (length cur0 + 1 <= fuel)%nat ->
  returns (engine sha1 World ext) (debracket_each fuel kinds) st
    (fun _ st' => current st' `sublist_of` cur0
                  /\ without_brackets (current st') = without_brackets cur0).
Proof.
  revert st. induction kinds as [|b kinds IH]; intros st Hkinds Hcur Hwb Hfuel.
  { by apply returns_ret. }
  cbn [debracket_each]. apply returns_self_current. apply returns_bind.
  eapply returns_mono.
  { apply attempt_delete_many_sets_returns.
    rewrite length_map.
    pose proof (length_find_paired_brackets b (current st)).
    pose proof (sublist_length _ _ Hcur). lia. }
  intros [] st1 Hdel. apply IH; [|by etrans; [eapply deletes_within_sublist|]| |done].
  { intros b' Hb'. apply Hkinds. by right. }
  rewrite <- Hwb. unfold without_brackets.
  eapply deletes_within_filter; [|exact Hdel].
  intros s i c Hs Hi Hc Hnot. apply Hnot. clear Hnot.
  apply list_elem_of_fmap in Hs as ([u v] & -> & Huv).
  assert (Hb : b ∈ BRACKETS) by (apply Hkinds; by left).
  destruct b as [lbr rbr]. unfold find_paired_brackets in Huv.
  pose proof (paired_scan_inv lbr rbr (current st)) as (_ & _ & Hsound & _).
  destruct (Hsound u v Huv) as (_ & Hu & Hv & _).
  unfold bracket_bytes. apply list_elem_of_bind. exists (lbr, rbr). split; [|done].
  simpl. apply elem_of_union in Hi as [Hi|Hi]; apply elem_of_singleton in Hi as ->.
  - rewrite Hu in Hc. injection Hc as <-. by left.
  - rewrite Hv in Hc. injection Hc as <-. right. by left.
Qed.

(** X16. [debracket] always returns, once its fuel exceeds
    [len(current)], and deletes nothing but brackets: [current] is
    afterwards a subsequence of what it was, with the same bytes other than
    the six bracket bytes, in the same order. *)
Theorem debracket_deletes_brackets (sha1 : bytes -> bytes) (World : Type)
    (ext : bytes -> World -> bool * World) (fuel : nat) (st : reducer World) :
  (length (current st) + 1 <= fuel)%nat ->
  exists st',
    run (engine sha1 World ext) (debracket fuel) st = (Returned tt, st')
    /\ current st' `sublist_of` current st
    /\ without_brackets (current st') = without_brackets (current st).
Proof.
  intros Hfuel.
  pose proof (debracket_each_returns sha1 World ext fuel BRACKETS (current st) st
                (fun _ H => H) (reflexivity _) eq_refl Hfuel) as Hret.
  apply returns_run in Hret as ([] & st' & Hrun & Hsub & Hwb). eauto.
Qed.

Lemma debracket_deletes_brackets_witness :
  exists st',
    run (engine rolling_digest unit accept_all) (debracket 6)
      (fresh rolling_digest (b_lit "a(b)c")) = (Returned tt, st')
    /\ current st' `sublist_of` current (fresh rolling_digest (b_lit "a(b)c"))
    /\ without_brackets (current st')
       = without_brackets (current (fresh rolling_digest (b_lit "a(b)c"))).
Proof.
  apply (debracket_deletes_brackets rolling_digest unit accept_all 6
           (fresh rolling_digest (b_lit "a(b)c"))).
  simpl. lia.
Defined.

(** ** Pulling out braces *)

Section PullOutBraces.
Variable sha1 : bytes -> bytes.
Variable World : Type.
Variable ext : bytes -> World -> bool * World.
Variable re : regex.

Abbreviation eng := (engine sha1 World ext).

Lemma ends_self_predicate {A} (v : bytes) (f : bool -> pass A) st
    (Q : outcome A -> reducer World -> Prop) :
  ends eng (f (predicate sha1 World ext v st).1) (predicate sha1 World ext v st).2 Q ->
  ends eng (self_predicate v ≫= f) st Q.
Proof. unfold ends. simpl. by destruct (predicate sha1 World ext v st). Qed.

Lemma predicate_rejected (v : bytes) st :
  (predicate sha1 World ext v st).1 = false ->
  current (predicate sha1 World ext v st).2 = current st.
Proof.
  destruct (predicate sha1 World ext v st) as [r st'] eqn:Hp. simpl. intros ->.
  by destruct (predicate_current _ _ _ _ _ _ _ Hp) as [[? _]|(_ & _ & _ & ? & _)].
Qed.

Lemma sub_current_attempt_ends {A} (p : pattern) (f : bool -> pass A) st
    (Q : outcome A -> reducer World -> Prop) :
  Q (Raised ReError) st ->
  (forall r st', ends eng (f r) st' Q) ->
  ends eng (sub_current re p attempt ≫= f) st Q.
Proof.
  intros Hre Hf. unfold sub_current, ends.
  rewrite run_bind, run_bind, run_self_current.
  destruct (re_sub re p [] (current st)) as [v|]; [|done].
  rewrite run_attempt. destruct (sort_key_lt v (current st)); [|apply Hf].
  destruct (predicate sha1 World ext v st). apply Hf.
Qed.

Lemma pull_out_braces_loop_in_bounds (n : nat) (i : nat) st :
  ends eng
    (pull_out_braces_loop re n (find_paired_brackets ("{"%byte, "}"%byte) (current st)) i) st
    (fun o _ => in_bounds o).
Proof.
  revert i st. induction n as [|n IH]; intros i st; [done|].
  cbn [pull_out_braces_loop].
  destruct (find_paired_brackets ("{"%byte, "}"%byte) (current st) !! i)
    as [[u v]|] eqn:Hi; [|done].
  apply list_elem_of_lookup_2 in Hi. unfold find_paired_brackets in Hi.
  pose proof (paired_scan_inv "{"%byte "}"%byte (current st)) as (_ & _ & Hsound & _).
  destruct (Hsound u v Hi) as (Huv & Hu%lookup_lt_Some & Hv%lookup_lt_Some & _).
  apply ends_self_current.
  destruct (Nat.leb_spec (length (current st)) u); [lia|].
  rewrite length_insert.
  destruct (Nat.leb_spec (length (current st)) v); [lia|].
  rewrite bool_decide_eq_false_2.
  2:{ intros Heq%(f_equal length). rewrite length_delete, length_insert in Heq.
      - lia.
      - apply lookup_lt_is_Some. by rewrite length_insert. }
  apply ends_self_predicate.
  pose proof (predicate_rejected (delete v (<[u:=";"%byte]> (current st))) st) as Hrej.
  destruct (predicate sha1 World ext (delete v (<[u:=";"%byte]> (current st))) st)
    as [[] st1]; simpl in *.
  - apply sub_current_attempt_ends; [done|]. intros _ st2.
    apply sub_current_attempt_ends; [done|]. intros _ st3.
    apply ends_self_current. apply IH.
  - rewrite <- (Hrej eq_refl). apply IH.
Qed.
End PullOutBraces.

(** X17. [pull_out_braces] never fails on an index or on its assertion:
    the pair [(u, v)] it takes from [braces] always lies within [current]
    (the list is recomputed whenever [current] may have changed), and the
    candidate, one byte shorter, always differs from [current].  Whatever
    the fuel, the external predicate and the regular expression engine, the
    outcome is neither an [IndexError] nor an [AssertionError]. *)
Theorem pull_out_braces_in_bounds (sha1 : bytes -> bytes) (World : Type)
    (ext : bytes -> World -> bool * World) (re : regex) (fuel : nat)
    (st : reducer World) :
  in_bounds (run (engine sha1 World ext) (pull_out_braces re fuel) st).1.
Proof.
  unfold pull_out_braces.
  rewrite run_bind, run_self_current.
  apply (pull_out_braces_loop_in_bounds sha1 World ext re fuel O st).
Qed.

(** ** Removing a byte, stripping matches *)

Lemma replace_go_byte (c : byte) (s : bytes) :
  replace_go [c] [] O s = filter (fun x => x <> c) s.
Proof.
  induction s as [|x s IH]; simpl; [done|].
  rewrite filter_cons. case_bool_decide as Hcx; simpl.
  - subst x. rewrite decide_False by (by intros ?). apply IH.
  - rewrite decide_True by (by intros ->). by rewrite IH.
Qed.

Lemma filter_absent (c : byte) (s : bytes) :
  c ∉ s -> filter (fun x => x <> c) s = s.
Proof.
  induction s as [|x s IH]; [done|]. intros [Hcx Hc]%not_elem_of_cons.
  rewrite filter_cons, decide_True by done. by rewrite IH.
Qed.

(** X18. [remove_byte(c)], for a byte given as an [int], always returns,
    and [current] is afterwards either what it was or what it was with every
    [c] deleted; it returns true only if [current] held a [c].  When
    [current] holds no [c], it returns false and leaves the engine
    untouched: [self.predicate] is not called. *)
Theorem remove_byte_all_or_nothing (sha1 : bytes -> bytes) (World : Type)
    (ext : bytes -> World -> bool * World) (c : byte) (st : reducer World) :
  exists r st',
    run (engine sha1 World ext) (remove_byte (PyInt c)) st = (Returned r, st')
    /\ (current st' = current st
        \/ current st' = filter (fun x => x <> c) (current st))
    /\ (r = true -> c ∈ current st)
    /\ (c ∉ current st -> r = false /\ st' = st).
Proof.
  unfold remove_byte. rewrite run_bind, run_self_current. simpl to_bs.
  unfold bytes_replace. rewrite replace_go_byte. rewrite run_attempt.
  destruct (sort_key_lt (filter (fun x => x <> c) (current st)) (current st)) eqn:Hlt.
  - assert (Hin : c ∈ current st).
    { destruct (decide (c ∈ current st)) as [|Hc]; [done|].
      rewrite (filter_absent _ _ Hc), sort_key_lt_irrefl in Hlt. done. }
    destruct (predicate sha1 World ext (filter (fun x => x <> c) (current st)) st)
      as [r st'] eqn:Hp.
    exists r, st'. split_and!; [done| |done|done].
    destruct (predicate_current _ _ _ _ _ _ _ Hp) as [[? _]|(? & _)]; auto.
  - exists false, st. split_and!; [done|by left|done|done].
Qed.

Lemma elem_of_range_set (a b i : nat) : i ∈ range_set a b <-> (a <= i < b)%nat.
Proof. unfold range_set. rewrite elem_of_list_to_set, elem_of_seq. lia. Qed.

(** X19. [strip_re] always returns, once its fuel exceeds the number of
    matches, and deletes only matched bytes: [current] is afterwards what it
    was with some bytes deleted, each of them inside the span of a match of
    the expression in the former [current].  When there is no match, the
    engine is left untouched. *)
Theorem strip_re_deletes_matches (sha1 : bytes -> bytes) (World : Type)
    (ext : bytes -> World -> bool * World) (re : regex) (fuel : nat)
    (expr : pattern) (st : reducer World) :
  (length (re_finditer re expr (current st)) + 1 <= fuel)%nat ->
  exists st',
    run (engine sha1 World ext) (strip_re re fuel expr) st = (Returned tt, st')
    /\ (exists keep : nat -> bool,
          current st' = select_from keep O (current st)
          /\ forall i, (i < length (current st))%nat -> keep i = false ->
               exists m, m ∈ re_finditer re expr (current st)
                         /\ (m_start m <= i < m_end m)%nat)
    /\ (re_finditer re expr (current st) = [] -> st' = st).
Proof.
  intros Hfuel. unfold strip_re. rewrite run_bind, run_self_current.
  set (sets := map (fun m => range_set (m_start m) (m_end m))
                 (re_finditer re expr (current st))).
  pose proof (attempt_delete_many_sets_returns sha1 World ext fuel sets st) as Hret.
  apply returns_run in Hret as ([] & st' & Hrun & keep & Hcur & Hkeep).
  2:{ unfold sets. rewrite length_map. lia. }
  exists st'. split_and!; [done| |].
  - exists keep. split; [done|]. intros i Hi Hfalse.
    destruct (Hkeep i Hi Hfalse) as (s & Hs & His).
    apply list_elem_of_fmap in Hs as (m & -> & Hm).
    exists m. split; [done|]. by apply elem_of_range_set.
  - intros Hnone.
    rewrite (attempt_delete_many_sets_nothing sha1 World ext fuel sets st) in Hrun.
    + congruence.
    + unfold sets. rewrite Hnone. by intros s x ?%elem_of_nil.
Qed.

Lemma strip_re_deletes_matches_witness :
  exists st',
    run (engine rolling_digest unit accept_all)
      (strip_re backtracking 3 P_block_comment) (fresh rolling_digest (b_lit "a/*b*/c"))
    = (Returned tt, st')
    /\ (exists keep : nat -> bool,
          current st' = select_from keep O (current (fresh rolling_digest (b_lit "a/*b*/c")))
          /\ forall i, (i < length (current (fresh rolling_digest (b_lit "a/*b*/c"))))%nat ->
               keep i = false ->
               exists m, m ∈ re_finditer backtracking P_block_comment
                               (current (fresh rolling_digest (b_lit "a/*b*/c")))
                         /\ (m_start m <= i < m_end m)%nat)
    /\ (re_finditer backtracking P_block_comment
          (current (fresh rolling_digest (b_lit "a/*b*/c"))) = [] ->
        st' = fresh rolling_digest (b_lit "a/*b*/c")).
Proof.
  apply (strip_re_deletes_matches rolling_digest unit accept_all backtracking 3
           P_block_comment (fresh rolling_digest (b_lit "a/*b*/c"))).
  vm_compute. lia.
Defined.

(** ** The number of questions [find_integer] asks *)

Section FindIntegerCount.
Variable g : Z -> bool.

Lemma find_integer_probe_count (fuel : nat) (lo hi : Z) (log : list Z)
    (lo' hi' : Z) (log' : list Z) :
  run (oracle_handler g) (find_integer_probe fuel ask lo hi) log
  = (Returned (lo', hi'), log') ->
  exists k : nat,
    hi' = hi * 2 ^ Z.of_nat k
    /\ length log' = (length log + k + 1)%nat
    /\ (k = O -> lo' = lo)
    /\ (k <> O -> 2 * lo' = hi').
Proof.
  revert lo hi log. induction fuel as [|fuel IH]; intros lo hi log; [done|].
  cbn [find_integer_probe]. rewrite run_bind, run_ask.
  destruct (g hi).
  - intros (k & Hhi & Hlen & Hk0 & Hk)%IH. exists (S k). split_and!.
    + rewrite Hhi, Nat2Z.inj_succ, Z.pow_succ_r by lia. lia.
    + rewrite Hlen, length_app. simpl. lia.
    + done.
    + intros _. destruct k as [|k].
      * rewrite Hhi, (Hk0 eq_refl). simpl. lia.
      * by apply Hk.
  - intros [= <- <- <-]. exists O. split_and!; [lia|rewrite length_app; simpl; lia|done|done].
Qed.

Lemma log2_up_halves (d d' : Z) :
  2 <= d -> 1 <= d' -> 2 * d' <= d + 1 -> Z.log2_up d' + 1 <= Z.log2_up d.
Proof.
  intros Hd Hd' Hhalf.
  pose proof (Z.log2_up_pos d ltac:(lia)) as Hpos.
  destruct (Z.log2_up_spec d ltac:(lia)) as [_ Hle].
  assert (Hpow : 2 ^ Z.log2_up d = 2 * 2 ^ (Z.log2_up d - 1)).
  { rewrite <- Z.pow_succ_r by lia. f_equal. lia. }
  assert (d' <= 2 ^ (Z.log2_up d - 1)) as Hd'le by lia.
  apply Z.log2_up_le_pow2 in Hd'le; lia.
Qed.

Lemma find_integer_bisect_count (fuel : nat) (lo hi : Z) (log : list Z)
    (n : Z) (log' : list Z) :
  run (oracle_handler g) (find_integer_bisect fuel ask lo hi) log = (Returned n, log') ->
  lo < hi ->
  (length log' <= length log + Z.to_nat (Z.log2_up (hi - lo)))%nat /\ lo <= n.
Proof.
  revert lo hi log. induction fuel as [|fuel IH]; intros lo hi log; [done|].
  cbn [find_integer_bisect]. destruct (Z.ltb_spec (lo + 1) hi) as [Hlt|Hge].
  - assert (lo < (lo + hi) / 2 < hi) as Hmid.
    { pose proof (Z.div_mod (lo + hi) 2). pose proof (Z.mod_pos_bound (lo + hi) 2). lia. }
    assert (2 * ((lo + hi) / 2) <= lo + hi /\ lo + hi <= 2 * ((lo + hi) / 2) + 1) as Hdiv.
    { pose proof (Z.div_mod (lo + hi) 2). pose proof (Z.mod_pos_bound (lo + hi) 2). lia. }
    rewrite run_bind, run_ask. intros Hrun _.
    pose proof (Z.log2_up_nonneg (hi - lo)).
    destruct (g ((lo + hi) / 2)).
    + apply IH in Hrun as [Hlen Hn]; [|lia].
      pose proof (log2_up_halves (hi - lo) (hi - (lo + hi) / 2)).
      pose proof (Z.log2_up_nonneg (hi - (lo + hi) / 2)).
      rewrite length_app in Hlen. simpl in Hlen. split; lia.
    + apply IH in Hrun as [Hlen Hn]; [|lia].
      pose proof (log2_up_halves (hi - lo) ((lo + hi) / 2 - lo)).
      pose proof (Z.log2_up_nonneg ((lo + hi) / 2 - lo)).
      rewrite length_app in Hlen. simpl in Hlen. split; lia.
  - intros [= <- <-] _. split; lia.
Qed.
End FindIntegerCount.

(** X20. [find_integer] asks few questions: when it returns [n], it has
    called [f] at most [2 * log2(n) + 5] times (at most 4 times when
    [n <= 3]), whatever [f] is. *)
Theorem find_integer_asks_logarithmically (g : Z -> bool) (m : Z) (fuel : nat) :
  (forall k, m < k -> g k = false) ->
  (Z.to_nat m + 2 <= fuel)%nat ->
  exists n calls,
    find_integer_logged fuel g = (Returned n, calls)
    /\ 0 <= n
    /\ Z.of_nat (length calls) <= 2 * Z.log2 n + 5
    /\ (n <= 3 -> Z.of_nat (length calls) = n + 1).
Proof.
  intros Hfalse Hfuel.
  destruct (find_integer_logged_any g m fuel Hfalse Hfuel)
    as (n & calls & Hrun & Hn & _).
  exists n, calls. split_and!; [done|done|..];
    revert Hrun; unfold find_integer_logged, find_integer; simpl.
  - destruct (g 1); simpl; [|intros [= <- <-]; simpl; lia].
    destruct (g 2); simpl; [|intros [= <- <-]; simpl; lia].
    destruct (g 3); simpl; [|intros [= <- <-]; simpl; lia].
    destruct (g 4); simpl; [|intros [= <- <-]; simpl; lia].
    change (pbind ?a ?b) with (a ≫= b).
    intros ([lo hi] & log & Hprobe & Hbisect)%run_bind_returned.
    apply find_integer_probe_count in Hprobe as (k & Hhi & Hlen & Hk0 & Hk).
    simpl in Hlen.
    assert (0 < 2 ^ Z.of_nat k) by (apply Z.pow_pos_nonneg; lia).
    destruct k as [|k].
    + rewrite (Hk0 eq_refl) in Hbisect. simpl in Hhi. subst hi.
      apply find_integer_bisect_count in Hbisect as [Hcount Hlo]; [|lia].
      change (Z.log2_up (5 * 2 ^ Z.of_nat 0 - 4)) with 0 in Hcount.
      assert (2 <= Z.log2 n) by (apply (Z.log2_le_pow2 n 2); lia).
      lia.
    + specialize (Hk ltac:(done)).
      apply find_integer_bisect_count in Hbisect as [Hcount Hlo]; [|lia].
      rewrite Nat2Z.inj_succ, Z.pow_succ_r in Hhi by lia.
      assert (0 < 2 ^ Z.of_nat k) by (apply Z.pow_pos_nonneg; lia).
      assert (Z.log2_up (hi - lo) <= Z.of_nat k + 3).
      { apply Z.log2_up_le_pow2; [lia|].
        rewrite Z.pow_add_r by lia. change (2 ^ 3) with 8. lia. }
      assert (Z.of_nat k + 2 <= Z.log2 n).
      { apply Z.log2_le_pow2; [lia|].
        rewrite Z.pow_add_r by lia. change (2 ^ 2) with 4. lia. }
      pose proof (Z.log2_up_nonneg (hi - lo)). lia.
  - destruct (g 1); simpl; [|intros [= <- <-]; simpl; lia].
    destruct (g 2); simpl; [|intros [= <- <-]; simpl; lia].
    destruct (g 3); simpl; [|intros [= <- <-]; simpl; lia].
    destruct (g 4); simpl; [|intros [= <- <-]; simpl; lia].
    change (pbind ?a ?b) with (a ≫= b).
    intros ([lo hi] & log & Hprobe & Hbisect)%run_bind_returned.
    apply find_integer_probe_count in Hprobe as (k & Hhi & Hlen & Hk0 & Hk).
    assert (0 < 2 ^ Z.of_nat k) by (apply Z.pow_pos_nonneg; lia).
    assert (4 <= lo).
    { destruct k as [|k]; [rewrite (Hk0 eq_refl); lia|].
      specialize (Hk ltac:(done)). lia. }
    assert (lo < hi).
    { destruct k as [|k]; [rewrite (Hk0 eq_refl), Hhi; simpl; lia|].
      specialize (Hk ltac:(done)). lia. }
    apply find_integer_bisect_count in Hbisect as [_ Hlo]; [|done]. lia.
Qed.

Lemma find_integer_asks_logarithmically_witness :
  exists n calls,
    find_integer_logged 12 (fun k => bool_decide (k <> 7) && (k <=? 10)) = (Returned n, calls)
    /\ 0 <= n
    /\ Z.of_nat (length calls) <= 2 * Z.log2 n + 5
    /\ (n <= 3 -> Z.of_nat (length calls) = n + 1).
Proof.
  apply (find_integer_asks_logarithmically
           (fun k => bool_decide (k <> 7) && (k <=? 10)) 10 12).
  - intros k Hk. rewrite (proj2 (Z.leb_gt k 10)) by lia. apply andb_false_r.
  - simpl. lia.
Defined.

(** ** String literals and bracket contents *)

Lemma length_indices_of (c : byte) (i : nat) (target : bytes) :
  (length (indices_of c i target) <= length target)%nat.
Proof.
  revert i. induction target as [|b target IH]; intros i; simpl; [lia|].
  specialize (IH (S i)). case_bool_decide; simpl; lia.
Qed.

Lemma indices_of_absent (c : byte) (i : nat) (target : bytes) :
  c ∉ target -> indices_of c i target = [].
Proof.
  revert i. induction target as [|b target IH]; intros i Hc; simpl; [done|].
  apply not_elem_of_cons in Hc as [Hcb Hc].
  rewrite bool_decide_eq_false_2 by done. by apply IH.
Qed.

Lemma length_adjacent (indices : list nat) : (length (adjacent indices) <= length indices)%nat.
Proof. unfold adjacent. rewrite length_zip. lia. Qed.

Lemma kill_strings_each_returns (sha1 : bytes -> bytes) (World : Type)
    (ext : bytes -> World -> bool * World) (fuel : nat) (quotes : list byte)
    (cur0 : bytes) (st : reducer World) :
  current st `sublist_of` cur0 -> (length cur0 + 1 <= fuel)%nat ->
  returns (engine sha1 World ext) (kill_strings_each fuel quotes) st
    (fun _ st' => current st' `sublist_of` cur0).
Proof.
  revert st. induction quotes as [|c quotes IH]; intros st Hcur Hfuel.
  { by apply returns_ret. }
  cbn [kill_strings_each]. apply returns_self_current. apply returns_bind.
  eapply returns_mono.
  { apply attempt_delete_many_sets_returns. rewrite length_map.
    pose proof (length_adjacent (indices_of c O (current st))).
    pose proof (length_indices_of c O (current st)).
    pose proof (sublist_length _ _ Hcur). lia. }
  intros [] st1 Hdel. apply IH; [|done].
  etrans; [by eapply deletes_within_sublist|done].
Qed.

(** X21. [kill_strings] always returns, once its fuel exceeds
    [len(current)], and only deletes bytes: [current] is afterwards a
    subsequence of what it was.  When [current] holds neither quote byte,
    the engine is left untouched. *)
Theorem kill_strings_deletes (sha1 : bytes -> bytes) (World : Type)
    (ext : bytes -> World -> bool * World) (fuel : nat) (st : reducer World) :
  (length (current st) + 1 <= fuel)%nat ->
  exists st',
    run (engine sha1 World ext) (kill_strings fuel) st = (Returned tt, st')
    /\ current st' `sublist_of` current st
    /\ (x27 ∉ current st -> x22 ∉ current st -> st' = st).
Proof.
  intros Hfuel.
  pose proof (kill_strings_each_returns sha1 World ext fuel [x27; x22] (current st) st
                (reflexivity _) Hfuel) as Hret.
  apply returns_run in Hret as ([] & st' & Hrun & Hsub).
  exists st'. split_and!; [done|done|].
  intros H27 H22. unfold kill_strings in Hrun. cbn [kill_strings_each] in Hrun.
  rewrite run_bind, run_self_current, (indices_of_absent _ _ _ H27) in Hrun.
  rewrite run_bind, attempt_delete_many_sets_nothing in Hrun
    by (by intros s x ?%elem_of_nil).
  rewrite run_bind, run_self_current, (indices_of_absent _ _ _ H22) in Hrun.
  rewrite run_bind, attempt_delete_many_sets_nothing in Hrun
    by (by intros s x ?%elem_of_nil).
  by injection Hrun.
Qed.

Lemma kill_strings_deletes_witness :
  exists st',
    run (engine rolling_digest unit accept_all) (kill_strings 6)
      (fresh rolling_digest (b_lit "a'b'c")) = (Returned tt, st')
    /\ current st' `sublist_of` current (fresh rolling_digest (b_lit "a'b'c"))
    /\ (x27 ∉ current (fresh rolling_digest (b_lit "a'b'c")) ->
        x22 ∉ current (fresh rolling_digest (b_lit "a'b'c")) ->
        st' = fresh rolling_digest (b_lit "a'b'c")).
Proof.
  apply (kill_strings_deletes rolling_digest unit accept_all 6
           (fresh rolling_digest (b_lit "a'b'c"))).
  simpl. lia.
Defined.

Lemma delete_bracket_contents_each_ends (sha1 : bytes -> bytes) (World : Type)
    (ext : bytes -> World -> bool * World) (fuel : nat) (kinds : list (byte * byte))
    (cur0 : bytes) (st : reducer World) :
  current st `sublist_of` cur0 -> (2 * length cur0 + 3 <= fuel)%nat ->
  ends (engine sha1 World ext) (delete_bracket_contents_each fuel kinds) st
    (fun o st' =>
       current st' `sublist_of` cur0
       /\ match o with
          | Returned _ => True
          | Raised e => e = ValueError
          | Timeout => False
          end).
Proof.
  revert st. induction kinds as [|brackets kinds IH]; intros st Hcur Hfuel; [done|].
  cbn [delete_bracket_contents_each]. apply ends_self_current.
  apply ends_returns_bind. eapply returns_mono.
  { apply attempt_delete_many_sets_returns. rewrite length_map.
    pose proof (length_find_paired_brackets brackets (current st)).
    pose proof (sublist_length _ _ Hcur). lia. }
  intros [] st1 Hdel.
  assert (Hst1 : current st1 `sublist_of` cur0).
  { etrans; [by eapply deletes_within_sublist|done]. }
  apply ends_bind. eapply ends_mono.
  { by apply (reduce_by_delimiter_ends sha1 World ext fuel (PyInt brackets.1) cur0). }
  intros [r|e|] st2 [Hst2 Ho]; [|done|done]. by apply IH.
Qed.

(** X22. [delete_bracket_contents] always ends, given fuel for
    [2 * len(current) + 3] turns: it returns or raises the [ValueError] of a
    split on the empty separator, and [current] is afterwards a subsequence
    of what it was. *)
Theorem delete_bracket_contents_halts (sha1 : bytes -> bytes) (World : Type)
    (ext : bytes -> World -> bool * World) (fuel : nat) (st : reducer World) :
  (2 * length (current st) + 3 <= fuel)%nat ->
  exists o st',
    run (engine sha1 World ext) (delete_bracket_contents fuel) st = (o, st')
    /\ current st' `sublist_of` current st
    /\ (o = Returned tt \/ o = Raised ValueError).
Proof.
  intros Hfuel.
  pose proof (delete_bracket_contents_each_ends sha1 World ext fuel BRACKETS (current st) st
                (reflexivity _) Hfuel) as Hends.
  unfold ends in Hends. fold (delete_bracket_contents fuel) in Hends.
  destruct (run (engine sha1 World ext) (delete_bracket_contents fuel) st) as [o st'].
  simpl in Hends. destruct Hends as [Hsub Ho].
  exists o, st'. split_and!; [done|done|].
  destruct o as [[]|e|]; [by left|right; by subst|done].
Qed.

Lemma delete_bracket_contents_halts_witness :
  exists o st',
    run (engine rolling_digest unit accept_all) (delete_bracket_contents 13)
      (fresh rolling_digest (b_lit "a(b)c")) = (o, st')
    /\ current st' `sublist_of` current (fresh rolling_digest (b_lit "a(b)c"))
    /\ (o = Returned tt \/ o = Raised ValueError).
Proof.
  apply (delete_bracket_contents_halts rolling_digest unit accept_all 13
           (fresh rolling_digest (b_lit "a(b)c"))).
  simpl. lia.
Defined.

(** ** Identifiers *)

Lemma length_m_group0 (s : bytes) (m : re_match) : (length (m_group0 s m) <= length s)%nat.
Proof.
  unfold m_group0, slice. rewrite length_take, length_drop. lia.
Qed.

Lemma count_identifier_keys (k : bytes) (positions : list (bytes * nat)) (kc : bytes * nat) :
  kc ∈ count_identifier k positions -> kc.1 = k \/ exists c, (kc.1, c) ∈ positions.
Proof.
  induction positions as [|[k' c] positions IH]; simpl.
  - intros ->%list_elem_of_singleton. by left.
  - case_bool_decide as Hk.
    + intros [->|Hin]%elem_of_cons; [right; exists c; left|].
      right. exists kc.2. right. by destruct kc.
    + intros [->|Hin]%elem_of_cons; [right; exists c; left|].
      destruct (IH Hin) as [?|[c' ?]]; [by left|]. right. exists c'. by right.
Qed.

Section Identifiers.
Variable sha1 : bytes -> bytes.
Variable World : Type.
Variable ext : bytes -> World -> bool * World.
Variable re : regex.

Abbreviation eng := (engine sha1 World ext).

Lemma repeated_identifiers_length (cur s : bytes) :
  s ∈ repeated_identifiers re cur -> (length s <= length cur)%nat.
Proof.
  unfold repeated_identifiers.
  intros ([k c] & -> & Hkc)%list_elem_of_fmap. simpl.
  apply elem_of_sort_by, list_elem_of_filter in Hkc as [_ Hkc].
  revert Hkc. unfold identifier_positions.
  assert (H : forall (ms : list re_match) (positions : list (bytes * nat)),
            (forall k c, (k, c) ∈ positions -> (length k <= length cur)%nat) ->
            forall k c,
              (k, c) ∈ fold_left (fun positions m =>
                         count_identifier (m_group0 cur m) positions) ms positions ->
              (length k <= length cur)%nat).
  { induction ms as [|m ms IH]; intros positions Hpos k' c'; simpl; [apply Hpos|].
    apply IH. intros k'' c'' Hin.
    destruct (count_identifier_keys _ _ _ Hin) as [Heq|[c0 Hin']]; simpl in *.
    - subst k''. apply length_m_group0.
    - by eapply Hpos. }
  apply H. by intros k' c' ?%elem_of_nil.
Qed.

Lemma normalize_each_ends (fuel : nat) (identifiers : list bytes) (cur0 : bytes) st :
  current st `sublist_of` cur0 ->
  (forall s, s ∈ identifiers -> (length s <= length cur0)%nat) ->
  (2 * length cur0 + 3 <= fuel)%nat ->
  ends eng (normalize_each fuel identifiers) st
    (fun o st' =>
       current st' `sublist_of` cur0
       /\ match o with
          | Returned _ => True
          | Raised e => e = ValueError
          | Timeout => False
          end).
Proof.
  revert st. induction identifiers as [|s identifiers IH]; intros st Hcur Hlen Hfuel; [done|].
  cbn [normalize_each]. apply ends_split_current.
  destruct (bytes_split s (current st)) as [parts|] eqn:Hsplit; [|done].
  destruct (bytes_join_split _ _ _ Hsplit) as [Hs Hjoin].
  pose proof (length_bytes_split _ _ _ Hsplit) as Hparts.
  pose proof (sublist_length _ _ Hcur) as Hcurlen.
  assert (Hs_len : (length s <= length cur0)%nat) by (apply Hlen; by left).
  assert (Hcand : forall d ls, d `sublist_of` s -> ls `sublist_of` parts ->
            bytes_join d ls `sublist_of` cur0).
  { intros d ls Hd Hls. etrans; [|exact Hcur]. rewrite <- Hjoin.
    etrans; [by apply bytes_join_sublist|by apply bytes_join_sublist_sep]. }
  assert (Hsweep : forall (delimiter : bytes) st2,
            delimiter `sublist_of` s -> current st2 `sublist_of` cur0 ->
            ends eng
              (linear_reduce fuel parts (fun ls => self_predicate (bytes_join delimiter ls))
               ≫= fun _ => normalize_each fuel identifiers) st2
              (fun o st' =>
                 current st' `sublist_of` cur0
                 /\ match o with
                    | Returned _ => True
                    | Raised e => e = ValueError
                    | Timeout => False
                    end)).
  { intros delimiter st2 Hd Hst2. apply ends_returns_bind. eapply returns_mono.
    - apply (linear_reduce_returns eng _
               (fun r s' => r `sublist_of` parts /\ current s' `sublist_of` cur0)).
      + intros r c s' [Hr Hs'] Hc _. apply returns_self_predicate.
        assert (c `sublist_of` parts) by (by etrans).
        assert (current (predicate sha1 World ext (bytes_join delimiter c) s').2
                `sublist_of` cur0).
        { apply predicate_only_deletes; [done|]. by apply Hcand. }
        by destruct (predicate sha1 World ext (bytes_join delimiter c) s').1.
      + done.
      + lia.
    - intros r s' [[_ Hs'] _]. apply IH; [done| |done].
      intros s0 Hs0. apply Hlen. by right. }
  apply ends_self_predicate.
  pose proof (predicate_only_deletes sha1 World ext cur0 (bytes_join [] parts) st Hcur) as Hst1.
  destruct (predicate sha1 World ext (bytes_join [] parts) st) as [joined st1]. simpl in *.
  assert (current st1 `sublist_of` cur0).
  { apply Hst1. apply Hcand; [apply sublist_nil_l|done]. }
  destruct joined.
  - apply ends_ret_bind. apply Hsweep; [apply sublist_nil_l|done].
  - apply ends_returns_bind. eapply returns_mono.
    + apply (linear_reduce_returns eng _
               (fun r s' => r `sublist_of` s /\ current s' `sublist_of` cur0)).
      * intros r c s' [Hr Hs'] Hc _. apply returns_self_predicate.
        assert (c `sublist_of` s) by (by etrans).
        assert (current (predicate sha1 World ext (bytes_join c parts) s').2
                `sublist_of` cur0).
        { apply predicate_only_deletes; [done|]. by apply Hcand. }
        by destruct (predicate sha1 World ext (bytes_join c parts) s').1.
      * done.
      * lia.
    + intros delimiter st2 [[Hd Hst2] _]. by apply Hsweep.
Qed.
End Identifiers.

(** X23. [normalize_identifiers] always ends, given fuel for
    [2 * len(current) + 3] turns, whatever the identifiers found are: it
    returns, or raises the [ValueError] of a split on an empty identifier,
    and it only deletes bytes: [current] is afterwards a subsequence of what
    it was. *)
Theorem normalize_identifiers_halts (sha1 : bytes -> bytes) (World : Type)
    (ext : bytes -> World -> bool * World) (re : regex) (fuel : nat)
    (st : reducer World) :
  (2 * length (current st) + 3 <= fuel)%nat ->
  exists o st',
    run (engine sha1 World ext) (normalize_identifiers re fuel) st = (o, st')
    /\ current st' `sublist_of` current st
    /\ (o = Returned tt \/ o = Raised ValueError).
Proof.
  intros Hfuel.
  assert (Hends : ends (engine sha1 World ext) (normalize_identifiers re fuel) st
            (fun o st' =>
               current st' `sublist_of` current st
               /\ match o with
                  | Returned _ => True
                  | Raised e => e = ValueError
                  | Timeout => False
                  end)).
  { unfold normalize_identifiers. apply ends_self_current.
    apply normalize_each_ends; [done| |done].
    intros s. apply repeated_identifiers_length. }
  unfold ends in Hends.
  destruct (run (engine sha1 World ext) (normalize_identifiers re fuel) st) as [o st'].
  simpl in Hends. destruct Hends as [Hsub Ho].
  exists o, st'. split_and!; [done|done|].
  destruct o as [[]|e|]; [by left|right; by subst|done].
Qed.

Lemma normalize_identifiers_halts_witness :
  exists o st',
    run (engine rolling_digest unit accept_all) (normalize_identifiers backtracking 19)
      (fresh rolling_digest (b_lit "ab ab c")) = (o, st')
    /\ current st' `sublist_of` current (fresh rolling_digest (b_lit "ab ab c"))
    /\ (o = Returned tt \/ o = Raised ValueError).
Proof.
  apply (normalize_identifiers_halts rolling_digest unit accept_all backtracking 19
           (fresh rolling_digest (b_lit "ab ab c"))).
  simpl. lia.
Defined.
